(** * BigDecimal: arbitrary-precision decimal arithmetic

    A shallow embedding of the [BigDecimal] class (decimal.ts) and of its
    rounding modes (rounding.ts), with the properties of its specification.

    The class comes in two versions that agree line by line on the methods
    they share.  One calls the first field [mantissa] and has [equalValue];
    the other calls it [significant] and has [divideToIntegralValue],
    [remainder], [integralPart] and [decimalPart].  The embedding has the
    methods of both, with the field called [significant].

    Conventions of the embedding.
    - A JavaScript [bigint] is a [Z].  BigInt division [/] truncates toward
      zero and [%] takes the sign of the dividend: they are [Z.quot] and
      [Z.rem], never [Z.div] and [Z.modulo].
    - The [exponent] field and the [precision] of a rounding are JavaScript
      [number]s that the class only ever uses as integers; they are [Z] here.
      Arithmetic on numbers is exact on integers up to [2 ^ 53] in absolute
      value and rounds beyond.  The methods that compute on exponents are
      given twice: with exact arithmetic, and in the module [Rounded] with
      the rounding of [number].  The two agree on operands of [moderate]
      size ([rounded_normalized], [rounded_add], [rounded_divide], ...).
      A theorem whose truth depends on exponents not being rounded is
      stated for the methods of [Rounded] and for [moderate] operands; the
      others are stated for the methods with exact arithmetic.
    - A thrown [Error] is the [Err] case of [result].  The class throws plain
      [Error]s; [DecimalError] groups their messages into the four kinds of
      failure that the specification names.
    - A [while] loop takes a fuel argument, and a method that calls itself on
      the negation of its operand, or with its operands exchanged, takes a
      depth argument; lemmas show that the fuel and the depth that the
      callers pass are never exhausted, with exact and with rounded
      exponents.
    - Native floating point is not modelled.  [valueOf(number)] and
      [number()] are left out, and the floating-point seed of [sqrt] is a
      parameter. *)

From Stdlib Require Import ZArith Bool List Lia.
From Stdlib Require Import Ascii String DecimalString.
From Stdlib Require Import QArith Qround Qabs Qpower Lqa.
From Stdlib Require DecimalFacts DecimalPos.
Import ListNotations.

#[local] Open Scope Z_scope.

(** ** Errors *)

(** The kinds of failure, each with the messages of the [throw new Error(...)]
    sites that it stands for. *)
Inductive DecimalError : Type :=
| InvalidOperand      (* "NaN and Infinite are not supported",
                         "Negative exponents are not supported",
                         "Negative numbers are not supported" *)
| InvalidFormat       (* "Invalid string" *)
| DivisionUndefined   (* "0/0 is undefined" *)
| DivisionByZero.     (* "Division by zero" *)

Inductive result (A : Type) : Type :=
| Ok (value : A)
| Err (error : DecimalError).

Arguments Ok {A} value.
Arguments Err {A} error.

Definition bind {A B : Type} (r : result A) (k : A -> result B) : result B :=
  match r with
  | Ok a => k a
  | Err e => Err e
  end.

Definition fmap {A B : Type} (f : A -> B) (r : result A) : result B :=
  bind r (fun a => Ok (f a)).

Declare Scope result_scope.
Delimit Scope result_scope with result.
Notation "x <- r ;; k" := (bind r (fun x => k))
  (at level 61, r at next level, right associativity) : result_scope.

(** ** The data model *)

Record BigDecimal : Type := mk { significant : Z; exponent : Z }.

Definition MINUS_ONE : BigDecimal := mk (-1) 0.
Definition ZERO : BigDecimal := mk 0 0.
Definition ZERO_DOT_FIVE : BigDecimal := mk 5 (-1).
Definition ONE : BigDecimal := mk 1 0.
Definition TWO : BigDecimal := mk 2 0.
Definition TEN : BigDecimal := mk 1 1.

Definition SQRT_ROUNDS : nat := 10.
Definition PRECISION : Z := 10.

(** ** Normalization *)

(** The loop [while (significant % 10n === 0n) { significant /= 10n; exponent++ }],
    with [exponent++] exact ([Rounded.normalized_loop] rounds it). *)
Fixpoint normalized_loop (fuel : nat) (significant exponent : Z) : BigDecimal :=
  match fuel with
  | O => mk significant exponent
  | S fuel' =>
      if Z.rem significant 10 =? 0
      then normalized_loop fuel' (Z.quot significant 10) (exponent + 1)
      else mk significant exponent
  end.

(** Every turn of the loop divides a nonzero significant by ten, so a
    significant below [2 ^ fuel] in absolute value leaves the loop by its
    own test. *)
Definition normalized_fuel (significant : Z) : nat :=
  S (Z.to_nat (Z.log2 (Z.abs significant))).

Definition normalized (this : BigDecimal) : BigDecimal :=
  if significant this =? 0 then mk 0 0
  else normalized_loop (normalized_fuel (significant this))
                       (significant this) (exponent this).

(** ** Sign, negation, comparison by components *)

Definition negate (this : BigDecimal) : BigDecimal :=
  mk (- significant this) (exponent this).

Definition signum (this : BigDecimal) : Z :=
  if significant this <? 0 then -1
  else if significant this =? 0 then 0
  else 1.

Definition abs (this : BigDecimal) : BigDecimal :=
  if significant this <? 0 then negate this else this.

Definition equals (this other : BigDecimal) : bool :=
  (significant this =? significant other) && (exponent this =? exponent other).

Definition equalValue (this other : BigDecimal) : bool :=
  equals (normalized this) (normalized other).

(** ** Arithmetic *)

(** [add] calls itself with the operands exchanged when [diff < 0]; [depth]
    bounds these calls.  The exchanged call has [diff > 0] and goes no
    deeper, so a depth of two is never exhausted. *)
Fixpoint add_at (depth : nat) (this other : BigDecimal) : BigDecimal :=
  match depth with
  | O => this
  | S depth' =>
      let diff := exponent this - exponent other in
      if diff <? 0 then add_at depth' other this
      else
        let significant' := significant other + significant this * 10 ^ diff in
        let exponent' := Z.min (exponent this) (exponent other) in
        normalized (mk significant' exponent')
  end.

Definition add (this other : BigDecimal) : BigDecimal := add_at 2 this other.

Definition subtract (this other : BigDecimal) : BigDecimal :=
  add this (negate other).

(** The sums of exponents in [multiply] and [scaleByPowerOfTen] are exact
    here; [Rounded.multiply] and [Rounded.scaleByPowerOfTen] round them. *)
Definition multiply (this other : BigDecimal) : BigDecimal :=
  normalized (mk (significant this * significant other)
                 (exponent this + exponent other)).

Definition scaleByPowerOfTen (this : BigDecimal) (e : Z) : BigDecimal :=
  normalized (mk (significant this) (exponent this + e)).

(** The loop of [divide]:
    [for (let i = 0; i < 10 && thisSignificant % other.significant !== 0n; i++)]
    with [budget] the number of turns still allowed, and [thisExponent--]
    exact ([Rounded.divide_loop] rounds it). *)
Fixpoint divide_loop (budget : nat) (thisSignificant thisExponent divisor : Z)
  : Z * Z :=
  match budget with
  | O => (thisSignificant, thisExponent)
  | S budget' =>
      if Z.rem thisSignificant divisor =? 0
      then (thisSignificant, thisExponent)
      else divide_loop budget' (thisSignificant * 10) (thisExponent - 1) divisor
  end.

Definition divide (this other : BigDecimal) : result BigDecimal :=
  if significant other =? 0 then
    if significant this =? 0 then Err DivisionUndefined
    else Err DivisionByZero
  else if significant this =? 0 then Ok (mk 0 0)
  else
    let '(thisSignificant, thisExponent) :=
      divide_loop 10 (significant this) (exponent this) (significant other) in
    Ok (normalized (mk (Z.quot thisSignificant (significant other))
                       (thisExponent - exponent other))).

(** ** Rounding *)

Inductive RoundingMode : Type :=
| Ceiling | Floor | Up | Down | HalfUp | HalfDown | HalfEven.

(** [RoundingModes.Default] *)
Definition Default : RoundingMode := HalfEven.

(** The private [#round...] methods.  Each one starts with
    [if (this.signum() === -1)] and then calls a rounding method on
    [this.negate()]; [depth] bounds these nested calls.  [round] passes a
    depth of two, and [round_helpers_depth] shows that no call reaches depth
    zero: the negation of a negative value is positive.

    [round] only calls them with [-this.exponent - precision > 0], so that
    [10n ** BigInt(excessExponent)] never sees a negative exponent (where
    BigInt exponentiation throws and [Z.pow] returns zero). *)
Fixpoint roundCeiling (depth : nat) (this : BigDecimal) (precision : Z)
  : BigDecimal :=
  match depth with
  | O => this
  | S depth' =>
      if signum this =? -1 then
        let simetric := negate this in
        let rounded := roundFloor depth' simetric precision in
        negate rounded
      else
        let excessExponent := - exponent this - precision in
        let modulo := 10 ^ excessExponent in
        let base := Z.quot (significant this) modulo in
        mk (base + 1) (- precision)
  end
with roundFloor (depth : nat) (this : BigDecimal) (precision : Z)
  : BigDecimal :=
  match depth with
  | O => this
  | S depth' =>
      if signum this =? -1 then
        let simetric := negate this in
        let rounded := roundCeiling depth' simetric precision in
        negate rounded
      else
        let excessExponent := - exponent this - precision in
        let modulo := 10 ^ excessExponent in
        let base := Z.quot (significant this) modulo in
        mk base (- precision)
  end.

Fixpoint roundUp (depth : nat) (this : BigDecimal) (precision : Z)
  : BigDecimal :=
  match depth with
  | O => this
  | S depth' =>
      if signum this =? -1 then
        let simetric := negate this in
        let rounded := roundUp depth' simetric precision in
        negate rounded
      else
        let excessExponent := - exponent this - precision in
        let modulo := 10 ^ excessExponent in
        let base := Z.quot (significant this) modulo in
        mk (base + 1) (- precision)
  end.

Fixpoint roundDown (depth : nat) (this : BigDecimal) (precision : Z)
  : BigDecimal :=
  match depth with
  | O => this
  | S depth' =>
      if signum this =? -1 then
        let simetric := negate this in
        let rounded := roundDown depth' simetric precision in
        negate rounded
      else
        let excessExponent := - exponent this - precision in
        let modulo := 10 ^ excessExponent in
        let base := Z.quot (significant this) modulo in
        mk base (- precision)
  end.

Fixpoint roundHalfUp (depth : nat) (this : BigDecimal) (precision : Z)
  : BigDecimal :=
  match depth with
  | O => this
  | S depth' =>
      if signum this =? -1 then
        let simetric := negate this in
        let rounded := roundHalfUp depth' simetric precision in
        negate rounded
      else
        let excessExponent := - exponent this - precision in
        let modulo := 10 ^ excessExponent in
        let base := Z.quot (significant this) modulo in
        let remainder :=
          Z.quot (Z.rem (significant this) modulo) (Z.quot modulo 10) in
        if remainder <? 5 then mk base (- precision)
        else mk (base + 1) (- precision)
  end.

Fixpoint roundHalfDown (depth : nat) (this : BigDecimal) (precision : Z)
  : BigDecimal :=
  match depth with
  | O => this
  | S depth' =>
      if signum this =? -1 then
        let simetric := negate this in
        let rounded := roundHalfDown depth' simetric precision in
        negate rounded
      else
        let excessExponent := - exponent this - precision in
        let modulo := 10 ^ excessExponent in
        let base := Z.quot (significant this) modulo in
        let remainder :=
          Z.quot (Z.rem (significant this) modulo) (Z.quot modulo 10) in
        if remainder <=? 5 then mk base (- precision)
        else mk (base + 1) (- precision)
  end.

Fixpoint roundHalfEven (depth : nat) (this : BigDecimal) (precision : Z)
  : BigDecimal :=
  match depth with
  | O => this
  | S depth' =>
      if signum this =? -1 then
        let simetric := negate this in
        let rounded := roundHalfEven depth' simetric precision in
        negate rounded
      else
        let excessExponent := - exponent this - precision in
        let modulo := 10 ^ excessExponent in
        let base := Z.quot (significant this) modulo in
        let remainder :=
          Z.quot (Z.rem (significant this) modulo) (Z.quot modulo 10) in
        if remainder <? 5 then mk base (- precision)
        else if remainder =? 5 then
          if Z.rem base 2 =? 0 then mk base (- precision)
          else mk (base + 1) (- precision)
        else mk (base + 1) (- precision)
  end.

(** [round(props)], with the three fields of [props] as arguments.  A call
    with [normalized = false] normalizes and calls itself with
    [normalized: true]. *)
Definition round_props (this : BigDecimal) (roundingMode : RoundingMode)
  (precision : Z) (normalized_flag : bool) : BigDecimal :=
  let this := if normalized_flag then this else normalized this in
  if signum this =? 0 then ZERO
  else
    let excessExponent := - exponent this - precision in
    if excessExponent <=? 0 then this
    else
      match roundingMode with
      | Ceiling => normalized (roundCeiling 2 this precision)
      | Floor => normalized (roundFloor 2 this precision)
      | Up => normalized (roundUp 2 this precision)
      | Down => normalized (roundDown 2 this precision)
      | HalfUp => normalized (roundHalfUp 2 this precision)
      | HalfDown => normalized (roundHalfDown 2 this precision)
      | HalfEven => normalized (roundHalfEven 2 this precision)
      end.

(** What a caller writes: [x.round({ roundingMode, precision })]. *)
Definition round (this : BigDecimal) (roundingMode : RoundingMode)
  (precision : Z) : BigDecimal :=
  round_props this roundingMode precision false.

(** [x.round()] *)
Definition round_default (this : BigDecimal) : BigDecimal :=
  round this Default PRECISION.

(** The private method that [round] selects for a mode, and the mode that
    the method calls on the negation of a negative operand. *)
Definition round_helper (roundingMode : RoundingMode)
  : nat -> BigDecimal -> Z -> BigDecimal :=
  match roundingMode with
  | Ceiling => roundCeiling
  | Floor => roundFloor
  | Up => roundUp
  | Down => roundDown
  | HalfUp => roundHalfUp
  | HalfDown => roundHalfDown
  | HalfEven => roundHalfEven
  end.

Definition mirror (roundingMode : RoundingMode) : RoundingMode :=
  match roundingMode with
  | Ceiling => Floor
  | Floor => Ceiling
  | other => other
  end.

(** ** Integral quotient, remainder, integral and decimal parts *)

Definition divideToIntegralValue (this other : BigDecimal)
  : result BigDecimal :=
  (q <- divide this other ;; Ok (round q Down 0))%result.

Definition remainder (this other : BigDecimal) : result BigDecimal :=
  (q <- divideToIntegralValue this other ;;
   Ok (subtract this (multiply q other)))%result.

(** [integralPart] and [decimalPart] call themselves on [this.negate()] when
    the significant is negative; [depth] bounds these calls as it does for
    the rounding methods. *)
Fixpoint integralPart_at (depth : nat) (this : BigDecimal) : BigDecimal :=
  match depth with
  | O => this
  | S depth' =>
      if significant this <? 0 then
        negate (integralPart_at depth' (negate this))
      else
        let normalized := normalized this in
        if exponent normalized >=? 0 then normalized
        else mk (Z.quot (significant normalized)
                        (10 ^ (- exponent normalized))) 0
  end.

Definition integralPart (this : BigDecimal) : BigDecimal :=
  integralPart_at 2 this.

Fixpoint decimalPart_at (depth : nat) (this : BigDecimal) : BigDecimal :=
  match depth with
  | O => this
  | S depth' =>
      if significant this <? 0 then
        negate (decimalPart_at depth' (negate this))
      else
        let normalized := normalized this in
        if exponent normalized >=? 0 then ZERO
        else mk (Z.rem (significant normalized)
                       (10 ^ (- exponent normalized)))
                (exponent normalized)
  end.

Definition decimalPart (this : BigDecimal) : BigDecimal :=
  decimalPart_at 2 this.

(** ** Power *)

(** The product [this.exponent * exponent] is exact here; [Rounded.pow]
    rounds it. *)
Definition pow (this : BigDecimal) (e : Z) : result BigDecimal :=
  if e <? 0 then Err InvalidOperand
  else Ok (normalized (mk (significant this ^ e) (exponent this * e))).

(** ** Square root *)

Section NativeSeed.

(** [BigDecimal.valueOf(Math.sqrt(this.number()))] for an operand whose
    significant is positive.  It is computed in native floating point and
    is a parameter here. *)
Variable nativeSeed : BigDecimal -> result BigDecimal.

(** The first guess.  For a zero significant, [this.number()] is
    [Number(0n) * 10 ** this.exponent]: the product is [0] while
    [10 ** this.exponent] is finite, and [NaN] once it overflows to
    [Infinity], which happens from exponent 309 on (the largest double is
    below 1.8e308).  [Math.sqrt(0)] is [0], and [valueOf(0)] is
    [new BigDecimal(0n, 0)]; [Math.sqrt(NaN)] is [NaN], which
    [#valueOfNumber] rejects. *)
Definition sqrtSeed (this : BigDecimal) : result BigDecimal :=
  if significant this =? 0 then
    if exponent this <=? 308 then Ok (mk 0 0) else Err InvalidOperand
  else nativeSeed this.

(** [for (let i = 0; i < SQRT_ROUNDS; i++) guess = guess.subtract(...)] *)
Fixpoint sqrt_loop (rounds : nat) (this guess : BigDecimal)
  : result BigDecimal :=
  match rounds with
  | O => Ok guess
  | S rounds' =>
      (step <- divide (subtract (multiply guess guess) this)
                      (add guess guess) ;;
       sqrt_loop rounds' this (subtract guess step))%result
  end.

Definition sqrt (this : BigDecimal) : result BigDecimal :=
  if significant this <? 0 then Err InvalidOperand
  else
    (seed <- sqrtSeed this ;;
     guess <- sqrt_loop SQRT_ROUNDS this seed ;;
     Ok (normalized guess))%result.

End NativeSeed.

(** ** Strings *)

#[local] Open Scope string_scope.

Definition isDigit (c : ascii) : bool :=
  let n := nat_of_ascii c in
  (48 <=? n)%nat && (n <=? 57)%nat.

(** [[0-9]+], greedy: the longest run of digits at the head of [s] and what
    follows it.  The run is empty when [s] does not start with a digit. *)
Fixpoint digits (s : string) : string * string :=
  match s with
  | EmptyString => (EmptyString, EmptyString)
  | String c s' =>
      if isDigit c
      then let '(run, rest) := digits s' in (String c run, rest)
      else (EmptyString, s)
  end.

(** [-?[0-9]+] *)
Definition signedDigits (s : string) : option (string * string) :=
  let '(sign, s') :=
    match s with
    | String "-"%char s' => ("-", s')
    | _ => ("", s)
    end in
  match digits s' with
  | (EmptyString, _) => None
  | (run, rest) => Some (sign ++ run, rest)
  end.

(** [/^(-?[0-9]+)(?:\.([0-9]+)(?:[eE](-?[0-9]+))?)?$/.exec(value)]: the three
    capture groups, or [None] for [null].  What follows a run of digits is
    not a digit, so the greedy match is the only one. *)
Definition pattern_exec (value : string)
  : option (string * option string * option string) :=
  match signedDigits value with
  | None => None
  | Some (g1, EmptyString) => Some (g1, None, None)
  | Some (g1, String "."%char rest) =>
      match digits rest with
      | (EmptyString, _) => None
      | (g2, EmptyString) => Some (g1, Some g2, None)
      | (g2, String c rest') =>
          if (c =? "e")%char || (c =? "E")%char then
            match signedDigits rest' with
            | Some (g3, EmptyString) => Some (g1, Some g2, Some g3)
            | _ => None
            end
          else None
      end
  | Some (_, String _ _) => None
  end.

Definition digitValue (c : ascii) : Z := Z.of_nat (nat_of_ascii c) - 48.

Fixpoint parseDigits (acc : Z) (s : string) : Z :=
  match s with
  | EmptyString => acc
  | String c s' => parseDigits (acc * 10 + digitValue c) s'
  end.

(** [BigInt(s)] and [Number.parseInt(s)] on a string matched by [-?[0-9]+] *)
Definition parseInteger (s : string) : Z :=
  match s with
  | String "-"%char s' => - parseDigits 0 s'
  | _ => parseDigits 0 s
  end.

Fixpoint allChars (p : ascii -> bool) (s : string) : bool :=
  match s with
  | EmptyString => true
  | String c s' => p c && allChars p s'
  end.

(** The strings that [[0-9]*] matches in full. *)
Definition allDigits (s : string) : bool := allChars isDigit s.

(** The characters of plain decimal notation: digits, sign and point. *)
Definition isPlain (c : ascii) : bool :=
  isDigit c || (c =? "-")%char || (c =? ".")%char.

Definition valueOfString (value : string) : result BigDecimal :=
  match pattern_exec value with
  | None => Err InvalidFormat
  | Some (g1, g2, g3) =>
      let units := mk (parseInteger g1) 0 in
      let decimals :=
        match g2 with
        | Some g2 => mk (parseInteger g2) (- Z.of_nat (String.length g2))
        | None => mk 0 0
        end in
      let decimals :=
        if (signum units =? -1)%Z then negate decimals else decimals in
      let e :=
        match g3 with
        | Some g3 => parseInteger g3
        | None => 0
        end in
      Ok (normalized (scaleByPowerOfTen (add units decimals) e))
  end.

Definition valueOfBigInt (value : Z) : BigDecimal := normalized (mk value 0).

(** [bigint.toString()] *)
Definition BigInt_toString (n : Z) : string :=
  NilZero.string_of_int (Z.to_int n).

(** [s.replace("-", "")]: the first minus sign is dropped *)
Fixpoint replace_minus (s : string) : string :=
  match s with
  | EmptyString => EmptyString
  | String c s' => if (c =? "-")%char then s' else String c (replace_minus s')
  end.

Fixpoint zeros (n : nat) : string :=
  match n with
  | O => EmptyString
  | S n' => String "0"%char (zeros n')
  end.

(** [s.padEnd(targetLength, "0")] *)
Definition padEnd (s : string) (targetLength : Z) : string :=
  s ++ zeros (Z.to_nat (targetLength - Z.of_nat (String.length s))).

(** [s.substring(indexStart, indexEnd)]: both indices are clamped to
    [0 .. s.length] and swapped when the first is the larger. *)
Definition js_substring (s : string) (indexStart indexEnd : Z) : string :=
  let len := Z.of_nat (String.length s) in
  let clamp i := Z.min (Z.max i 0) len in
  let lo := Z.min (clamp indexStart) (clamp indexEnd) in
  let hi := Z.max (clamp indexStart) (clamp indexEnd) in
  String.substring (Z.to_nat lo) (Z.to_nat (hi - lo)) s.

Definition toString (this : BigDecimal) : string :=
  let sign := if (significant this <? 0)%Z then "-" else "" in
  let numbers := replace_minus (BigInt_toString (significant this)) in
  let len := Z.of_nat (String.length numbers) in
  if (exponent this >? 0)%Z then
    sign ++ padEnd numbers (exponent this + len)
  else if (exponent this =? 0)%Z then
    sign ++ numbers
  else
    let units := js_substring numbers 0 (len + exponent this) in
    let decimals := js_substring numbers (len + exponent this) len in
    sign ++ units ++ "." ++ decimals.

#[local] Close Scope string_scope.

(** ** The number a value stands for *)

(** [significant * 10 ^ exponent], as a rational. *)
Definition toQ (x : BigDecimal) : Q :=
  (inject_Z (significant x) * (10 # 1) ^ exponent x)%Q.

(** Truncation of a rational toward zero. *)
Definition Qtruncate (q : Q) : Z :=
  if Qle_bool 0 q then Qfloor q else Qceiling q.

(** [x] lies between zero and [y], on either side of zero. *)
Definition Qbetween0 (x y : Q) : Prop :=
  (0 <= x /\ x <= y)%Q \/ (y <= x /\ x <= 0)%Q.

(** ** Half-even rounding, in the words of the specification *)

(** For a normalized value [n] with more than [precision] fractional digits:
    its first [precision] fractional digits (with the integer digits before
    them), read as an integer; and the single digit that follows them. *)
Definition keptDigits (n : BigDecimal) (precision : Z) : Z :=
  Z.abs (significant n) / 10 ^ (- exponent n - precision).

Definition nextDigit (n : BigDecimal) (precision : Z) : Z :=
  (Z.abs (significant n) / 10 ^ (- exponent n - precision - 1)) mod 10.

Definition halfEven_increments (base digit : Z) : bool :=
  (5 <? digit) || ((digit =? 5) && Z.odd base).


(** ** The digits of a value *)

(** The [numbers] of [toString]: the decimal digits of the significant,
    without its sign. *)
Definition numbers (this : BigDecimal) : string :=
  replace_minus (BigInt_toString (significant this)).

(** ** The rounding rules, as a table *)

(** Whether a mode adds one to the kept digits of a positive value, given
    the kept digits and the digit that follows them. *)
Definition increments (roundingMode : RoundingMode) (base digit : Z) : bool :=
  match roundingMode with
  | Ceiling | Up => true
  | Floor | Down => false
  | HalfUp => 5 <=? digit
  | HalfDown => 5 <? digit
  | HalfEven => halfEven_increments base digit
  end.

(** [round] by the table: zero and values with few enough digits are
    returned in normal form; otherwise the rule of the mode, or of its
    mirror for a negative value, is applied to the digits of the absolute
    value, and the sign is put back. *)
Definition round_by_table (x : BigDecimal) (roundingMode : RoundingMode)
  (precision : Z) : BigDecimal :=
  let n := normalized x in
  if significant n =? 0 then ZERO
  else if - exponent n <=? precision then n
  else
    let base := keptDigits n precision in
    let digit := nextDigit n precision in
    let rule :=
      if significant n <? 0 then mirror roundingMode else roundingMode in
    let base' := if increments rule base digit then base + 1 else base in
    normalized (mk (Z.sgn (significant n) * base') (- precision)).

(** ** Comparison *)

(** [compareTo] calls itself with the operands exchanged when [diff < 0], and
    negates the answer; [depth] bounds these calls as it does for [add]. *)
Fixpoint compareTo_at (depth : nat) (this other : BigDecimal) : Z :=
  match depth with
  | O => 0
  | S depth' =>
      let subject := normalized this in
      let object := normalized other in
      let diff := exponent subject - exponent object in
      if diff <? 0 then - compareTo_at depth' object subject
      else
        let subject :=
          mk (significant subject * 10 ^ diff) (exponent subject - diff) in
        if significant subject <? significant object then -1
        else if significant subject =? significant object then 0
        else 1
  end.

Definition compareTo (this other : BigDecimal) : Z :=
  compareTo_at 2 this other.

Definition min (this other : BigDecimal) : BigDecimal :=
  if compareTo this other <=? 0 then this else other.

Definition max (this other : BigDecimal) : BigDecimal :=
  if compareTo this other >=? 0 then this else other.

(** ** The exponent as a number *)

(** The value of a [number] expression whose exact result is the integer
    [z]: the nearest IEEE 754 double, ties going to the even significand.
    Every integer up to [2 ^ 53] in absolute value is a double; beyond,
    only the multiples of a power of two are, so that
    [9007199254740992 + 1] is [9007199254740992].  (From [2 ^ 1024] on the
    code computes with [Infinity], which is left out.) *)
Definition number (z : Z) : Z :=
  let a := Z.abs z in
  let n := Z.log2 a in
  if n <? 53 then z
  else
    let ulp := 2 ^ (n - 52) in
    let q := a / ulp in
    let r := a mod ulp in
    let q' := if 2 * r <? ulp then q
              else if ulp <? 2 * r then q + 1
              else if Z.even q then q
              else q + 1 in
    Z.sgn z * (q' * ulp).

(** Values whose exponent, and the bit length of whose significant, are at
    most [bound] in absolute value. *)
Definition fits (bound : Z) (x : BigDecimal) : Prop :=
  Z.abs (exponent x) <= bound /\ Z.log2 (Z.abs (significant x)) <= bound.

(** Values so far inside the range of exact [number] arithmetic that no
    exponent which a method computes from them is rounded. *)
Definition moderate (x : BigDecimal) : Prop := fits (2 ^ 40) x.

(** The methods once more, with every sum, difference and product of
    exponents rounded as the [number] arithmetic of the code rounds it:
    [exponent++], [thisExponent--], [this.exponent + other.exponent],
    [this.exponent - other.exponent], [-this.exponent - precision] and
    [this.exponent * exponent].  Negating a number and [Math.min] are exact.
    [negate], [signum], [abs] and [equals] compute nothing on exponents and
    are the ones above.  The definitions above are these with the rounding
    left out. *)
Module Rounded.

Fixpoint normalized_loop (fuel : nat) (significant exponent : Z) : BigDecimal :=
  match fuel with
  | O => mk significant exponent
  | S fuel' =>
      if Z.rem significant 10 =? 0
      then normalized_loop fuel' (Z.quot significant 10) (number (exponent + 1))
      else mk significant exponent
  end.

Definition normalized (this : BigDecimal) : BigDecimal :=
  if significant this =? 0 then mk 0 0
  else normalized_loop (normalized_fuel (significant this))
                       (significant this) (exponent this).

Definition equalValue (this other : BigDecimal) : bool :=
  equals (normalized this) (normalized other).

Fixpoint add_at (depth : nat) (this other : BigDecimal) : BigDecimal :=
  match depth with
  | O => this
  | S depth' =>
      let diff := number (exponent this - exponent other) in
      if diff <? 0 then add_at depth' other this
      else
        let significant' := significant other + significant this * 10 ^ diff in
        let exponent' := Z.min (exponent this) (exponent other) in
        normalized (mk significant' exponent')
  end.

Definition add (this other : BigDecimal) : BigDecimal := add_at 2 this other.

Definition subtract (this other : BigDecimal) : BigDecimal :=
  add this (negate other).

Definition multiply (this other : BigDecimal) : BigDecimal :=
  normalized (mk (significant this * significant other)
                 (number (exponent this + exponent other))).

Definition scaleByPowerOfTen (this : BigDecimal) (e : Z) : BigDecimal :=
  normalized (mk (significant this) (number (exponent this + e))).

Fixpoint divide_loop (budget : nat) (thisSignificant thisExponent divisor : Z)
  : Z * Z :=
  match budget with
  | O => (thisSignificant, thisExponent)
  | S budget' =>
      if Z.rem thisSignificant divisor =? 0
      then (thisSignificant, thisExponent)
      else divide_loop budget' (thisSignificant * 10)
                       (number (thisExponent - 1)) divisor
  end.

Definition divide (this other : BigDecimal) : result BigDecimal :=
  if significant other =? 0 then
    if significant this =? 0 then Err DivisionUndefined
    else Err DivisionByZero
  else if significant this =? 0 then Ok (mk 0 0)
  else
    let '(thisSignificant, thisExponent) :=
      divide_loop 10 (significant this) (exponent this) (significant other) in
    Ok (normalized (mk (Z.quot thisSignificant (significant other))
                       (number (thisExponent - exponent other)))).

Definition pow (this : BigDecimal) (e : Z) : result BigDecimal :=
  if e <? 0 then Err InvalidOperand
  else Ok (normalized (mk (significant this ^ e) (number (exponent this * e)))).

Fixpoint roundCeiling (depth : nat) (this : BigDecimal) (precision : Z)
  : BigDecimal :=
  match depth with
  | O => this
  | S depth' =>
      if signum this =? -1 then
        let simetric := negate this in
        let rounded := roundFloor depth' simetric precision in
        negate rounded
      else
        let excessExponent := number (- exponent this - precision) in
        let modulo := 10 ^ excessExponent in
        let base := Z.quot (significant this) modulo in
        mk (base + 1) (- precision)
  end
with roundFloor (depth : nat) (this : BigDecimal) (precision : Z)
  : BigDecimal :=
  match depth with
  | O => this
  | S depth' =>
      if signum this =? -1 then
        let simetric := negate this in
        let rounded := roundCeiling depth' simetric precision in
        negate rounded
      else
        let excessExponent := number (- exponent this - precision) in
        let modulo := 10 ^ excessExponent in
        let base := Z.quot (significant this) modulo in
        mk base (- precision)
  end.

Fixpoint roundUp (depth : nat) (this : BigDecimal) (precision : Z)
  : BigDecimal :=
  match depth with
  | O => this
  | S depth' =>
      if signum this =? -1 then
        let simetric := negate this in
        let rounded := roundUp depth' simetric precision in
        negate rounded
      else
        let excessExponent := number (- exponent this - precision) in
        let modulo := 10 ^ excessExponent in
        let base := Z.quot (significant this) modulo in
        mk (base + 1) (- precision)
  end.

Fixpoint roundDown (depth : nat) (this : BigDecimal) (precision : Z)
  : BigDecimal :=
  match depth with
  | O => this
  | S depth' =>
      if signum this =? -1 then
        let simetric := negate this in
        let rounded := roundDown depth' simetric precision in
        negate rounded
      else
        let excessExponent := number (- exponent this - precision) in
        let modulo := 10 ^ excessExponent in
        let base := Z.quot (significant this) modulo in
        mk base (- precision)
  end.

Fixpoint roundHalfUp (depth : nat) (this : BigDecimal) (precision : Z)
  : BigDecimal :=
  match depth with
  | O => this
  | S depth' =>
      if signum this =? -1 then
        let simetric := negate this in
        let rounded := roundHalfUp depth' simetric precision in
        negate rounded
      else
        let excessExponent := number (- exponent this - precision) in
        let modulo := 10 ^ excessExponent in
        let base := Z.quot (significant this) modulo in
        let remainder :=
          Z.quot (Z.rem (significant this) modulo) (Z.quot modulo 10) in
        if remainder <? 5 then mk base (- precision)
        else mk (base + 1) (- precision)
  end.

Fixpoint roundHalfDown (depth : nat) (this : BigDecimal) (precision : Z)
  : BigDecimal :=
  match depth with
  | O => this
  | S depth' =>
      if signum this =? -1 then
        let simetric := negate this in
        let rounded := roundHalfDown depth' simetric precision in
        negate rounded
      else
        let excessExponent := number (- exponent this - precision) in
        let modulo := 10 ^ excessExponent in
        let base := Z.quot (significant this) modulo in
        let remainder :=
          Z.quot (Z.rem (significant this) modulo) (Z.quot modulo 10) in
        if remainder <=? 5 then mk base (- precision)
        else mk (base + 1) (- precision)
  end.

Fixpoint roundHalfEven (depth : nat) (this : BigDecimal) (precision : Z)
  : BigDecimal :=
  match depth with
  | O => this
  | S depth' =>
      if signum this =? -1 then
        let simetric := negate this in
        let rounded := roundHalfEven depth' simetric precision in
        negate rounded
      else
        let excessExponent := number (- exponent this - precision) in
        let modulo := 10 ^ excessExponent in
        let base := Z.quot (significant this) modulo in
        let remainder :=
          Z.quot (Z.rem (significant this) modulo) (Z.quot modulo 10) in
        if remainder <? 5 then mk base (- precision)
        else if remainder =? 5 then
          if Z.rem base 2 =? 0 then mk base (- precision)
          else mk (base + 1) (- precision)
        else mk (base + 1) (- precision)
  end.

Definition round_props (this : BigDecimal) (roundingMode : RoundingMode)
  (precision : Z) (normalized_flag : bool) : BigDecimal :=
  let this := if normalized_flag then this else normalized this in
  if signum this =? 0 then ZERO
  else
    let excessExponent := number (- exponent this - precision) in
    if excessExponent <=? 0 then this
    else
      match roundingMode with
      | Ceiling => normalized (roundCeiling 2 this precision)
      | Floor => normalized (roundFloor 2 this precision)
      | Up => normalized (roundUp 2 this precision)
      | Down => normalized (roundDown 2 this precision)
      | HalfUp => normalized (roundHalfUp 2 this precision)
      | HalfDown => normalized (roundHalfDown 2 this precision)
      | HalfEven => normalized (roundHalfEven 2 this precision)
      end.

Definition round (this : BigDecimal) (roundingMode : RoundingMode)
  (precision : Z) : BigDecimal :=
  round_props this roundingMode precision false.

Definition divideToIntegralValue (this other : BigDecimal)
  : result BigDecimal :=
  (q <- divide this other ;; Ok (round q Down 0))%result.

Definition remainder (this other : BigDecimal) : result BigDecimal :=
  (q <- divideToIntegralValue this other ;;
   Ok (subtract this (multiply q other)))%result.

Fixpoint integralPart_at (depth : nat) (this : BigDecimal) : BigDecimal :=
  match depth with
  | O => this
  | S depth' =>
      if significant this <? 0 then
        negate (integralPart_at depth' (negate this))
      else
        let normalized := normalized this in
        if exponent normalized >=? 0 then normalized
        else mk (Z.quot (significant normalized)
                        (10 ^ (- exponent normalized))) 0
  end.

Definition integralPart (this : BigDecimal) : BigDecimal :=
  integralPart_at 2 this.

Fixpoint decimalPart_at (depth : nat) (this : BigDecimal) : BigDecimal :=
  match depth with
  | O => this
  | S depth' =>
      if significant this <? 0 then
        negate (decimalPart_at depth' (negate this))
      else
        let normalized := normalized this in
        if exponent normalized >=? 0 then ZERO
        else mk (Z.rem (significant normalized)
                       (10 ^ (- exponent normalized)))
                (exponent normalized)
  end.

Definition decimalPart (this : BigDecimal) : BigDecimal :=
  decimalPart_at 2 this.

Fixpoint compareTo_at (depth : nat) (this other : BigDecimal) : Z :=
  match depth with
  | O => 0
  | S depth' =>
      let subject := normalized this in
      let object := normalized other in
      let diff := number (exponent subject - exponent object) in
      if diff <? 0 then - compareTo_at depth' object subject
      else
        let subject :=
          mk (significant subject * 10 ^ diff)
             (number (exponent subject - diff)) in
        if significant subject <? significant object then -1
        else if significant subject =? significant object then 0
        else 1
  end.

Definition compareTo (this other : BigDecimal) : Z :=
  compareTo_at 2 this other.

Definition min (this other : BigDecimal) : BigDecimal :=
  if compareTo this other <=? 0 then this else other.

Definition max (this other : BigDecimal) : BigDecimal :=
  if compareTo this other >=? 0 then this else other.

End Rounded.

(** ** Normalization: the invariant *)

Definition is_normal (x : BigDecimal) : Prop :=
  (significant x <> 0 -> Z.rem (significant x) 10 <> 0) /\
  (significant x = 0 -> exponent x = 0).

Lemma normalized_loop_exits (fuel : nat) :
  forall m e, m <> 0 -> Z.abs m < 2 ^ Z.of_nat fuel ->
    Z.rem (significant (normalized_loop fuel m e)) 10 <> 0 /\
    significant (normalized_loop fuel m e) <> 0.
Proof.
  induction fuel as [|fuel IH]; intros m e Hm Hlt.
  - simpl in Hlt. lia.
  - cbn [normalized_loop].
    destruct (Z.rem m 10 =? 0) eqn:Hr.
    + apply Z.eqb_eq in Hr.
      assert (Hq : m = 10 * Z.quot m 10) by
        (pose proof (Z.quot_rem' m 10); lia).
      apply IH.
      * lia.
      * rewrite Nat2Z.inj_succ, Z.pow_succ_r in Hlt by lia. lia.
    + apply Z.eqb_neq in Hr. cbn. split; [exact Hr | exact Hm].
Qed.

Lemma normalized_fuel_enough (m : Z) :
  m <> 0 -> Z.abs m < 2 ^ Z.of_nat (normalized_fuel m).
Proof.
  intros Hm. unfold normalized_fuel.
  rewrite Nat2Z.inj_succ, Z2Nat.id by apply Z.log2_nonneg.
  apply Z.log2_spec. lia.
Qed.

Lemma normalized_loop_stops (fuel : nat) (m e : Z) :
  Z.rem m 10 <> 0 -> normalized_loop fuel m e = mk m e.
Proof.
  intros Hr. destruct fuel as [|fuel]; cbn [normalized_loop]; [reflexivity|].
  apply Z.eqb_neq in Hr. rewrite Hr. reflexivity.
Qed.

(** The loop only moves factors of ten from the significant to the exponent. *)
Lemma normalized_loop_shape (fuel : nat) :
  forall m e, exists k,
    0 <= k /\
    exponent (normalized_loop fuel m e) = e + k /\
    m = significant (normalized_loop fuel m e) * 10 ^ k.
Proof.
  induction fuel as [|fuel IH]; intros m e.
  - exists 0. cbn. split; [lia|]. split; lia.
  - cbn [normalized_loop]. destruct (Z.rem m 10 =? 0) eqn:Hr.
    + apply Z.eqb_eq in Hr.
      destruct (IH (Z.quot m 10) (e + 1)) as (k & Hk & He & Hm).
      exists (k + 1). split; [lia|]. split; [lia|].
      rewrite Z.pow_add_r by lia.
      pose proof (Z.quot_rem' m 10) as Hqr. rewrite Hr in Hqr.
      rewrite Z.pow_1_r. lia.
    + exists 0. cbn. split; [lia|]. split; lia.
Qed.

Lemma normalized_zero (x : BigDecimal) :
  significant x = 0 -> normalized x = mk 0 0.
Proof. intros H. unfold normalized. rewrite H. reflexivity. Qed.

Lemma normalized_nonzero (x : BigDecimal) :
  significant x <> 0 ->
  normalized x =
  normalized_loop (normalized_fuel (significant x)) (significant x) (exponent x).
Proof.
  intros H. unfold normalized. apply Z.eqb_neq in H. rewrite H. reflexivity.
Qed.

(** What [normalized] returns on a nonzero significant. *)
Lemma normalized_shape (x : BigDecimal) :
  significant x <> 0 ->
  exists k,
    0 <= k /\
    exponent (normalized x) = exponent x + k /\
    significant x = significant (normalized x) * 10 ^ k /\
    Z.rem (significant (normalized x)) 10 <> 0 /\
    significant (normalized x) <> 0.
Proof.
  intros Hx. rewrite (normalized_nonzero x Hx).
  destruct (normalized_loop_shape (normalized_fuel (significant x))
              (significant x) (exponent x)) as (k & Hk & He & Hm).
  destruct (normalized_loop_exits (normalized_fuel (significant x))
              (significant x) (exponent x) Hx
              (normalized_fuel_enough _ Hx)) as [Hr Hnz].
  exists k. repeat split; assumption.
Qed.

Lemma normalized_is_normal (x : BigDecimal) : is_normal (normalized x).
Proof.
  unfold is_normal.
  destruct (Z.eq_dec (significant x) 0) as [Hz|Hnz].
  - rewrite (normalized_zero x Hz). cbn. split; [lia | reflexivity].
  - destruct (normalized_shape x Hnz) as (k & _ & _ & _ & Hr & Hs).
    split; [intros _; exact Hr | intros H; contradiction].
Qed.

Lemma normalized_of_normal (x : BigDecimal) : is_normal x -> normalized x = x.
Proof.
  intros [Hrem Hzero]. destruct x as [m e]. cbn in *.
  destruct (Z.eq_dec m 0) as [Hz|Hnz].
  - rewrite normalized_zero by exact Hz. rewrite (Hzero Hz), Hz. reflexivity.
  - rewrite normalized_nonzero by exact Hnz. cbn [significant exponent].
    apply normalized_loop_stops. exact (Hrem Hnz).
Qed.

Lemma normalized_idempotent (x : BigDecimal) :
  normalized (normalized x) = normalized x.
Proof. apply normalized_of_normal, normalized_is_normal. Qed.

Lemma negate_involutive (x : BigDecimal) : negate (negate x) = x.
Proof. destruct x as [m e]. unfold negate. cbn. f_equal. lia. Qed.

Lemma normalized_loop_negate (fuel : nat) :
  forall m e,
    normalized_loop fuel (- m) e = negate (normalized_loop fuel m e).
Proof.
  induction fuel as [|fuel IH]; intros m e; cbn [normalized_loop].
  - reflexivity.
  - rewrite Z.rem_opp_l by lia.
    replace (- Z.rem m 10 =? 0) with (Z.rem m 10 =? 0)
      by (destruct (Z.eqb_spec (Z.rem m 10) 0), (Z.eqb_spec (- Z.rem m 10) 0);
          first [reflexivity | lia]).
    destruct (Z.rem m 10 =? 0).
    + rewrite Z.quot_opp_l by lia. apply IH.
    + reflexivity.
Qed.

Lemma normalized_negate (x : BigDecimal) :
  normalized (negate x) = negate (normalized x).
Proof.
  unfold normalized. cbn [negate significant exponent].
  destruct (Z.eqb_spec (significant x) 0) as [Hz|Hnz].
  - rewrite Hz. reflexivity.
  - destruct (Z.eqb_spec (- significant x) 0) as [H|_]; [lia|].
    unfold normalized_fuel. rewrite Z.abs_opp. apply normalized_loop_negate.
Qed.

(** ** The value of a BigDecimal *)

Lemma pow10Q_pos (e : Z) : (0 < (10 # 1) ^ e)%Q.
Proof. apply Qpower_0_lt. reflexivity. Qed.

Lemma pow10Q_nonzero (e : Z) : ~ ((10 # 1) ^ e == 0)%Q.
Proof. pose proof (pow10Q_pos e). lra. Qed.

Lemma pow10Q_add (a b : Z) :
  ((10 # 1) ^ (a + b) == (10 # 1) ^ a * (10 # 1) ^ b)%Q.
Proof. apply Qpower_plus. discriminate. Qed.

Lemma pow10Q_of_Z (k : Z) : 0 <= k -> (inject_Z (10 ^ k) == (10 # 1) ^ k)%Q.
Proof. intros Hk. rewrite Zpower_Qpower by exact Hk. reflexivity. Qed.

Lemma toQ_mk (m e : Z) : toQ (mk m e) = (inject_Z m * (10 # 1) ^ e)%Q.
Proof. reflexivity. Qed.

Lemma toQ_shift (m e k : Z) :
  0 <= k -> (toQ (mk (m * 10 ^ k) e) == toQ (mk m (e + k)))%Q.
Proof.
  intros Hk. rewrite !toQ_mk, inject_Z_mult, pow10Q_of_Z by exact Hk.
  rewrite pow10Q_add. ring.
Qed.

Lemma toQ_zero (x : BigDecimal) : significant x = 0 -> (toQ x == 0)%Q.
Proof. intros H. unfold toQ. rewrite H. ring. Qed.

Lemma toQ_normalized (x : BigDecimal) : (toQ (normalized x) == toQ x)%Q.
Proof.
  destruct (Z.eq_dec (significant x) 0) as [Hz|Hnz].
  - rewrite (normalized_zero x Hz), (toQ_zero x Hz). reflexivity.
  - destruct (normalized_shape x Hnz) as (k & Hk & He & Hm & _).
    destruct x as [m e], (normalized (mk m e)) as [m' e']. cbn in *.
    subst m e'. symmetry. apply toQ_shift. exact Hk.
Qed.

Lemma toQ_negate (x : BigDecimal) : (toQ (negate x) == - toQ x)%Q.
Proof. unfold toQ, negate. cbn. rewrite inject_Z_opp. ring. Qed.

(** The sign of the value is the sign of the significant. *)
Lemma toQ_sign (x : BigDecimal) :
  ((0 < toQ x)%Q <-> 0 < significant x) /\
  ((toQ x < 0)%Q <-> significant x < 0) /\
  ((toQ x == 0)%Q <-> significant x = 0).
Proof.
  unfold toQ. pose proof (pow10Q_pos (exponent x)) as Hp.
  set (p := ((10 # 1) ^ exponent x)%Q) in *.
  destruct (Z.lt_trichotomy (significant x) 0) as [H|[H|H]].
  - assert (inject_Z (significant x) < 0)%Q
      by (rewrite (Zlt_Qlt (significant x) 0) in H; exact H).
    repeat split; intros; try lia; nra.
  - assert (inject_Z (significant x) == 0)%Q by (rewrite H; reflexivity).
    repeat split; intros; try lia; nra.
  - assert (0 < inject_Z (significant x))%Q
      by (rewrite (Zlt_Qlt 0 (significant x)) in H; exact H).
    repeat split; intros; try lia; nra.
Qed.

(** Two values with the same exponent order. *)
Lemma toQ_eq_aligned (m1 e1 m2 e2 : Z) :
  e1 <= e2 -> (toQ (mk m1 e1) == toQ (mk m2 e2))%Q ->
  m1 = m2 * 10 ^ (e2 - e1).
Proof.
  intros Hle Heq.
  assert (H : (toQ (mk (m2 * 10 ^ (e2 - e1)) e1) == toQ (mk m2 e2))%Q).
  { rewrite toQ_shift by lia. replace (e1 + (e2 - e1)) with e2 by lia.
    reflexivity. }
  rewrite <- Heq in H. rewrite !toQ_mk in H.
  apply (proj1 (Qmult_inj_r _ _ _ (pow10Q_nonzero e1))) in H.
  apply (proj1 (inject_Z_injective _ _)) in H. symmetry. exact H.
Qed.

Lemma normal_unique_le (a b : BigDecimal) :
  is_normal a -> is_normal b -> exponent a <= exponent b ->
  (toQ a == toQ b)%Q -> a = b.
Proof.
  intros [Ha1 Ha2] [Hb1 Hb2] Hle Heq.
  destruct a as [m1 e1], b as [m2 e2]. cbn in *.
  pose proof (toQ_eq_aligned m1 e1 m2 e2 Hle Heq) as Hm.
  destruct (Z.eq_dec e1 e2) as [He|He].
  - subst e2. rewrite Z.sub_diag, Z.pow_0_r in Hm. f_equal. lia.
  - exfalso.
    assert (Hpow : 10 ^ (e2 - e1) = 10 * 10 ^ (e2 - e1 - 1)).
    { rewrite <- Z.pow_succ_r by lia. f_equal. lia. }
    destruct (Z.eq_dec m1 0) as [Hz|Hnz].
    + assert (m2 = 0).
      { pose proof (Z.pow_pos_nonneg 10 (e2 - e1)). nia. }
      lia.
    + apply (Ha1 Hnz). rewrite Hm, Hpow.
      replace (m2 * (10 * 10 ^ (e2 - e1 - 1)))
        with (m2 * 10 ^ (e2 - e1 - 1) * 10) by ring.
      apply Z.rem_mul. lia.
Qed.

Lemma normal_unique (a b : BigDecimal) :
  is_normal a -> is_normal b -> (toQ a == toQ b)%Q -> a = b.
Proof.
  intros Ha Hb Heq. destruct (Z.le_ge_cases (exponent a) (exponent b)).
  - apply normal_unique_le; assumption.
  - symmetry. apply normal_unique_le; try assumption. symmetry. exact Heq.
Qed.

(** Normal forms are canonical: two values have the same normal form exactly
    when they stand for the same number. *)
Lemma normalized_eq_iff (x y : BigDecimal) :
  normalized x = normalized y <-> (toQ x == toQ y)%Q.
Proof.
  split.
  - intros H. rewrite <- (toQ_normalized x), <- (toQ_normalized y), H.
    reflexivity.
  - intros H. apply normal_unique; try apply normalized_is_normal.
    rewrite !toQ_normalized. exact H.
Qed.

(** The loop returns the same value on any fuel that is enough. *)
Lemma normalized_loop_fuel (fuel : nat) (m e : Z) :
  m <> 0 -> Z.abs m < 2 ^ Z.of_nat fuel ->
  normalized_loop fuel m e = normalized (mk m e).
Proof.
  intros Hm Hfuel.
  destruct (normalized_loop_exits fuel m e Hm Hfuel) as [Hrem Hnz].
  destruct (normalized_loop_shape fuel m e) as (k & Hk & He & Hshape).
  apply normal_unique.
  - split; [intros _; exact Hrem | intros H; contradiction].
  - apply normalized_is_normal.
  - rewrite toQ_normalized.
    destruct (normalized_loop fuel m e) as [m' e']. cbn in *.
    subst m e'. symmetry. apply toQ_shift. exact Hk.
Qed.

Lemma equals_iff (x y : BigDecimal) : equals x y = true <-> x = y.
Proof.
  unfold equals. rewrite andb_true_iff, !Z.eqb_eq.
  destruct x, y; cbn. split.
  - intros [-> ->]. reflexivity.
  - intros H. injection H. auto.
Qed.

Lemma equalValue_iff (x y : BigDecimal) :
  equalValue x y = true <-> (toQ x == toQ y)%Q.
Proof. unfold equalValue. rewrite equals_iff. apply normalized_eq_iff. Qed.

(** The sum of two operands whose exponents are in the order that [add]
    works on. *)
Lemma add_aligned (d : nat) (a b : BigDecimal) :
  exponent b <= exponent a ->
  add_at (S d) a b =
  normalized (mk (significant b
                  + significant a * 10 ^ (exponent a - exponent b))
                 (exponent b)).
Proof.
  intros Hle. cbn [add_at].
  destruct (Z.ltb_spec (exponent a - exponent b) 0); [lia|].
  rewrite Z.min_r by exact Hle. reflexivity.
Qed.

Lemma add_exchanged (d : nat) (a b : BigDecimal) :
  exponent a < exponent b -> add_at (S (S d)) a b = add_at 1 b a.
Proof.
  intros Hlt. cbn [add_at].
  destruct (Z.ltb_spec (exponent a - exponent b) 0); [|lia].
  destruct (Z.ltb_spec (exponent b - exponent a) 0); [lia | reflexivity].
Qed.

Lemma add_depth (d : nat) (a b : BigDecimal) :
  add_at (S (S d)) a b = add a b.
Proof.
  unfold add. destruct (Z.lt_ge_cases (exponent a) (exponent b)) as [H|H].
  - rewrite !add_exchanged by exact H. reflexivity.
  - rewrite !add_aligned by lia. reflexivity.
Qed.

Lemma toQ_add_aligned (d : nat) (a b : BigDecimal) :
  exponent b <= exponent a -> (toQ (add_at (S d) a b) == toQ a + toQ b)%Q.
Proof.
  intros Hle. rewrite add_aligned by exact Hle. rewrite toQ_normalized.
  rewrite toQ_mk, inject_Z_plus.
  rewrite Qmult_plus_distr_l.
  change (inject_Z (significant a * 10 ^ (exponent a - exponent b)) *
          (10 # 1) ^ exponent b)%Q
    with (toQ (mk (significant a * 10 ^ (exponent a - exponent b))
                  (exponent b))).
  rewrite toQ_shift by lia.
  replace (exponent b + (exponent a - exponent b)) with (exponent a) by lia.
  unfold toQ. cbn [significant exponent]. ring.
Qed.

Lemma toQ_add (a b : BigDecimal) : (toQ (add a b) == toQ a + toQ b)%Q.
Proof.
  unfold add. destruct (Z.lt_ge_cases (exponent a) (exponent b)) as [H|H].
  - rewrite add_exchanged by exact H. rewrite toQ_add_aligned by lia. ring.
  - apply toQ_add_aligned. lia.
Qed.

Lemma toQ_subtract (a b : BigDecimal) :
  (toQ (subtract a b) == toQ a - toQ b)%Q.
Proof. unfold subtract. rewrite toQ_add, toQ_negate. ring. Qed.

Lemma toQ_multiply (a b : BigDecimal) :
  (toQ (multiply a b) == toQ a * toQ b)%Q.
Proof.
  unfold multiply. rewrite toQ_normalized. unfold toQ. cbn [significant exponent].
  rewrite inject_Z_mult, pow10Q_add. ring.
Qed.

Lemma toQ_zero_iff (x : BigDecimal) : (toQ x == 0)%Q <-> significant x = 0.
Proof. apply toQ_sign. Qed.

(** ** Division: the error cases *)

Lemma divide_zero_divisor (a b : BigDecimal) :
  significant b = 0 ->
  divide a b =
  if significant a =? 0 then Err DivisionUndefined else Err DivisionByZero.
Proof. intros Hb. unfold divide. rewrite Hb. reflexivity. Qed.

Lemma divide_nonzero_divisor (a b : BigDecimal) :
  significant b <> 0 -> exists q, divide a b = Ok q.
Proof.
  intros Hb. unfold divide. apply Z.eqb_neq in Hb. rewrite Hb.
  destruct (significant a =? 0); [eexists; reflexivity|].
  destruct (divide_loop 10 (significant a) (exponent a) (significant b)).
  eexists; reflexivity.
Qed.

(** C1. [divide] fails with DivisionUndefined exactly when both operands are
    numerically zero, fails with DivisionByZero exactly when the divisor is
    zero and the dividend is not, and returns [new BigDecimal(0n, 0)] at once
    when the dividend is zero and the divisor is not.  In particular
    [ZERO.divide(ZERO)] and [ONE.divide(ZERO)] fail with the two errors. *)
Theorem divide_error_cases (a b : BigDecimal) :
  (divide a b = Err DivisionUndefined <-> (toQ a == 0 /\ toQ b == 0)%Q) /\
  (divide a b = Err DivisionByZero <-> (~ toQ a == 0 /\ toQ b == 0)%Q) /\
  ((toQ a == 0)%Q -> (~ toQ b == 0)%Q -> divide a b = Ok (mk 0 0)) /\
  divide ZERO ZERO = Err DivisionUndefined /\
  divide ONE ZERO = Err DivisionByZero.
Proof.
  rewrite !toQ_zero_iff.
  destruct (Z.eq_dec (significant b) 0) as [Hb|Hb].
  - rewrite (divide_zero_divisor a b Hb).
    destruct (Z.eqb_spec (significant a) 0) as [Ha|Ha].
    + repeat split; try reflexivity; try assumption; try tauto; discriminate.
    + repeat split; try reflexivity; try assumption; try tauto; discriminate.
  - destruct (divide_nonzero_divisor a b Hb) as [q Hq].
    split; [|split; [|split; [|split]]]; try reflexivity.
    + rewrite Hq. split; [discriminate | tauto].
    + rewrite Hq. split; [discriminate | tauto].
    + intros Ha _. unfold divide. apply Z.eqb_neq in Hb. rewrite Hb, Ha.
      reflexivity.
Qed.

Lemma divide_error_cases_witness :
  divide (mk 0 3) (mk 7 (-2)) = Ok (mk 0 0).
Proof.
  apply (divide_error_cases (mk 0 3) (mk 7 (-2))).
  - reflexivity.
  - discriminate.
Defined.

(** ** Rounding: the helpers and negation *)

Lemma signum_negative (x : BigDecimal) :
  significant x < 0 -> signum x = -1 /\ signum (negate x) = 1.
Proof.
  intros H. unfold signum, negate. cbn [significant].
  destruct (Z.ltb_spec (significant x) 0); [|lia].
  destruct (Z.ltb_spec (- significant x) 0); [lia|].
  destruct (Z.eqb_spec (- significant x) 0); [lia|]. split; reflexivity.
Qed.

Lemma signum_positive (x : BigDecimal) :
  0 < significant x -> signum x = 1 /\ signum (negate x) = -1.
Proof.
  intros H. unfold signum, negate. cbn [significant].
  destruct (Z.ltb_spec (significant x) 0); [lia|].
  destruct (Z.eqb_spec (significant x) 0); [lia|].
  destruct (Z.ltb_spec (- significant x) 0); [|lia]. split; reflexivity.
Qed.

Lemma signum_zero (x : BigDecimal) :
  significant x = 0 -> signum x = 0 /\ signum (negate x) = 0.
Proof.
  intros H. unfold signum, negate. cbn [significant]. rewrite H.
  split; reflexivity.
Qed.

(** Unfolds the calls of the rounding helpers at a known depth. *)
Ltac round_unfold :=
  cbn [round_helper mirror roundCeiling roundFloor roundUp roundDown
       roundHalfUp roundHalfDown roundHalfEven].

(** On a negative operand a helper negates, calls the mirror helper, and
    negates back; that call is on a positive operand and goes no deeper. *)
Lemma round_helper_negative (mode : RoundingMode) (d : nat) (x : BigDecimal)
  (p : Z) :
  significant x < 0 ->
  round_helper mode (S (S d)) x p =
  negate (round_helper (mirror mode) 1 (negate x) p).
Proof.
  intros H. destruct (signum_negative x H) as [Hs Hn].
  destruct mode; round_unfold; rewrite Hs, Hn; reflexivity.
Qed.

Lemma round_helper_nonnegative (mode : RoundingMode) (d : nat)
  (x : BigDecimal) (p : Z) :
  0 <= significant x ->
  round_helper mode (S d) x p = round_helper mode 1 x p.
Proof.
  intros H.
  assert (Hs : (signum x =? -1) = false).
  { destruct (Z.eq_dec (significant x) 0) as [Hz|Hnz].
    - destruct (signum_zero x Hz) as [-> _]. reflexivity.
    - destruct (signum_positive x ltac:(lia)) as [-> _]. reflexivity. }
  destruct mode; round_unfold; rewrite Hs; reflexivity.
Qed.

(** No call of a helper reaches depth zero from the depth [round] passes. *)
Lemma round_helpers_depth (mode : RoundingMode) (d : nat) (x : BigDecimal)
  (p : Z) :
  round_helper mode (S (S d)) x p = round_helper mode 2 x p.
Proof.
  destruct (Z.lt_ge_cases (significant x) 0) as [H|H].
  - rewrite !round_helper_negative by exact H. reflexivity.
  - rewrite (round_helper_nonnegative mode (S d)) by exact H.
    rewrite (round_helper_nonnegative mode 1) by exact H. reflexivity.
Qed.

Lemma round_helper_negate (mode : RoundingMode) (x : BigDecimal) (p : Z) :
  round_helper (mirror mode) 2 (negate x) p =
  negate (round_helper mode 2 x p) \/ significant x = 0.
Proof.
  destruct (Z.lt_trichotomy (significant x) 0) as [H|[H|H]].
  - left. rewrite (round_helper_negative mode) by exact H.
    rewrite negate_involutive. apply round_helper_nonnegative.
    cbn. lia.
  - right. exact H.
  - left. rewrite round_helper_negative by (cbn; lia).
    rewrite negate_involutive.
    replace (mirror (mirror mode)) with mode by (destruct mode; reflexivity).
    f_equal. symmetry. apply round_helper_nonnegative. lia.
Qed.

Lemma round_props_helper (x : BigDecimal) (mode : RoundingMode) (p : Z)
  (flag : bool) :
  round_props x mode p flag =
  let n := if flag then x else normalized x in
  if signum n =? 0 then ZERO
  else if - exponent n - p <=? 0 then n
  else normalized (round_helper mode 2 n p).
Proof. unfold round_props. destruct mode; reflexivity. Qed.

Lemma round_negate (x : BigDecimal) (mode : RoundingMode) (p : Z) :
  round (negate x) (mirror mode) p = negate (round x mode p).
Proof.
  unfold round. rewrite !round_props_helper. cbv zeta.
  rewrite normalized_negate. set (n := normalized x).
  destruct (Z.eq_dec (significant n) 0) as [Hz|Hnz].
  - destruct (signum_zero n Hz) as [-> ->]. reflexivity.
  - assert (Hs : (signum n =? 0) = false /\ (signum (negate n) =? 0) = false).
    { destruct (Z.lt_ge_cases (significant n) 0) as [H|H].
      - destruct (signum_negative n H) as [-> ->]. split; reflexivity.
      - destruct (signum_positive n ltac:(lia)) as [-> ->].
        split; reflexivity. }
    destruct Hs as [-> ->]. cbn [negate exponent].
    destruct (- exponent n - p <=? 0); [reflexivity|].
    destruct (round_helper_negate mode n p) as [->|H]; [|contradiction].
    apply normalized_negate.
Qed.

(** C3. Rounding commutes with negation once the mode is mirrored: [floor]
    and [ceiling] are mirrors of each other, and [up], [down], [halfUp],
    [halfDown] and [halfEven] are each their own mirror. *)
Theorem round_mirror_under_negation (x : BigDecimal) (p : Z) :
  0 <= p ->
  round (negate x) Floor p = negate (round x Ceiling p) /\
  round (negate x) Ceiling p = negate (round x Floor p) /\
  (forall m, In m [Up; Down; HalfUp; HalfDown; HalfEven] ->
     round (negate x) m p = negate (round x m p)).
Proof.
  intros _. split; [|split].
  - apply (round_negate x Ceiling).
  - apply (round_negate x Floor).
  - intros m Hm. cbn in Hm.
    destruct Hm as [<-|[<-|[<-|[<-|[<-|[]]]]]];
      [apply (round_negate x Up) | apply (round_negate x Down)
      | apply (round_negate x HalfUp) | apply (round_negate x HalfDown)
      | apply (round_negate x HalfEven)].
Qed.

Lemma round_mirror_under_negation_witness :
  round (negate (mk (-215) (-2))) Floor 1 =
  negate (round (mk (-215) (-2)) Ceiling 1).
Proof.
  apply (round_mirror_under_negation (mk (-215) (-2)) 1). lia.
Defined.

(** ** Half-even rounding *)

(** The digit [#roundHalfEven] tests, on a non-negative significant, is the
    digit that follows the kept ones. *)
Lemma remainder_digit (m k : Z) :
  0 <= m -> 0 < k ->
  Z.quot (Z.rem m (10 ^ k)) (Z.quot (10 ^ k) 10) = (m / 10 ^ (k - 1)) mod 10 /\
  0 <= (m / 10 ^ (k - 1)) mod 10 < 10.
Proof.
  intros Hm Hk.
  assert (Hpow : 10 ^ k = 10 ^ (k - 1) * 10).
  { replace k with (Z.succ (k - 1)) at 1 by lia.
    rewrite Z.pow_succ_r by lia. lia. }
  pose proof (Z.pow_pos_nonneg 10 (k - 1) ltac:(lia) ltac:(lia)) as Hpos.
  split; [|apply Z.mod_pos_bound; lia].
  rewrite Z.rem_mod_nonneg by lia.
  rewrite Hpow, Z.quot_mul by lia.
  rewrite Z.quot_div_nonneg; [| apply Z.mod_pos_bound; lia | lia].
  rewrite Z.rem_mul_r by lia.
  rewrite (Z.mul_comm (10 ^ (k - 1))), Z.div_add by lia.
  rewrite Z.div_small by (apply Z.mod_pos_bound; lia). lia.
Qed.

Lemma roundHalfEven_positive (d : nat) (n : BigDecimal) (p : Z) :
  0 < significant n -> 0 < - exponent n - p ->
  roundHalfEven (S d) n p =
  mk (if halfEven_increments (keptDigits n p) (nextDigit n p)
      then keptDigits n p + 1 else keptDigits n p) (- p).
Proof.
  intros Hm Hk. destruct (signum_positive n Hm) as [Hs _].
  cbn [roundHalfEven]. rewrite Hs. cbn [Z.eqb].
  unfold keptDigits, nextDigit. rewrite (Z.abs_eq (significant n)) by lia.
  destruct (remainder_digit (significant n) (- exponent n - p)
              ltac:(lia) Hk) as [-> Hdigit].
  set (digit := (significant n / 10 ^ (- exponent n - p - 1)) mod 10) in *.
  pose proof (Z.pow_pos_nonneg 10 (- exponent n - p) ltac:(lia) ltac:(lia)).
  rewrite Z.quot_div_nonneg by lia.
  set (base := significant n / 10 ^ (- exponent n - p)).
  assert (Hbase : 0 <= base) by (apply Z.div_pos; lia).
  unfold halfEven_increments.
  destruct (Z.ltb_spec digit 5) as [Hlt|Hge].
  - destruct (Z.ltb_spec 5 digit); [lia|].
    destruct (Z.eqb_spec digit 5); [lia|]. reflexivity.
  - destruct (Z.eqb_spec digit 5) as [Heq|Hne].
    + destruct (Z.ltb_spec 5 digit); [lia|]. cbn [orb andb].
      rewrite Z.rem_mod_nonneg by lia. rewrite <- Z.negb_even.
      rewrite Zeven_mod. destruct (base mod 2 =? 0); reflexivity.
    + destruct (Z.ltb_spec 5 digit); [|lia]. reflexivity.
Qed.




(** ** Normalization: invariant and idempotence *)

(** C6. The result of [normalized] has a significant that is not divisible by
    ten unless it is zero, and exponent zero when the significant is zero;
    hence normalizing twice gives, component by component, what normalizing
    once gives. *)
Theorem normalized_invariant_idempotent (x : BigDecimal) :
  (significant (normalized x) <> 0 -> ~ (10 | significant (normalized x))) /\
  (significant (normalized x) = 0 -> exponent (normalized x) = 0) /\
  normalized (normalized x) = normalized x /\
  equals (normalized (normalized x)) (normalized x) = true.
Proof.
  destruct (normalized_is_normal x) as [Hrem Hzero].
  split; [|split; [exact Hzero|split]].
  - intros Hnz Hdiv. apply (Hrem Hnz).
    apply Z.rem_divide; [lia | exact Hdiv].
  - apply normalized_idempotent.
  - apply equals_iff, normalized_idempotent.
Qed.

Lemma normalized_invariant_idempotent_witness :
  ~ (10 | significant (normalized (mk (-120300) 2))).
Proof.
  apply (normalized_invariant_idempotent (mk (-120300) 2)).
  vm_compute. discriminate.
Defined.

(** ** Integral and decimal parts *)

Lemma normalized_sgn (x : BigDecimal) :
  Z.sgn (significant (normalized x)) = Z.sgn (significant x).
Proof.
  destruct (Z.eq_dec (significant x) 0) as [Hz|Hnz].
  - rewrite (normalized_zero x Hz), Hz. reflexivity.
  - destruct (normalized_shape x Hnz) as (k & Hk & _ & Hm & _).
    transitivity (Z.sgn (significant (normalized x) * 10 ^ k));
      [|f_equal; symmetry; exact Hm].
    rewrite Z.sgn_mul.
    rewrite (Z.sgn_pos (10 ^ k)) by (apply Z.pow_pos_nonneg; lia). lia.
Qed.

Lemma integralPart_nonnegative (x : BigDecimal) :
  0 <= significant x ->
  integralPart x =
  if exponent (normalized x) >=? 0 then normalized x
  else mk (Z.quot (significant (normalized x))
                  (10 ^ (- exponent (normalized x)))) 0.
Proof.
  intros H. unfold integralPart. cbn [integralPart_at].
  destruct (Z.ltb_spec (significant x) 0); [lia | reflexivity].
Qed.

Lemma decimalPart_nonnegative (x : BigDecimal) :
  0 <= significant x ->
  decimalPart x =
  if exponent (normalized x) >=? 0 then ZERO
  else mk (Z.rem (significant (normalized x))
                 (10 ^ (- exponent (normalized x))))
          (exponent (normalized x)).
Proof.
  intros H. unfold decimalPart. cbn [decimalPart_at].
  destruct (Z.ltb_spec (significant x) 0); [lia | reflexivity].
Qed.

(** On a negative operand both parts are those of the negation, negated;
    the inner call is on a positive operand and goes no deeper. *)
Lemma integralPart_negative (x : BigDecimal) :
  significant x < 0 -> integralPart x = negate (integralPart (negate x)).
Proof.
  intros H. unfold integralPart. cbn [integralPart_at negate significant].
  destruct (Z.ltb_spec (significant x) 0); [|lia].
  destruct (Z.ltb_spec (- significant x) 0); [lia | reflexivity].
Qed.

Lemma decimalPart_negative (x : BigDecimal) :
  significant x < 0 -> decimalPart x = negate (decimalPart (negate x)).
Proof.
  intros H. unfold decimalPart. cbn [decimalPart_at negate significant].
  destruct (Z.ltb_spec (significant x) 0); [|lia].
  destruct (Z.ltb_spec (- significant x) 0); [lia | reflexivity].
Qed.

Lemma parts_depth (d : nat) (x : BigDecimal) :
  integralPart_at (S (S d)) x = integralPart x /\
  decimalPart_at (S (S d)) x = decimalPart x.
Proof.
  unfold integralPart, decimalPart.
  cbn [integralPart_at decimalPart_at negate significant].
  destruct (Z.ltb_spec (significant x) 0); [|split; reflexivity].
  destruct (Z.ltb_spec (- significant x) 0); [lia | split; reflexivity].
Qed.

(** Below exponent zero the value is a fraction over a power of ten. *)
Lemma toQ_fraction (m e : Z) :
  e < 0 -> (toQ (mk m e) == inject_Z m / inject_Z (10 ^ (- e)))%Q.
Proof.
  intros He. rewrite toQ_mk, pow10Q_of_Z by lia.
  unfold Qdiv. rewrite Qpower_opp, Qinv_involutive. reflexivity.
Qed.

Lemma toQ_integer (m : Z) : (toQ (mk m 0) == inject_Z m)%Q.
Proof. rewrite toQ_mk. cbn. ring. Qed.

Lemma toQ_integer_nonneg (m e : Z) :
  0 <= e -> (toQ (mk m e) == inject_Z (m * 10 ^ e))%Q.
Proof.
  intros He. rewrite <- toQ_integer, toQ_shift by exact He. reflexivity.
Qed.

Lemma toQ_integralPart_nonnegative (x : BigDecimal) :
  0 <= significant x ->
  (toQ (integralPart x) == inject_Z (Qfloor (toQ x)))%Q.
Proof.
  intros H. rewrite (integralPart_nonnegative x H).
  rewrite <- (toQ_normalized x).
  pose proof (normalized_sgn x) as Hsgn.
  destruct (normalized x) as [m e]. cbn [significant exponent] in *.
  destruct (Z.geb_spec e 0) as [He|He].
  - rewrite (Qfloor_comp _ _ (toQ_integer_nonneg m e ltac:(lia))).
    rewrite Qfloor_Z. apply toQ_integer_nonneg. lia.
  - rewrite (Qfloor_comp _ _ (toQ_fraction m e He)).
    rewrite <- Zdiv_Qdiv, toQ_integer.
    rewrite Z.quot_div_nonneg; [reflexivity | lia |].
    apply Z.pow_pos_nonneg; lia.
Qed.

Lemma toQ_parts_nonnegative (x : BigDecimal) :
  0 <= significant x ->
  (toQ (integralPart x) + toQ (decimalPart x) == toQ x)%Q.
Proof.
  intros H. rewrite (integralPart_nonnegative x H).
  rewrite (decimalPart_nonnegative x H).
  rewrite <- (toQ_normalized x).
  destruct (normalized x) as [m e]. cbn [significant exponent].
  destruct (Z.geb_spec e 0) as [He|He].
  - unfold ZERO. rewrite (toQ_zero (mk 0 0)) by reflexivity. ring.
  - rewrite toQ_integer, !toQ_mk.
    pose proof (Z.quot_rem' m (10 ^ (- e))) as Hqr.
    rewrite Hqr at 3. rewrite inject_Z_plus, inject_Z_mult.
    rewrite pow10Q_of_Z by lia.
    assert (Hone : ((10 # 1) ^ (- e) * (10 # 1) ^ e == 1)%Q).
    { rewrite <- pow10Q_add. replace (- e + e) with 0 by lia. reflexivity. }
    set (q := inject_Z (Z.quot m (10 ^ (- e)))) in *.
    set (r := inject_Z (Z.rem m (10 ^ (- e)))) in *.
    rewrite Qmult_plus_distr_l.
    rewrite <- (Qmult_assoc _ q), (Qmult_comm q), Qmult_assoc, Hone. ring.
Qed.

Lemma toQ_parts (x : BigDecimal) :
  (toQ (integralPart x) + toQ (decimalPart x) == toQ x)%Q.
Proof.
  destruct (Z.lt_ge_cases (significant x) 0) as [H|H].
  - rewrite (integralPart_negative x H), (decimalPart_negative x H).
    rewrite !toQ_negate.
    pose proof (toQ_parts_nonnegative (negate x) ltac:(cbn; lia)) as Hp.
    rewrite toQ_negate in Hp. lra.
  - apply toQ_parts_nonnegative. exact H.
Qed.

Lemma toQ_integralPart (x : BigDecimal) :
  (toQ (integralPart x) == inject_Z (Qtruncate (toQ x)))%Q.
Proof.
  unfold Qtruncate.
  destruct (toQ_sign x) as (Hpos & Hneg & Hzero).
  destruct (Z.lt_ge_cases (significant x) 0) as [H|H].
  - assert (Hlt : (toQ x < 0)%Q) by (apply Hneg; exact H).
    destruct (Qle_bool 0 (toQ x)) eqn:Hb.
    + apply Qle_bool_iff in Hb. lra.
    + rewrite (integralPart_negative x H), toQ_negate.
      rewrite toQ_integralPart_nonnegative by (cbn; lia).
      unfold Qceiling. rewrite inject_Z_opp.
      rewrite (Qfloor_comp _ _ (toQ_negate x)). reflexivity.
  - assert (Hle : (0 <= toQ x)%Q).
    { destruct (Z.eq_dec (significant x) 0) as [Hz|Hnz].
      - apply Hzero in Hz. lra.
      - apply Qlt_le_weak, Hpos. lia. }
    apply Qle_bool_iff in Hle. rewrite Hle.
    apply toQ_integralPart_nonnegative. exact H.
Qed.

Lemma parts_sign_nonnegative (x : BigDecimal) :
  0 <= significant x ->
  0 <= significant (integralPart x) /\ 0 <= significant (decimalPart x).
Proof.
  intros H. rewrite (integralPart_nonnegative x H).
  rewrite (decimalPart_nonnegative x H).
  pose proof (normalized_sgn x) as Hsgn.
  assert (Hn : 0 <= significant (normalized x)).
  { apply Z.sgn_nonneg. rewrite Hsgn. apply Z.sgn_nonneg. exact H. }
  destruct (normalized x) as [m e]. cbn [significant exponent] in *.
  destruct (Z.geb_spec e 0) as [He|He]; cbn [significant ZERO].
  - split; [exact Hn | lia].
  - pose proof (Z.pow_pos_nonneg 10 (- e) ltac:(lia) ltac:(lia)) as Hp.
    split.
    + apply Z.quot_pos; lia.
    + apply Z.rem_nonneg; lia.
Qed.

(** With exact arithmetic on exponents.
    [integralPart] truncates toward zero; the integral part plus the
    decimal part is the operand again, exactly; on a negative operand both
    parts are computed on the negation and negated back, so that neither part
    has the sign opposite to the operand. *)
Lemma integral_decimal_split_ideal (x : BigDecimal) :
  (toQ (integralPart x) == inject_Z (Qtruncate (toQ x)))%Q /\
  equalValue (add (integralPart x) (decimalPart x)) x = true /\
  (toQ (add (integralPart x) (decimalPart x)) == toQ x)%Q /\
  (significant x < 0 ->
     integralPart x = negate (integralPart (negate x)) /\
     decimalPart x = negate (decimalPart (negate x))) /\
  0 <= significant (integralPart x) * significant x /\
  0 <= significant (decimalPart x) * significant x.
Proof.
  assert (Hsum : (toQ (add (integralPart x) (decimalPart x)) == toQ x)%Q)
    by (rewrite toQ_add; apply toQ_parts).
  split; [apply toQ_integralPart|].
  split; [apply equalValue_iff; exact Hsum|].
  split; [exact Hsum|].
  split.
  - intros H. split;
      [apply integralPart_negative | apply decimalPart_negative]; exact H.
  - destruct (Z.lt_ge_cases (significant x) 0) as [H|H].
    + rewrite (integralPart_negative x H), (decimalPart_negative x H).
      destruct (parts_sign_nonnegative (negate x) ltac:(cbn; lia)) as [Hi Hd].
      cbn [negate significant] in *. split; nia.
    + destruct (parts_sign_nonnegative x H) as [Hi Hd]. split; nia.
Qed.

(** ** Division: the scaling loop *)

(** The loop multiplies by ten [k] times, where [k] is the first count at
    which the divisor divides the scaled significant, or the whole budget
    when there is none below it. *)
Lemma divide_loop_spec (budget : nat) :
  forall m e d, exists k,
    0 <= k <= Z.of_nat budget /\
    divide_loop budget m e d = (m * 10 ^ k, e - k) /\
    (forall i, 0 <= i < k -> Z.rem (m * 10 ^ i) d <> 0) /\
    (k < Z.of_nat budget -> Z.rem (m * 10 ^ k) d = 0).
Proof.
  induction budget as [|budget IH]; intros m e d.
  - exists 0. cbn [divide_loop Z.of_nat]. rewrite Z.pow_0_r.
    split; [lia|]. split; [f_equal; lia|]. split; intros; lia.
  - cbn [divide_loop]. destruct (Z.eqb_spec (Z.rem m d) 0) as [Hr|Hr].
    + exists 0. rewrite Z.pow_0_r, Z.mul_1_r, Z.sub_0_r.
      split; [lia|]. split; [reflexivity|]. split; [intros; lia|].
      intros _. exact Hr.
    + destruct (IH (m * 10) (e - 1) d) as (k & Hk & Hloop & Hmin & Hdiv).
      assert (Hpow : forall i, 0 <= i -> m * 10 * 10 ^ i = m * 10 ^ (i + 1)).
      { intros i Hi. rewrite Z.pow_add_r by lia. lia. }
      exists (k + 1). split; [lia|]. split; [|split].
      * rewrite Hloop, Hpow by lia. f_equal. lia.
      * intros i Hi. destruct (Z.eq_dec i 0) as [->|Hnz].
        -- rewrite Z.pow_0_r, Z.mul_1_r. exact Hr.
        -- replace i with (i - 1 + 1) by lia. rewrite <- Hpow by lia.
           apply Hmin. lia.
      * intros Hlt. rewrite <- Hpow by lia. apply Hdiv. lia.
Qed.

(** What [divide] returns on nonzero operands, and the part of the dividend
    that the truncating division of the significants leaves out. *)
Lemma divide_nonzero (a b : BigDecimal) :
  significant a <> 0 -> significant b <> 0 ->
  exists k,
    0 <= k <= 10 /\
    (forall i, 0 <= i < k ->
       Z.rem (significant a * 10 ^ i) (significant b) <> 0) /\
    (k < 10 -> Z.rem (significant a * 10 ^ k) (significant b) = 0) /\
    divide a b =
    Ok (normalized (mk (Z.quot (significant a * 10 ^ k) (significant b))
                       (exponent a - k - exponent b))).
Proof.
  intros Ha Hb. unfold divide.
  apply Z.eqb_neq in Ha, Hb. rewrite Ha, Hb.
  destruct (divide_loop_spec 10 (significant a) (exponent a) (significant b))
    as (k & Hk & -> & Hmin & Hdiv).
  exists k. repeat split; try assumption; lia.
Qed.

Lemma toQ_divide_residue (a b : BigDecimal) (k : Z) :
  0 <= k -> significant b <> 0 ->
  (toQ (normalized (mk (Z.quot (significant a * 10 ^ k) (significant b))
                       (exponent a - k - exponent b))) * toQ b
   + toQ (mk (Z.rem (significant a * 10 ^ k) (significant b)) (exponent a - k))
   == toQ a)%Q.
Proof.
  intros Hk Hb. rewrite toQ_normalized.
  pose proof (Z.quot_rem' (significant a * 10 ^ k) (significant b)) as Hqr.
  set (q := Z.quot (significant a * 10 ^ k) (significant b)) in *.
  set (r := Z.rem (significant a * 10 ^ k) (significant b)) in *.
  assert (Ha : (toQ a == toQ (mk (significant a * 10 ^ k) (exponent a - k)))%Q).
  { rewrite toQ_shift by exact Hk.
    replace (exponent a - k + k) with (exponent a) by lia.
    destruct a; reflexivity. }
  rewrite Ha, Hqr. unfold toQ. cbn [significant exponent].
  rewrite inject_Z_plus, inject_Z_mult.
  replace (exponent a - k - exponent b)
    with ((exponent a - k) + - exponent b) by lia.
  rewrite (pow10Q_add (exponent a - k)).
  assert (Hone : ((10 # 1) ^ (- exponent b) * (10 # 1) ^ exponent b == 1)%Q).
  { rewrite <- pow10Q_add. replace (- exponent b + exponent b) with 0 by lia.
    reflexivity. }
  set (u := ((10 # 1) ^ (- exponent b))%Q) in *.
  set (v := ((10 # 1) ^ exponent b)%Q) in *.
  set (w := ((10 # 1) ^ (exponent a - k))%Q).
  transitivity (inject_Z q * inject_Z (significant b) * w * (u * v)
                + inject_Z r * w)%Q; [ring|].
  rewrite Hone. ring.
Qed.

Lemma Qbetween0_flip (x y : Q) : Qbetween0 x y -> Qbetween0 (y - x) y.
Proof. unfold Qbetween0. intros [[? ?]|[? ?]]; [left | right]; split; lra. Qed.

Lemma Qbetween0_scale (x y c : Q) :
  Qbetween0 x y -> Qbetween0 (x * c) (y * c).
Proof.
  unfold Qbetween0. destruct (Qlt_le_dec c 0) as [Hc|Hc];
    intros [[? ?]|[? ?]]; [right | left | left | right]; split; nra.
Qed.

Lemma Qbetween0_trans (x y z : Q) :
  Qbetween0 x y -> Qbetween0 y z -> Qbetween0 x z.
Proof.
  unfold Qbetween0.
  intros [[? ?]|[? ?]] [[? ?]|[? ?]]; try (left; split; lra);
    try (right; split; lra).
Qed.

Lemma Qbetween0_comp (x x' y y' : Q) :
  (x == x')%Q -> (y == y')%Q -> Qbetween0 x y -> Qbetween0 x' y'.
Proof.
  unfold Qbetween0. intros Hx Hy [[? ?]|[? ?]]; [left | right]; split; lra.
Qed.

(** The remainder of a truncating division lies between zero and the
    dividend, and is smaller than the divisor. *)
Lemma rem_between (x d : Z) :
  d <> 0 ->
  (0 <= Z.rem x d <= x \/ x <= Z.rem x d <= 0) /\ Z.abs (Z.rem x d) < Z.abs d.
Proof.
  intros Hd. split; [|apply Z.rem_bound_abs; exact Hd].
  pose proof (Z.rem_le (Z.abs x) (Z.abs d) ltac:(lia) ltac:(lia)) as Hle.
  rewrite Z.rem_abs in Hle by exact Hd.
  destruct (Z.eq_dec (Z.rem x d) 0) as [Hz|Hnz].
  - rewrite Hz. lia.
  - pose proof (Z.rem_sign_nz x d Hd Hnz) as Hs.
    destruct (Z.lt_trichotomy x 0) as [Hx|[->|Hx]].
    + right. rewrite (Z.sgn_neg x) in Hs by exact Hx.
      apply Z.sgn_neg_iff in Hs. lia.
    + rewrite Z.rem_0_l in Hnz by exact Hd. contradiction.
    + left. rewrite (Z.sgn_pos x) in Hs by exact Hx.
      apply Z.sgn_pos_iff in Hs. lia.
Qed.

Lemma toQ_mono (m1 m2 e : Z) :
  m1 <= m2 -> (toQ (mk m1 e) <= toQ (mk m2 e))%Q.
Proof.
  intros H. rewrite !toQ_mk. pose proof (pow10Q_pos e).
  apply Qmult_le_compat_r; [|lra]. rewrite <- Zle_Qle. exact H.
Qed.

Lemma toQ_residue_between (a : BigDecimal) (d k : Z) :
  0 <= k -> d <> 0 ->
  Qbetween0 (toQ (mk (Z.rem (significant a * 10 ^ k) d) (exponent a - k)))
            (toQ a).
Proof.
  intros Hk Hd.
  assert (Ha : (toQ (mk (significant a * 10 ^ k) (exponent a - k)) == toQ a)%Q).
  { rewrite toQ_shift by exact Hk.
    replace (exponent a - k + k) with (exponent a) by lia.
    destruct a; reflexivity. }
  assert (H0 : (toQ (mk 0 (exponent a - k)) == 0)%Q)
    by (apply toQ_zero; reflexivity).
  destruct (rem_between (significant a * 10 ^ k) d Hd) as [[[H1 H2]|[H1 H2]] _].
  - left. rewrite <- Ha, <- H0. split; apply toQ_mono; assumption.
  - right. rewrite <- Ha, <- H0. split; apply toQ_mono; assumption.
Qed.

(** The quotient times the divisor lies between zero and the dividend: the
    truncating division of the significants never overshoots. *)
Lemma toQ_divide_between (a b q : BigDecimal) :
  divide a b = Ok q -> Qbetween0 (toQ q * toQ b) (toQ a).
Proof.
  intros Hq.
  destruct (Z.eq_dec (significant b) 0) as [Hb|Hb].
  - rewrite (divide_zero_divisor a b Hb) in Hq.
    destruct (significant a =? 0); discriminate.
  - destruct (Z.eq_dec (significant a) 0) as [Ha|Ha].
    + unfold divide in Hq. apply Z.eqb_neq in Hb. rewrite Hb, Ha in Hq.
      cbn in Hq. injection Hq as <-.
      apply (Qbetween0_comp 0 _ 0 _).
      * rewrite (toQ_zero (mk 0 0)) by reflexivity. ring.
      * symmetry. apply toQ_zero. exact Ha.
      * left. split; lra.
    + destruct (divide_nonzero a b Ha Hb) as (k & Hk & _ & _ & Hdiv).
      rewrite Hdiv in Hq. injection Hq as <-.
      pose proof (toQ_divide_residue a b k ltac:(lia) Hb) as Hres.
      pose proof (toQ_residue_between a (significant b) k ltac:(lia) Hb) as Hbt.
      apply Qbetween0_flip in Hbt.
      eapply Qbetween0_comp; [| reflexivity | exact Hbt]. lra.
Qed.

Lemma Qabs_ratio_bound (D s r P : Q) :
  (0 < P)%Q -> (D * s == r * P)%Q ->
  ((- s < r /\ r < s) \/ (s < r /\ r < - s))%Q ->
  (Qabs D < P)%Q.
Proof.
  intros HP Heq Hb. apply Qabs_Qlt_condition.
  destruct Hb as [[H1 H2]|[H1 H2]]; split; nra.
Qed.

(** With exact arithmetic on exponents.
    On nonzero operands [divide] multiplies the significant of the
    dividend by ten at most ten times, lowering the working exponent by one
    each time, and stops at the first count [k] at which the divisor's
    significant divides it; it then divides the significants, truncating.
    The quotient is exact when that division leaves no remainder; otherwise
    all ten steps were taken and the quotient is within one unit of the
    tenth extra digit of the exact one. *)
Lemma divide_scaling_budget_ideal (a b : BigDecimal) :
  significant a <> 0 -> significant b <> 0 ->
  exists k q,
    0 <= k <= 10 /\
    (forall i, 0 <= i < k ->
       Z.rem (significant a * 10 ^ i) (significant b) <> 0) /\
    (k < 10 -> Z.rem (significant a * 10 ^ k) (significant b) = 0) /\
    q = normalized (mk (Z.quot (significant a * 10 ^ k) (significant b))
                       (exponent a - k - exponent b)) /\
    divide a b = Ok q /\
    (Z.rem (significant a * 10 ^ k) (significant b) = 0 ->
       (toQ q == toQ a / toQ b)%Q) /\
    (Z.rem (significant a * 10 ^ k) (significant b) <> 0 ->
       k = 10 /\
       (Qabs (toQ a / toQ b - toQ q)
        < (10 # 1) ^ (exponent a - exponent b - 10))%Q).
Proof.
  intros Ha Hb.
  destruct (divide_nonzero a b Ha Hb) as (k & Hk & Hmin & Hstop & Hdiv).
  eexists k, _. split; [exact Hk|]. split; [exact Hmin|].
  split; [exact Hstop|]. split; [reflexivity|]. split; [exact Hdiv|].
  pose proof (toQ_divide_residue a b k ltac:(lia) Hb) as Hres.
  assert (Hbnz : ~ (toQ b == 0)%Q) by (rewrite toQ_zero_iff; exact Hb).
  set (q := normalized _) in *.
  set (r := Z.rem (significant a * 10 ^ k) (significant b)) in *.
  split.
  - intros Hr. rewrite Hr, (toQ_zero (mk 0 _)) in Hres by reflexivity.
    rewrite <- Hres. field. exact Hbnz.
  - intros Hr. assert (Hk10 : k = 10) by (destruct (Z.eq_dec k 10); [|exfalso]; lia).
    split; [exact Hk10|]. subst k.
    apply (Qabs_ratio_bound _ (inject_Z (significant b)) (inject_Z r)).
    + apply pow10Q_pos.
    + assert (Hd : ((toQ a / toQ b - toQ q) * toQ b
                    == toQ (mk r (exponent a - 10)))%Q).
      { rewrite <- Hres. field. exact Hbnz. }
      unfold toQ at 4 5 in Hd. cbn [significant exponent] in Hd.
      replace (exponent a - 10)
        with ((exponent a - exponent b - 10) + exponent b) in Hd by lia.
      rewrite pow10Q_add in Hd.
      pose proof (pow10Q_pos (exponent b)) as Hv.
      set (v := ((10 # 1) ^ exponent b)%Q) in *.
      set (D := (toQ a / toQ b - toQ q)%Q) in *.
      set (P := ((10 # 1) ^ (exponent a - exponent b - 10))%Q) in *.
      assert (Hvnz : ~ (v == 0)%Q) by lra.
      apply (proj1 (Qmult_inj_r (D * inject_Z (significant b))
                                (inject_Z r * P) v Hvnz)).
      transitivity (D * (inject_Z (significant b) * v))%Q; [ring|].
      rewrite Hd. ring.
    + destruct (rem_between (significant a * 10 ^ 10) (significant b) Hb)
        as [_ Habs]. fold r in Habs.
      destruct (Z.lt_ge_cases (significant b) 0) as [Hsb|Hsb].
      * right. rewrite <- inject_Z_opp, <- !Zlt_Qlt. lia.
      * left. rewrite <- inject_Z_opp, <- !Zlt_Qlt. lia.
Qed.

(** ** Integral quotient and remainder *)

Lemma Qbetween0_refl (x : Q) : Qbetween0 x x.
Proof.
  unfold Qbetween0. destruct (Qlt_le_dec x 0); [right | left]; split; lra.
Qed.

Lemma toQ_nonneg (x : BigDecimal) : 0 <= significant x <-> (0 <= toQ x)%Q.
Proof.
  destruct (toQ_sign x) as (Hpos & Hneg & Hzero). split; intros H.
  - destruct (Z.eq_dec (significant x) 0) as [Hz|Hnz].
    + apply Hzero in Hz. lra.
    + apply Qlt_le_weak, Hpos. lia.
  - destruct (Z.lt_ge_cases (significant x) 0) as [Hlt|Hge]; [|exact Hge].
    apply Hneg in Hlt. lra.
Qed.

Lemma toQ_nonpos (x : BigDecimal) : significant x <= 0 <-> (toQ x <= 0)%Q.
Proof.
  pose proof (toQ_nonneg (negate x)) as H. rewrite toQ_negate in H.
  cbn [negate significant] in H. split; intros Hx.
  - assert (0 <= - toQ x)%Q by (apply H; lia). lra.
  - assert (0 <= - significant x) by (apply H; lra). lia.
Qed.

Lemma Qbetween0_sign (r a : BigDecimal) :
  Qbetween0 (toQ r) (toQ a) -> 0 <= significant r * significant a.
Proof.
  intros [[H1 H2]|[H1 H2]].
  - assert (0 <= toQ a)%Q by lra.
    apply toQ_nonneg in H1, H. nia.
  - assert (toQ a <= 0)%Q by lra.
    apply toQ_nonpos in H2, H. nia.
Qed.

(** Rounding down drops digits and never moves away from zero. *)
Lemma toQ_round_down_nonnegative (x : BigDecimal) (p : Z) :
  0 <= significant x -> Qbetween0 (toQ (round x Down p)) (toQ x).
Proof.
  intros Hx. unfold round. rewrite round_props_helper. cbv zeta.
  apply (Qbetween0_comp _ _ (toQ (normalized x)) _
           (Qeq_refl _) (toQ_normalized x)).
  pose proof (normalized_sgn x) as Hsgn.
  assert (Hn : 0 <= significant (normalized x)).
  { apply Z.sgn_nonneg. rewrite Hsgn. apply Z.sgn_nonneg. exact Hx. }
  set (n := normalized x) in *. clearbody n. clear Hsgn.
  destruct (signum n =? 0).
  - unfold ZERO. left. split; [|apply toQ_nonneg; exact Hn].
    rewrite (toQ_zero (mk 0 0)) by reflexivity. lra.
  - destruct (Z.leb_spec (- exponent n - p) 0) as [Hk|Hk];
      [apply Qbetween0_refl|].
    rewrite round_helper_nonnegative by exact Hn.
    cbn [round_helper roundDown].
    assert (Hs : (signum n =? -1) = false).
    { unfold signum. destruct (Z.ltb_spec (significant n) 0); [lia|].
      destruct (significant n =? 0); reflexivity. }
    rewrite Hs.
    set (k := - exponent n - p) in *.
    pose proof (Z.pow_pos_nonneg 10 k ltac:(lia) ltac:(lia)) as Hpow.
    pose proof (Z.quot_rem' (significant n) (10 ^ k)) as Hqr.
    pose proof (Z.rem_nonneg (significant n) (10 ^ k) ltac:(lia) Hn) as Hr.
    pose proof (Z.quot_pos (significant n) (10 ^ k) Hn Hpow) as Hq.
    set (base := Z.quot (significant n) (10 ^ k)) in *.
    assert (Hval : (toQ (normalized (mk base (- p)))
                    == toQ (mk (base * 10 ^ k) (exponent n)))%Q).
    { rewrite toQ_normalized, toQ_shift by lia.
      replace (exponent n + k) with (- p) by (unfold k; lia). reflexivity. }
    assert (Hnval : (toQ n == toQ (mk (significant n) (exponent n)))%Q)
      by (destruct n; reflexivity).
    assert (H0 : (toQ (mk 0 (exponent n)) == 0)%Q)
      by (apply toQ_zero; reflexivity).
    left. rewrite Hval, Hnval, <- H0. split; apply toQ_mono; nia.
Qed.

Lemma toQ_round_down (x : BigDecimal) (p : Z) :
  Qbetween0 (toQ (round x Down p)) (toQ x).
Proof.
  destruct (Z.lt_ge_cases (significant x) 0) as [H|H].
  - pose proof (round_negate (negate x) Down p) as Hneg.
    rewrite negate_involutive in Hneg. cbn [mirror] in Hneg. rewrite Hneg.
    pose proof (toQ_round_down_nonnegative (negate x) p ltac:(cbn; lia)) as Hb.
    apply (Qbetween0_scale _ _ (- (1))) in Hb.
    eapply Qbetween0_comp; [| | exact Hb]; rewrite !toQ_negate; ring.
  - apply toQ_round_down_nonnegative. exact H.
Qed.

(** With exact arithmetic on exponents.
    For a divisor that is not zero, [remainder] is the dividend minus the
    integral quotient times the divisor, exactly, and lies between zero and
    the dividend: it is never of the sign opposite to the dividend, and it is
    negative for some operands, as for -7 and 2. *)
Lemma remainder_follows_dividend_ideal (a b : BigDecimal) :
  significant b <> 0 ->
  exists q r,
    divideToIntegralValue a b = Ok q /\
    remainder a b = Ok r /\
    r = subtract a (multiply q b) /\
    (toQ r == toQ a - toQ q * toQ b)%Q /\
    Qbetween0 (toQ r) (toQ a) /\
    0 <= significant r * significant a /\
    remainder (mk (-7) 0) (mk 2 0) = Ok (mk (-1) 0).
Proof.
  intros Hb. destruct (divide_nonzero_divisor a b Hb) as [q0 Hq0].
  exists (round q0 Down 0), (subtract a (multiply (round q0 Down 0) b)).
  assert (Hdti : divideToIntegralValue a b = Ok (round q0 Down 0))
    by (unfold divideToIntegralValue; rewrite Hq0; reflexivity).
  assert (Hval : (toQ (subtract a (multiply (round q0 Down 0) b))
                  == toQ a - toQ (round q0 Down 0) * toQ b)%Q)
    by (rewrite toQ_subtract, toQ_multiply; reflexivity).
  assert (Hbt : Qbetween0 (toQ (subtract a (multiply (round q0 Down 0) b)))
                          (toQ a)).
  { eapply Qbetween0_comp; [symmetry; exact Hval | reflexivity |].
    apply Qbetween0_flip.
    eapply Qbetween0_trans; [|apply (toQ_divide_between a b q0 Hq0)].
    apply Qbetween0_scale, toQ_round_down. }
  split; [exact Hdti|].
  split; [unfold remainder; rewrite Hdti; reflexivity|].
  split; [reflexivity|]. split; [exact Hval|]. split; [exact Hbt|].
  split; [apply Qbetween0_sign; exact Hbt | vm_compute; reflexivity].
Qed.

(** ** Square root of zero *)

Lemma add_zero_significants (a b : BigDecimal) :
  significant a = 0 -> significant b = 0 -> add a b = mk 0 0.
Proof.
  intros Ha Hb. apply (normal_unique (add a b) (mk 0 0)).
  - unfold add. destruct (Z.lt_ge_cases (exponent a) (exponent b)) as [H|H].
    + rewrite add_exchanged, add_aligned by lia. apply normalized_is_normal.
    + rewrite add_aligned by lia. apply normalized_is_normal.
  - split; cbn; intros; first [contradiction | reflexivity].
  - rewrite toQ_add, (toQ_zero a Ha), (toQ_zero b Hb).
    rewrite (toQ_zero (mk 0 0)) by reflexivity. ring.
Qed.

Lemma multiply_zero_significant (a b : BigDecimal) :
  significant a = 0 -> multiply a b = mk 0 0.
Proof. intros Ha. unfold multiply. rewrite Ha. apply normalized_zero. cbn. lia. Qed.

(** The first Newton step on a zero operand and a zero guess divides zero
    by zero. *)
Lemma sqrt_loop_zero (rounds : nat) (x : BigDecimal) :
  significant x = 0 ->
  sqrt_loop (S rounds) x (mk 0 0) = Err DivisionUndefined.
Proof.
  intros Hx. cbn [sqrt_loop].
  rewrite (multiply_zero_significant (mk 0 0) (mk 0 0)) by reflexivity.
  unfold subtract.
  rewrite (add_zero_significants (mk 0 0) (negate x))
    by (cbn; first [reflexivity | lia]).
  rewrite (add_zero_significants (mk 0 0) (mk 0 0)) by reflexivity.
  reflexivity.
Qed.

(** [sqrt] does not fail with DivisionUndefined on every zero value:
    [new BigDecimal(0n, 309).sqrt()] fails on the [NaN] that
    [0 * 10 ** 309] is. *)
Lemma sqrt_zero_overflow :
  ~ (forall (nativeSeed : BigDecimal -> result BigDecimal) (x : BigDecimal),
       (toQ x == 0)%Q -> sqrt nativeSeed x = Err DivisionUndefined).
Proof.
  intros H.
  specialize (H (fun _ => Ok ONE) (mk 0 309) (toQ_zero (mk 0 309) eq_refl)).
  vm_compute in H. discriminate.
Qed.

(** C10.  [sqrt] of a zero value fails: with DivisionUndefined
    when the exponent is at most 308, as for ZERO and every normalized zero,
    where the first Newton step divides zero by zero; and with the error of a
    non-finite number when the exponent is larger.  [sqrt] returns a result
    only for an operand with a positive significant. *)
Theorem sqrt_zero_fails (nativeSeed : BigDecimal -> result BigDecimal)
  (x : BigDecimal) :
  ((toQ x == 0)%Q -> exponent x <= 308 ->
     sqrt nativeSeed x = Err DivisionUndefined) /\
  ((toQ x == 0)%Q -> 308 < exponent x ->
     sqrt nativeSeed x = Err InvalidOperand) /\
  ((toQ x == 0)%Q -> sqrt nativeSeed (normalized x) = Err DivisionUndefined) /\
  sqrt nativeSeed ZERO = Err DivisionUndefined /\
  (forall r, sqrt nativeSeed x = Ok r -> 0 < significant x).
Proof.
  assert (Hzero : forall y, significant y = 0 -> exponent y <= 308 ->
                    sqrt nativeSeed y = Err DivisionUndefined).
  { intros y Hy He. unfold sqrt, sqrtSeed. rewrite Hy. cbn [Z.ltb Z.eqb Z.compare].
    destruct (Z.leb_spec (exponent y) 308); [|lia].
    cbn [bind]. unfold SQRT_ROUNDS. rewrite sqrt_loop_zero by exact Hy.
    reflexivity. }
  assert (Hover : forall y, significant y = 0 -> 308 < exponent y ->
                    sqrt nativeSeed y = Err InvalidOperand).
  { intros y Hy He. unfold sqrt, sqrtSeed. rewrite Hy. cbn [Z.ltb Z.eqb Z.compare].
    destruct (Z.leb_spec (exponent y) 308); [lia | reflexivity]. }
  rewrite toQ_zero_iff.
  split; [apply Hzero|]. split; [apply Hover|]. split; [|split].
  - intros Hx. rewrite (normalized_zero x Hx). apply Hzero; cbn; lia.
  - apply Hzero; cbn; lia.
  - intros r Hr.
    destruct (Z.lt_trichotomy (significant x) 0) as [H|[H|H]]; [| |exact H].
    + unfold sqrt in Hr. destruct (Z.ltb_spec (significant x) 0); [|lia].
      discriminate.
    + destruct (Z.le_gt_cases (exponent x) 308) as [He|He].
      * rewrite (Hzero x H He) in Hr. discriminate.
      * rewrite (Hover x H He) in Hr. discriminate.
Qed.

Lemma sqrt_zero_fails_witness :
  sqrt (fun _ => Ok ONE) (mk 0 5) = Err DivisionUndefined.
Proof.
  refine (proj1 (sqrt_zero_fails (fun _ => Ok ONE) (mk 0 5)) _ _).
  - reflexivity.
  - cbn. lia.
Defined.

(** ** Strings *)

#[local] Open Scope string_scope.

Lemma digits_app (u rest : string) :
  allDigits u = true ->
  match rest with
  | EmptyString => True
  | String c _ => isDigit c = false
  end ->
  digits (u ++ rest) = (u, rest).
Proof.
  unfold allDigits. intros Hu Hrest.
  induction u as [|c u IH]; cbn [append digits].
  - destruct rest as [|c rest]; [reflexivity|]. cbn [digits].
    rewrite Hrest. reflexivity.
  - cbn [allDigits allChars] in Hu. apply andb_prop in Hu as [Hc Hu].
    rewrite Hc, (IH Hu). reflexivity.
Qed.

Lemma digits_all (u : string) : allDigits u = true -> digits u = (u, "").
Proof.
  unfold allDigits. intros Hu.
  induction u as [|c u IH]; cbn [digits]; [reflexivity|].
  cbn [allDigits allChars] in Hu. apply andb_prop in Hu as [Hc Hu].
  rewrite Hc, (IH Hu). reflexivity.
Qed.

Lemma digitValue_bounds (c : ascii) :
  isDigit c = true -> (0 <= digitValue c <= 9)%Z.
Proof.
  unfold isDigit, digitValue. intros H. apply andb_prop in H as [H1 H2].
  apply Nat.leb_le in H1, H2. lia.
Qed.

Lemma parseDigits_nonneg (s : string) :
  forall acc, allDigits s = true -> (0 <= acc)%Z -> (0 <= parseDigits acc s)%Z.
Proof.
  unfold allDigits.
  induction s as [|c s IH]; intros acc Hs Hacc; cbn [parseDigits].
  - exact Hacc.
  - cbn [allDigits allChars] in Hs. apply andb_prop in Hs as [Hc Hs].
    apply IH; [exact Hs|]. pose proof (digitValue_bounds c Hc). lia.
Qed.

Lemma parseInteger_digits (s : string) :
  allDigits s = true -> parseInteger s = parseDigits 0 s.
Proof.
  unfold allDigits.
  destruct s as [|c s]; [reflexivity|]. cbn [allChars]. intros H.
  apply andb_prop in H as [Hc _].
  destruct c as [[] [] [] [] [] [] [] []];
    first [reflexivity | discriminate Hc].
Qed.

(** The groups that the pattern captures in ["-" ++ U ++ "." ++ F]. *)
Lemma pattern_exec_negative_fraction (U F : string) :
  U <> "" -> F <> "" -> allDigits U = true -> allDigits F = true ->
  pattern_exec ("-" ++ U ++ "." ++ F) = Some ("-" ++ U, Some F, None).
Proof.
  intros HU HF HdU HdF. unfold pattern_exec, signedDigits.
  cbn [append]. rewrite (digits_app U (String "." F) HdU) by reflexivity.
  destruct U as [|c U]; [contradiction|]. cbn [append].
  rewrite (digits_all F HdF).
  destruct F as [|c' F]; [contradiction | reflexivity].
Qed.

#[local] Close Scope string_scope.

Lemma toQ_scaleByPowerOfTen_zero (x : BigDecimal) :
  (toQ (scaleByPowerOfTen x 0) == toQ x)%Q.
Proof.
  unfold scaleByPowerOfTen. rewrite toQ_normalized, Z.add_0_r.
  destruct x; reflexivity.
Qed.

(** C4.  For a string ["-" ++ U ++ "." ++ F] the value read is
    the negation of [U + 0.F] when the unit part [U] is not zero, and it is
    [0.F], with the sign lost, when [U] is zero: [BigInt("-0")] is [0n], its
    [signum] is 0, and the fraction is not negated.  So "-2.5" reads as -2.5
    and "-0.5" reads as 0.5. *)
Theorem valueOf_negative_fraction (U F : string) :
  U <> EmptyString -> F <> EmptyString ->
  allDigits U = true -> allDigits F = true ->
  exists v,
    valueOfString ("-" ++ U ++ "." ++ F) = Ok v /\
    (parseDigits 0 U <> 0 ->
       (toQ v == - (inject_Z (parseDigits 0 U)
                    + toQ (mk (parseDigits 0 F) (- Z.of_nat (String.length F)))))%Q) /\
    (parseDigits 0 U = 0 ->
       (toQ v == toQ (mk (parseDigits 0 F) (- Z.of_nat (String.length F))))%Q) /\
    valueOfString "-2.5" = Ok (mk (-25) (-1)) /\
    valueOfString "-0.5" = Ok (mk 5 (-1)).
Proof.
  intros HU HF HdU HdF. unfold valueOfString.
  rewrite (pattern_exec_negative_fraction U F HU HF HdU HdF).
  eexists. split; [reflexivity|].
  assert (Hparse : parseInteger ("-" ++ U) = - parseDigits 0 U) by reflexivity.
  rewrite Hparse, (parseInteger_digits F HdF).
  pose proof (parseDigits_nonneg U 0 HdU ltac:(lia)) as Hu.
  set (u := parseDigits 0 U) in *.
  set (f := mk (parseDigits 0 F) (- Z.of_nat (String.length F))).
  assert (Hunits : (toQ (mk (- u) 0) == - inject_Z u)%Q)
    by (rewrite toQ_integer, inject_Z_opp; reflexivity).
  split; [|split; [|split; vm_compute; reflexivity]].
  - intros Hnz. destruct (signum_negative (mk (- u) 0)) as [-> _];
      [cbn; lia|]. cbn [Z.eqb Pos.eqb].
    rewrite toQ_normalized, toQ_scaleByPowerOfTen_zero, toQ_add, toQ_negate.
    rewrite Hunits. ring.
  - intros Hz. rewrite Hz. cbn [Z.opp signum significant Z.ltb Z.eqb Z.compare].
    rewrite toQ_normalized, toQ_scaleByPowerOfTen_zero, toQ_add.
    rewrite (toQ_zero (mk 0 0)) by reflexivity. ring.
Qed.

Lemma valueOf_negative_fraction_witness :
  exists v,
    valueOfString "-0.5" = Ok v /\
    (parseDigits 0 "0" <> 0 ->
       (toQ v == - (inject_Z (parseDigits 0 "0")
                    + toQ (mk (parseDigits 0 "5") (- Z.of_nat (String.length "5")))))%Q) /\
    (parseDigits 0 "0" = 0 ->
       (toQ v == toQ (mk (parseDigits 0 "5") (- Z.of_nat (String.length "5"))))%Q) /\
    valueOfString "-2.5" = Ok (mk (-25) (-1)) /\
    valueOfString "-0.5" = Ok (mk 5 (-1)).
Proof.
  apply (valueOf_negative_fraction "0" "5");
    first [discriminate | reflexivity].
Defined.

#[local] Open Scope string_scope.

Lemma allChars_app (p : ascii -> bool) (a b : string) :
  allChars p (a ++ b) = allChars p a && allChars p b.
Proof.
  induction a as [|c a IH]; cbn [append allChars]; [reflexivity|].
  rewrite IH. apply andb_assoc.
Qed.

Lemma allChars_weaken (p q : ascii -> bool) (s : string) :
  (forall c, p c = true -> q c = true) ->
  allChars p s = true -> allChars q s = true.
Proof.
  intros Hpq. induction s as [|c s IH]; cbn [allChars]; [reflexivity|].
  intros H. apply andb_prop in H as [Hc Hs].
  rewrite (Hpq c Hc), (IH Hs). reflexivity.
Qed.

Lemma allChars_substring (p : ascii -> bool) (s : string) :
  forall n m, allChars p s = true -> allChars p (substring n m s) = true.
Proof.
  induction s as [|c s IH]; intros n m H.
  - destruct n, m; reflexivity.
  - cbn [allChars] in H. apply andb_prop in H as [Hc Hs].
    destruct n as [|n]; [destruct m as [|m]|]; cbn [substring allChars].
    + reflexivity.
    + rewrite Hc, (IH 0%nat m Hs). reflexivity.
    + apply IH. exact Hs.
Qed.

Lemma allChars_replace_minus (p : ascii -> bool) (s : string) :
  allChars p s = true -> allChars p (replace_minus s) = true.
Proof.
  induction s as [|c s IH]; cbn [replace_minus allChars]; [reflexivity|].
  intros H. apply andb_prop in H as [Hc Hs].
  destruct (c =? "-")%char; [exact Hs|].
  cbn [allChars]. rewrite Hc, (IH Hs). reflexivity.
Qed.

Lemma allChars_zeros (n : nat) : allChars isDigit (zeros n) = true.
Proof. induction n as [|n IH]; cbn [zeros allChars]; [reflexivity | exact IH]. Qed.

Lemma string_of_uint_digits (d : Decimal.uint) :
  allChars isDigit (NilEmpty.string_of_uint d) = true.
Proof.
  induction d; cbn [NilEmpty.string_of_uint allChars];
    first [reflexivity | exact IHd].
Qed.

Lemma NilZero_string_of_uint_digits (d : Decimal.uint) :
  allChars isDigit (NilZero.string_of_uint d) = true.
Proof.
  destruct d; try apply string_of_uint_digits. reflexivity.
Qed.

Lemma BigInt_toString_digits (n : Z) :
  (0 <= n)%Z -> allDigits (BigInt_toString n) = true.
Proof.
  intros Hn. unfold allDigits, BigInt_toString.
  destruct n as [|p|p]; [reflexivity | | lia].
  apply NilZero_string_of_uint_digits.
Qed.

Lemma isDigit_isPlain (c : ascii) : isDigit c = true -> isPlain c = true.
Proof. intros H. unfold isPlain. rewrite H. reflexivity. Qed.

Lemma BigInt_toString_plain (n : Z) :
  allChars isPlain (BigInt_toString n) = true.
Proof.
  unfold BigInt_toString. destruct n as [|p|p]; [reflexivity | |];
    cbn [Z.to_int NilZero.string_of_int allChars].
  - apply (allChars_weaken isDigit); [apply isDigit_isPlain|].
    apply NilZero_string_of_uint_digits.
  - apply (allChars_weaken isDigit); [apply isDigit_isPlain|].
    apply NilZero_string_of_uint_digits.
Qed.

Lemma replace_minus_digits (s : string) :
  allDigits s = true -> replace_minus s = s.
Proof.
  unfold allDigits.
  induction s as [|c s IH]; cbn [replace_minus allChars]; [reflexivity|].
  intros H. apply andb_prop in H as [Hc Hs].
  destruct (Ascii.eqb_spec c "-") as [->|_]; [discriminate Hc|].
  rewrite (IH Hs). reflexivity.
Qed.

Lemma substring_whole (s : string) : substring 0 (String.length s) s = s.
Proof.
  induction s as [|c s IH]; cbn [String.length substring]; [reflexivity|].
  rewrite IH. reflexivity.
Qed.

Lemma substring_nothing (s : string) : substring 0 0 s = "".
Proof. destruct s; reflexivity. Qed.

(** Every character [toString] prints is a digit, the sign or the point. *)
Lemma toString_plain (x : BigDecimal) : allChars isPlain (toString x) = true.
Proof.
  unfold toString.
  assert (Hsign : allChars isPlain
                    (if (significant x <? 0)%Z then "-" else "") = true)
    by (destruct (significant x <? 0)%Z; reflexivity).
  assert (Hnum : allChars isPlain
                   (replace_minus (BigInt_toString (significant x))) = true)
    by apply allChars_replace_minus, BigInt_toString_plain.
  set (sign := if (significant x <? 0)%Z then "-" else "") in *.
  set (numbers := replace_minus (BigInt_toString (significant x))) in *.
  destruct (exponent x >? 0)%Z; [|destruct (exponent x =? 0)%Z].
  - unfold padEnd. rewrite !allChars_app, Hsign, Hnum.
    apply (allChars_weaken isDigit); [apply isDigit_isPlain|].
    apply allChars_zeros.
  - rewrite allChars_app, Hsign, Hnum. reflexivity.
  - unfold js_substring. rewrite !allChars_app, Hsign.
    rewrite !allChars_substring by exact Hnum. reflexivity.
Qed.

(** Below magnitude one: when the significant has no more digits than the
    exponent moves the point, [toString] prints the point and the digits of
    the significant, and nothing else. *)
Lemma toString_fraction (m e : Z) :
  (0 < m)%Z -> (e < 0)%Z ->
  (Z.of_nat (String.length (BigInt_toString m)) <= - e)%Z ->
  toString (mk m e) = "." ++ BigInt_toString m.
Proof.
  intros Hm He Hlen. unfold toString. cbn [significant exponent].
  destruct (Z.ltb_spec m 0); [lia|].
  destruct (Z.gtb_spec e 0); [lia|].
  destruct (Z.eqb_spec e 0); [lia|].
  rewrite (replace_minus_digits _ (BigInt_toString_digits m ltac:(lia))).
  set (numbers := BigInt_toString m) in *.
  unfold js_substring.
  set (len := Z.of_nat (String.length numbers)) in *.
  assert (Hlen0 : (0 <= len)%Z) by (unfold len; lia).
  repeat match goal with
    | |- context [Z.max ?a ?b] =>
        first [rewrite (Z.max_l a b) by lia | rewrite (Z.max_r a b) by lia]
    | |- context [Z.min ?a ?b] =>
        first [rewrite (Z.min_l a b) by lia | rewrite (Z.min_r a b) by lia]
    end.
  rewrite ?Z.sub_0_r, ?Z.sub_diag. cbn [Z.to_nat].
  rewrite ?substring_nothing.
  unfold len. rewrite Nat2Z.id, substring_whole. reflexivity.
Qed.

#[local] Close Scope string_scope.

(** C5.  [toString] always prints plain notation: digits, a
    sign and a point, also for a value read from scientific notation.
    "10.325" and "-2.2" are printed as they were read.  Below magnitude one
    the round trip fails: [toString] prints neither the zero before the point
    nor the zeros after it, so "0.5", "0.05" and "-0.05" all come back as
    ".5". *)
Theorem toString_round_trip (x : BigDecimal) (m e : Z) :
  allChars isPlain (toString x) = true /\
  (0 < m -> e < 0 ->
   Z.of_nat (String.length (BigInt_toString m)) <= - e ->
   toString (mk m e) = ("." ++ BigInt_toString m)%string) /\
  fmap toString (valueOfString "10.325") = Ok "10.325"%string /\
  fmap toString (valueOfString "-2.2") = Ok "-2.2"%string /\
  fmap toString (valueOfString "1.3e2") = Ok "130"%string /\
  fmap toString (valueOfString "0.5") = Ok ".5"%string /\
  fmap toString (valueOfString "0.05") = Ok ".5"%string /\
  fmap toString (valueOfString "-0.05") = Ok ".5"%string.
Proof.
  split; [apply toString_plain|]. split; [apply toString_fraction|].
  repeat split; vm_compute; reflexivity.
Qed.

Lemma toString_round_trip_witness :
  toString (mk 5 (-2)) = ".5"%string.
Proof.
  refine (proj1 (proj2 (toString_round_trip ZERO 5 (-2))) _ _ _).
  - lia.
  - lia.
  - vm_compute. discriminate.
Defined.

(** * Further properties of the class *)

(** ** Sums and products are exact and normalized *)

Lemma add_is_normal (a b : BigDecimal) : is_normal (add a b).
Proof.
  unfold add. destruct (Z.lt_ge_cases (exponent a) (exponent b)) as [H|H].
  - rewrite add_exchanged, add_aligned by lia. apply normalized_is_normal.
  - rewrite add_aligned by lia. apply normalized_is_normal.
Qed.

Lemma multiply_is_normal (a b : BigDecimal) : is_normal (multiply a b).
Proof. apply normalized_is_normal. Qed.

(** Two results of [add] or [multiply] are the same object, component by
    component, as soon as they stand for the same number. *)
Ltac by_value :=
  apply normal_unique;
  [ first [apply add_is_normal | apply multiply_is_normal
          | apply normalized_is_normal]
  | first [apply add_is_normal | apply multiply_is_normal
          | apply normalized_is_normal]
  | rewrite ?toQ_add, ?toQ_multiply, ?toQ_normalized, ?toQ_negate,
            ?toQ_add, ?toQ_multiply, ?toQ_normalized, ?toQ_negate ].

(** With exact arithmetic on exponents.
    [add] returns the exact sum, in normal form: nothing is rounded, and
    [subtract] returns the exact difference. *)
Lemma add_subtract_exact_ideal (a b : BigDecimal) :
  (toQ (add a b) == toQ a + toQ b)%Q /\
  (toQ (subtract a b) == toQ a - toQ b)%Q /\
  add a b = normalized (add a b) /\
  subtract a b = normalized (subtract a b).
Proof.
  split; [apply toQ_add|]. split; [apply toQ_subtract|].
  split; symmetry; apply normalized_of_normal, add_is_normal.
Qed.

(** With exact arithmetic on exponents.
    [add] is commutative and associative on the nose: the two sides are
    the same significant and the same exponent, not only the same value.
    Zero is neutral up to normalization; a value and its negation add up to
    [new BigDecimal(0n, 0)], and so does a value subtracted from itself,
    whatever the exponents. *)
Lemma add_group_laws_ideal (a b c : BigDecimal) :
  add a b = add b a /\
  add (add a b) c = add a (add b c) /\
  add a ZERO = normalized a /\
  add ZERO a = normalized a /\
  add a (negate a) = ZERO /\
  subtract a a = ZERO.
Proof.
  assert (H0 : (toQ ZERO == 0)%Q) by reflexivity.
  assert (Hn : is_normal ZERO) by (split; cbn; intros; lia).
  split; [|split; [|split; [|split; [|split]]]].
  - by_value. ring.
  - by_value. ring.
  - by_value. rewrite H0. ring.
  - by_value. rewrite H0. ring.
  - apply normal_unique; [apply add_is_normal | exact Hn |].
    rewrite toQ_add, toQ_negate, H0. ring.
  - apply normal_unique; [apply add_is_normal | exact Hn |].
    unfold subtract. rewrite toQ_add, toQ_negate, H0. ring.
Qed.

(** With exact arithmetic on exponents.
    [multiply] returns the exact product in normal form; it is
    commutative and associative on the nose, and it distributes over [add].
    One is neutral up to normalization, and a product with a zero operand is
    [new BigDecimal(0n, 0)] whatever the exponents. *)
Lemma multiply_ring_laws_ideal (a b c z : BigDecimal) :
  (toQ (multiply a b) == toQ a * toQ b)%Q /\
  multiply a b = normalized (multiply a b) /\
  multiply a b = multiply b a /\
  multiply (multiply a b) c = multiply a (multiply b c) /\
  multiply a (add b c) = add (multiply a b) (multiply a c) /\
  multiply a ONE = normalized a /\
  multiply ONE a = normalized a /\
  (significant z = 0 -> multiply a z = ZERO /\ multiply z a = ZERO).
Proof.
  assert (H1 : (toQ ONE == 1)%Q) by reflexivity.
  split; [apply toQ_multiply|].
  split; [symmetry; apply normalized_of_normal, multiply_is_normal|].
  split; [|split; [|split; [|split; [|split]]]].
  - by_value. ring.
  - by_value. ring.
  - by_value. ring.
  - by_value. rewrite H1. ring.
  - by_value. rewrite H1. ring.
  - intros Hz. split; unfold multiply; rewrite Hz, ?Z.mul_0_r, ?Z.mul_0_l;
      apply normalized_zero; reflexivity.
Qed.

(** ** Negation, absolute value and sign *)

Lemma negate_is_normal (x : BigDecimal) : is_normal x -> is_normal (negate x).
Proof.
  intros [Hrem Hzero]. split; cbn [negate significant exponent].
  - intros Hnz. rewrite Z.rem_opp_l by lia.
    assert (Z.rem (significant x) 10 <> 0) by (apply Hrem; lia). lia.
  - intros Hz. apply Hzero. lia.
Qed.

(** X4. [negate] is an involution, it changes the sign of the value, and it
    maps normal forms to normal forms: the method needs no normalization,
    and negating before or after normalizing gives the same object. *)
Theorem negate_involution_normal (x : BigDecimal) :
  negate (negate x) = x /\
  (toQ (negate x) == - toQ x)%Q /\
  (is_normal x -> is_normal (negate x)) /\
  normalized (negate x) = negate (normalized x).
Proof.
  split; [apply negate_involutive|]. split; [apply toQ_negate|].
  split; [apply negate_is_normal | apply normalized_negate].
Qed.

Lemma negate_involution_normal_witness : is_normal (negate (mk 125 (-2))).
Proof.
  refine (proj1 (proj2 (proj2 (negate_involution_normal (mk 125 (-2))))) _).
  split; cbn; intros; [discriminate | lia].
Defined.

Lemma abs_negative (x : BigDecimal) :
  significant x < 0 -> abs x = negate x.
Proof.
  intros H. unfold abs. destruct (Z.ltb_spec (significant x) 0); [reflexivity | lia].
Qed.

Lemma abs_nonnegative (x : BigDecimal) : 0 <= significant x -> abs x = x.
Proof.
  intros H. unfold abs. destruct (Z.ltb_spec (significant x) 0); [lia | reflexivity].
Qed.

(** X5. [abs] returns the absolute value: its significant is never negative,
    it agrees on a value and its negation, and applying it twice changes
    nothing. *)
Theorem abs_absolute_value (x : BigDecimal) :
  (toQ (abs x) == Qabs (toQ x))%Q /\
  0 <= significant (abs x) /\
  abs (negate x) = abs x /\
  abs (abs x) = abs x.
Proof.
  destruct (Z.lt_trichotomy (significant x) 0) as [H|[H|H]].
  - rewrite (abs_negative x H).
    rewrite (abs_nonnegative (negate x)) by (cbn; lia).
    split; [|split; [cbn; lia | split; reflexivity]].
    rewrite toQ_negate. symmetry. apply Qabs_neg, toQ_nonpos. lia.
  - rewrite (abs_nonnegative x) by lia.
    rewrite (abs_nonnegative (negate x)) by (cbn; lia).
    split; [|split; [lia | split; [|apply abs_nonnegative; lia]]].
    + symmetry. apply Qabs_pos, toQ_nonneg. lia.
    + destruct x as [m e]. cbn in *. subst m. reflexivity.
  - rewrite (abs_nonnegative x) by lia.
    rewrite (abs_negative (negate x)) by (cbn; lia).
    split; [|split; [lia | split; [apply negate_involutive|]]].
    + symmetry. apply Qabs_pos, toQ_nonneg. lia.
    + apply abs_nonnegative. lia.
Qed.

(** X6. [signum] is the sign of the value; it is odd under [negate],
    multiplicative under [multiply], and unchanged by [normalized]. *)
Theorem signum_sign (a b : BigDecimal) :
  signum a = Z.sgn (significant a) /\
  (signum a = 1 <-> (0 < toQ a)%Q) /\
  (signum a = 0 <-> (toQ a == 0)%Q) /\
  (signum a = -1 <-> (toQ a < 0)%Q) /\
  signum (negate a) = - signum a /\
  signum (normalized a) = signum a /\
  signum (multiply a b) = signum a * signum b.
Proof.
  assert (Hsgn : forall x, signum x = Z.sgn (significant x)).
  { intros x. unfold signum.
    destruct (Z.ltb_spec (significant x) 0);
      [|destruct (Z.eqb_spec (significant x) 0)]; lia. }
  destruct (toQ_sign a) as (Hpos & Hneg & Hzero).
  split; [apply Hsgn|].
  split; [rewrite (Hsgn a), Hpos; apply Z.sgn_pos_iff|].
  split; [rewrite (Hsgn a), Hzero; apply Z.sgn_null_iff|].
  split; [rewrite (Hsgn a), Hneg; apply Z.sgn_neg_iff|].
  split; [|split].
  - rewrite !Hsgn. cbn [negate significant]. apply Z.sgn_opp.
  - rewrite !Hsgn. apply normalized_sgn.
  - rewrite !Hsgn. unfold multiply. rewrite normalized_sgn.
    apply Z.sgn_mul.
Qed.

Lemma signum_sign_witness : signum (mk (-3) 2) = -1.
Proof.
  refine (proj2 (proj1 (proj2 (proj2 (proj2
    (signum_sign (mk (-3) 2) ONE))))) _).
  reflexivity.
Defined.

(** ** Powers of ten and powers *)

Lemma scaleByPowerOfTen_is_normal (x : BigDecimal) (e : Z) :
  is_normal (scaleByPowerOfTen x e).
Proof. apply normalized_is_normal. Qed.

Lemma toQ_scaleByPowerOfTen (x : BigDecimal) (e : Z) :
  (toQ (scaleByPowerOfTen x e) == toQ x * (10 # 1) ^ e)%Q.
Proof.
  unfold scaleByPowerOfTen. rewrite toQ_normalized. unfold toQ.
  cbn [significant exponent]. rewrite pow10Q_add. ring.
Qed.

(** With exact arithmetic on exponents.
    [scaleByPowerOfTen] multiplies the value by the power of ten and
    normalizes; scaling twice is scaling by the sum, so that scaling by [e]
    and then by [-e] gives the normal form back. *)
Lemma scaleByPowerOfTen_exact_ideal (x : BigDecimal) (e1 e2 : Z) :
  (toQ (scaleByPowerOfTen x e1) == toQ x * (10 # 1) ^ e1)%Q /\
  scaleByPowerOfTen (scaleByPowerOfTen x e1) e2 = scaleByPowerOfTen x (e1 + e2) /\
  scaleByPowerOfTen (scaleByPowerOfTen x e1) (- e1) = normalized x /\
  scaleByPowerOfTen x 0 = normalized x.
Proof.
  split; [apply toQ_scaleByPowerOfTen|]. split; [|split].
  - apply normal_unique; try apply scaleByPowerOfTen_is_normal.
    rewrite !toQ_scaleByPowerOfTen, pow10Q_add. ring.
  - apply normal_unique;
      [apply scaleByPowerOfTen_is_normal | apply normalized_is_normal |].
    rewrite !toQ_scaleByPowerOfTen, toQ_normalized.
    rewrite <- Qmult_assoc, <- pow10Q_add, Z.add_opp_diag_r. cbn. ring.
  - apply normal_unique;
      [apply scaleByPowerOfTen_is_normal | apply normalized_is_normal |].
    rewrite toQ_scaleByPowerOfTen, toQ_normalized. cbn. ring.
Qed.

Lemma toQ_pow (x : BigDecimal) (e : Z) :
  0 <= e ->
  (toQ (normalized (mk (significant x ^ e) (exponent x * e))) == toQ x ^ e)%Q.
Proof.
  intros He. rewrite toQ_normalized. unfold toQ. cbn [significant exponent].
  rewrite Qmult_power, Zpower_Qpower by exact He.
  rewrite Qpower_mult. reflexivity.
Qed.

(** With exact arithmetic on exponents.
    [pow] fails exactly on a negative exponent.  Otherwise it returns
    the exact power in normal form; the power of a sum of exponents is the
    product of the powers, and exponent zero gives one, also for a zero
    base. *)
Lemma pow_exact_ideal (x : BigDecimal) (e1 e2 : Z) :
  (pow x e1 = Err InvalidOperand <-> e1 < 0) /\
  (0 <= e1 ->
     exists r, pow x e1 = Ok r /\ (toQ r == toQ x ^ e1)%Q /\ is_normal r) /\
  (0 <= e1 -> 0 <= e2 ->
     (p1 <- pow x e1 ;; p2 <- pow x e2 ;; Ok (multiply p1 p2))%result
     = pow x (e1 + e2)) /\
  pow x 0 = Ok ONE.
Proof.
  split; [|split; [|split]].
  - unfold pow. destruct (Z.ltb_spec e1 0); split; intros;
      first [reflexivity | assumption | discriminate | lia].
  - intros He. unfold pow. destruct (Z.ltb_spec e1 0); [lia|].
    eexists. split; [reflexivity|].
    split; [apply toQ_pow; exact He | apply normalized_is_normal].
  - intros He1 He2. unfold pow.
    destruct (Z.ltb_spec e1 0); [lia|]. destruct (Z.ltb_spec e2 0); [lia|].
    destruct (Z.ltb_spec (e1 + e2) 0); [lia|]. cbn [bind]. f_equal.
    apply normal_unique;
      [apply multiply_is_normal | apply normalized_is_normal |].
    rewrite toQ_multiply, !toQ_pow by lia.
    destruct (Qeq_dec (toQ x) 0) as [Hz|Hnz].
    + apply toQ_zero_iff in Hz. unfold toQ. rewrite Hz.
      destruct (Z.eq_dec e1 0) as [->|]; [|destruct (Z.eq_dec e2 0) as [->|]].
      * rewrite Z.add_0_l. rewrite Qpower_0_r. ring.
      * rewrite Z.add_0_r. rewrite Qpower_0_r. ring.
      * rewrite !Qmult_0_l, !Qpower_0 by lia. ring.
    + rewrite Qpower_plus by exact Hnz. reflexivity.
  - unfold pow. cbn [Z.ltb Z.compare]. rewrite Z.pow_0_r, Z.mul_0_r.
    reflexivity.
Qed.

(** ** Normal forms and equality of values *)

(** With exact arithmetic on exponents.
    [normalized] does not change the value or the sign; on a nonzero
    significant it only moves factors of ten from the significant to the
    exponent, so the exponent does not decrease and the significant does
    not grow. *)
Lemma normalized_preserves_value_ideal (x : BigDecimal) :
  (toQ (normalized x) == toQ x)%Q /\
  Z.sgn (significant (normalized x)) = Z.sgn (significant x) /\
  Z.abs (significant (normalized x)) <= Z.abs (significant x) /\
  (significant x <> 0 ->
     exponent x <= exponent (normalized x) /\
     significant x
     = significant (normalized x)
       * 10 ^ (exponent (normalized x) - exponent x)).
Proof.
  split; [apply toQ_normalized|]. split; [apply normalized_sgn|].
  destruct (Z.eq_dec (significant x) 0) as [Hz|Hnz].
  - rewrite (normalized_zero x Hz). cbn. split; [lia | contradiction].
  - destruct (normalized_shape x Hnz) as (k & Hk & He & Hm & _).
    pose proof (Z.pow_pos_nonneg 10 k ltac:(lia) Hk) as Hp.
    split; [|intros _; split; [lia|]].
    + pose proof (f_equal Z.abs Hm) as Habs.
      rewrite Z.abs_mul, (Z.abs_eq (10 ^ k)) in Habs by lia. nia.
    + replace (exponent (normalized x) - exponent x) with k by lia. exact Hm.
Qed.

(** With exact arithmetic on exponents.
    [equalValue] decides equality of the values: it holds exactly when
    the two operands stand for the same number.  It is an equivalence, it is
    implied by [equals], and it does not see normalization. *)
Lemma equalValue_numeric_ideal (x y z : BigDecimal) :
  (equalValue x y = true <-> (toQ x == toQ y)%Q) /\
  equalValue x x = true /\
  equalValue x y = equalValue y x /\
  (equalValue x y = true -> equalValue y z = true -> equalValue x z = true) /\
  (equals x y = true -> equalValue x y = true) /\
  equalValue (normalized x) x = true.
Proof.
  split; [apply equalValue_iff|]. split; [apply equalValue_iff; reflexivity|].
  split; [|split; [|split]].
  - unfold equalValue, equals. rewrite (Z.eqb_sym (significant _)).
    rewrite (Z.eqb_sym (exponent _)). reflexivity.
  - rewrite !equalValue_iff. intros H1 H2. rewrite H1. exact H2.
  - rewrite equals_iff, equalValue_iff. intros ->. reflexivity.
  - apply equalValue_iff, toQ_normalized.
Qed.

(** ** Comparison *)

Lemma toQ_compare_aligned (m1 m2 e : Z) :
  (toQ (mk m1 e) ?= toQ (mk m2 e))%Q = (m1 ?= m2).
Proof.
  pose proof (pow10Q_pos e) as Hp. rewrite !toQ_mk.
  destruct (Z.compare_spec m1 m2) as [Heq|Hlt|Hgt].
  - subst. apply Qeq_alt. reflexivity.
  - apply Qlt_alt. apply Qmult_lt_compat_r; [exact Hp|].
    rewrite <- Zlt_Qlt. exact Hlt.
  - apply Qgt_alt. apply Qmult_lt_compat_r; [exact Hp|].
    rewrite <- Zlt_Qlt. exact Hgt.
Qed.

(** One call of [compareTo] on normal forms whose exponents are in the
    order it works on. *)
Lemma compareTo_aligned (d : nat) (a b : BigDecimal) :
  exponent (normalized b) <= exponent (normalized a) ->
  compareTo_at (S d) a b =
  match (toQ a ?= toQ b)%Q with
  | Lt => -1
  | Eq => 0
  | Gt => 1
  end.
Proof.
  intros Hle. cbn [compareTo_at].
  rewrite <- (Qcompare_comp _ _ (toQ_normalized a) _ _ (toQ_normalized b)).
  destruct (normalized a) as [m1 e1], (normalized b) as [m2 e2].
  cbn [significant exponent] in *.
  destruct (Z.ltb_spec (e1 - e2) 0); [lia|].
  assert (Hshift : (toQ (mk m1 e1) == toQ (mk (m1 * 10 ^ (e1 - e2)) e2))%Q).
  { rewrite toQ_shift by lia. replace (e2 + (e1 - e2)) with e1 by lia.
    reflexivity. }
  rewrite (Qcompare_comp _ _ Hshift _ _ (Qeq_refl _)).
  rewrite toQ_compare_aligned.
  destruct (Z.compare_spec (m1 * 10 ^ (e1 - e2)) m2) as [Heq|Hlt|Hgt].
  - destruct (Z.ltb_spec (m1 * 10 ^ (e1 - e2)) m2); [lia|].
    destruct (Z.eqb_spec (m1 * 10 ^ (e1 - e2)) m2); [reflexivity | lia].
  - destruct (Z.ltb_spec (m1 * 10 ^ (e1 - e2)) m2); [reflexivity | lia].
  - destruct (Z.ltb_spec (m1 * 10 ^ (e1 - e2)) m2); [lia|].
    destruct (Z.eqb_spec (m1 * 10 ^ (e1 - e2)) m2); [lia | reflexivity].
Qed.

Lemma compareTo_exchanged (d : nat) (a b : BigDecimal) :
  exponent (normalized a) < exponent (normalized b) ->
  compareTo_at (S (S d)) a b = - compareTo_at 1 (normalized b) (normalized a).
Proof.
  intros Hlt. cbn [compareTo_at]. rewrite !normalized_idempotent.
  destruct (Z.ltb_spec (exponent (normalized a) - exponent (normalized b)) 0);
    [|lia].
  destruct (Z.ltb_spec (exponent (normalized b) - exponent (normalized a)) 0);
    [lia | reflexivity].
Qed.

Lemma compareTo_depth (d : nat) (a b : BigDecimal) :
  compareTo_at (S (S d)) a b = compareTo a b.
Proof.
  unfold compareTo.
  destruct (Z.lt_ge_cases (exponent (normalized a)) (exponent (normalized b)))
    as [H|H].
  - rewrite !compareTo_exchanged by exact H. reflexivity.
  - rewrite !compareTo_aligned by lia. reflexivity.
Qed.

Lemma compareTo_spec (a b : BigDecimal) :
  compareTo a b =
  match (toQ a ?= toQ b)%Q with
  | Lt => -1
  | Eq => 0
  | Gt => 1
  end.
Proof.
  unfold compareTo.
  destruct (Z.lt_ge_cases (exponent (normalized a)) (exponent (normalized b)))
    as [H|H].
  - rewrite compareTo_exchanged by exact H.
    rewrite compareTo_aligned by (rewrite !normalized_idempotent; lia).
    rewrite (Qcompare_comp _ _ (toQ_normalized b) _ _ (toQ_normalized a)).
    rewrite <- (Qcompare_antisym (toQ a) (toQ b)).
    destruct (toQ a ?= toQ b)%Q; reflexivity.
  - apply compareTo_aligned. lia.
Qed.

(** With exact arithmetic on exponents.
    [compareTo] is the three-way comparison of the values: -1, 0 or 1
    as the value of [this] is below, equal to or above the value of [other],
    whatever the representations; exchanging the operands negates it, and it
    returns 0 exactly when [equalValue] holds. *)
Lemma compareTo_order_ideal (a b : BigDecimal) :
  (compareTo a b = -1 <-> (toQ a < toQ b)%Q) /\
  (compareTo a b = 0 <-> (toQ a == toQ b)%Q) /\
  (compareTo a b = 1 <-> (toQ b < toQ a)%Q) /\
  compareTo b a = - compareTo a b /\
  (compareTo a b = 0 <-> equalValue a b = true).
Proof.
  rewrite equalValue_iff, (compareTo_spec b a), (compareTo_spec a b).
  rewrite <- (Qcompare_antisym (toQ a) (toQ b)).
  rewrite Qlt_alt, Qeq_alt, (Qgt_alt (toQ a) (toQ b)).
  destruct (toQ a ?= toQ b)%Q; cbn [CompOpp];
    repeat split; intros; first [reflexivity | discriminate | lia].
Qed.

(** With exact arithmetic on exponents.
    [min] and [max] return one of their two operands, as it is, without
    normalizing it: [min] one whose value is not above the other's, [max]
    one whose value is not below; on a tie both return [this]. *)
Lemma min_max_select_ideal (a b : BigDecimal) :
  (min a b = a \/ min a b = b) /\
  (max a b = a \/ max a b = b) /\
  (toQ (min a b) <= toQ a /\ toQ (min a b) <= toQ b)%Q /\
  (toQ a <= toQ (max a b) /\ toQ b <= toQ (max a b))%Q /\
  ((toQ a == toQ b)%Q -> min a b = a /\ max a b = a).
Proof.
  unfold min, max. rewrite (compareTo_spec a b).
  destruct (toQ a ?= toQ b)%Q eqn:Hc; cbn [Z.leb Z.geb Z.compare].
  - apply Qeq_alt in Hc. repeat split; try (left; reflexivity); lra.
  - apply Qlt_alt in Hc.
    repeat split; try (left; reflexivity); try (right; reflexivity); lra.
  - apply Qgt_alt in Hc.
    repeat split; try (left; reflexivity); try (right; reflexivity); lra.
Qed.

(** ** Division *)

Lemma divide_is_normal (a b q : BigDecimal) :
  divide a b = Ok q -> is_normal q.
Proof.
  unfold divide. destruct (significant b =? 0);
    [destruct (significant a =? 0); discriminate|].
  destruct (significant a =? 0).
  - intros H. injection H as <-. split; cbn; intros; lia.
  - destruct (divide_loop 10 (significant a) (exponent a) (significant b)).
    intros H. injection H as <-. apply normalized_is_normal.
Qed.

(** X13. A nonzero value divided by itself is one.  Dividing by a power of
    ten written [new BigDecimal(1n, e)] is [scaleByPowerOfTen] by [-e], so
    that dividing by ONE normalizes. *)
Theorem divide_self_and_power_of_ten (x : BigDecimal) (e : Z) :
  (significant x <> 0 -> divide x x = Ok ONE) /\
  divide x (mk 1 e) = Ok (scaleByPowerOfTen x (- e)) /\
  divide x ONE = Ok (normalized x).
Proof.
  assert (Hten : forall e', divide x (mk 1 e') = Ok (scaleByPowerOfTen x (- e'))).
  { intros e'. unfold divide, scaleByPowerOfTen. cbn [significant exponent Z.eqb].
    destruct (Z.eqb_spec (significant x) 0) as [Hz|Hnz].
    - rewrite normalized_zero by exact Hz. reflexivity.
    - cbn [divide_loop]. rewrite Z.rem_1_r. cbn [Z.eqb].
      rewrite Z.quot_1_r. reflexivity. }
  split; [|split; [apply Hten|]].
  - intros Hnz. unfold divide. apply Z.eqb_neq in Hnz as Hb. rewrite Hb.
    cbn [divide_loop]. rewrite Z.rem_same by exact Hnz. cbn [Z.eqb].
    rewrite Z.quot_same by exact Hnz. rewrite Z.sub_diag. reflexivity.
  - change ONE with (mk 1 0). rewrite (Hten 0). unfold scaleByPowerOfTen. cbn [Z.opp].
    rewrite Z.add_0_r. destruct x; reflexivity.
Qed.

Lemma divide_self_and_power_of_ten_witness :
  divide (mk (-75) (-2)) (mk (-75) (-2)) = Ok ONE.
Proof.
  refine (proj1 (divide_self_and_power_of_ten (mk (-75) (-2)) 0) _).
  cbn. discriminate.
Defined.

Lemma divide_loop_negate_dividend (budget : nat) :
  forall m e d, d <> 0 ->
    divide_loop budget (- m) e d =
    (- fst (divide_loop budget m e d), snd (divide_loop budget m e d)).
Proof.
  induction budget as [|budget IH]; intros m e d Hd; cbn [divide_loop].
  - reflexivity.
  - rewrite Z.rem_opp_l by exact Hd.
    destruct (Z.eqb_spec (Z.rem m d) 0) as [Hr|Hr].
    + rewrite Hr. reflexivity.
    + destruct (Z.eqb_spec (- Z.rem m d) 0); [lia|].
      rewrite Z.mul_opp_l. apply IH. exact Hd.
Qed.

Lemma divide_loop_negate_divisor (budget : nat) :
  forall m e d, d <> 0 ->
    divide_loop budget m e (- d) = divide_loop budget m e d.
Proof.
  induction budget as [|budget IH]; intros m e d Hd; cbn [divide_loop].
  - reflexivity.
  - rewrite Z.rem_opp_r by exact Hd.
    destruct (Z.rem m d =? 0); [reflexivity | apply IH; exact Hd].
Qed.

(** X14. [divide] is odd in each operand: negating the dividend or the
    divisor negates the quotient, digit for digit, and leaves the error
    cases as they are. *)
Theorem divide_negate (a b : BigDecimal) :
  divide (negate a) b = fmap negate (divide a b) /\
  divide a (negate b) = fmap negate (divide a b).
Proof.
  unfold divide. cbn [negate significant exponent].
  destruct (Z.eqb_spec (significant b) 0) as [Hb|Hb].
  - rewrite Hb. cbn [Z.opp Z.eqb].
    destruct (Z.eqb_spec (significant a) 0) as [Ha|Ha].
    + rewrite Ha. split; reflexivity.
    + destruct (Z.eqb_spec (- significant a) 0); [lia|]. split; reflexivity.
  - destruct (Z.eqb_spec (- significant b) 0); [lia|].
    destruct (Z.eqb_spec (significant a) 0) as [Ha|Ha].
    + rewrite Ha. split; reflexivity.
    + destruct (Z.eqb_spec (- significant a) 0); [lia|].
      rewrite divide_loop_negate_dividend by exact Hb.
      rewrite divide_loop_negate_divisor by exact Hb.
      destruct (divide_loop 10 (significant a) (exponent a) (significant b))
        as [m' e'].
      cbn [fst snd fmap bind].
      rewrite Z.quot_opp_l, Z.quot_opp_r by exact Hb.
      split; f_equal; rewrite <- normalized_negate; reflexivity.
Qed.

(** With exact arithmetic on exponents.
    A quotient that [divide] returns is in normal form and never
    overshoots: multiplied back by the divisor it lies between zero and the
    dividend, on the dividend's side of zero. *)
Lemma divide_never_overshoots_ideal (a b q : BigDecimal) :
  divide a b = Ok q ->
  is_normal q /\
  Qbetween0 (toQ (multiply q b)) (toQ a) /\
  0 <= significant (multiply q b) * significant a /\
  (Qabs (toQ (multiply q b)) <= Qabs (toQ a))%Q.
Proof.
  intros Hq. pose proof (toQ_divide_between a b q Hq) as Hbt.
  assert (Hm : Qbetween0 (toQ (multiply q b)) (toQ a)).
  { eapply Qbetween0_comp; [symmetry; apply toQ_multiply | reflexivity |].
    exact Hbt. }
  split; [apply (divide_is_normal a b q Hq)|]. split; [exact Hm|].
  split; [apply Qbetween0_sign; exact Hm|].
  destruct Hm as [[H1 H2]|[H1 H2]].
  - rewrite !Qabs_pos by lra. exact H2.
  - rewrite !Qabs_neg by lra. lra.
Qed.

(** ** Rounding: all seven modes *)

(** What a rounding helper returns on a positive operand with digits to
    drop. *)
Lemma round_helper_positive (mode : RoundingMode) (d : nat) (n : BigDecimal)
  (p : Z) :
  0 < significant n -> 0 < - exponent n - p ->
  round_helper mode (S d) n p =
  mk (if increments mode (keptDigits n p) (nextDigit n p)
      then keptDigits n p + 1 else keptDigits n p) (- p).
Proof.
  intros Hm Hk. destruct (signum_positive n Hm) as [Hs _].
  destruct mode; try (apply roundHalfEven_positive; assumption);
    round_unfold; rewrite Hs; cbn [Z.eqb increments];
    unfold keptDigits, nextDigit; rewrite (Z.abs_eq (significant n)) by lia;
    pose proof (Z.pow_pos_nonneg 10 (- exponent n - p) ltac:(lia) ltac:(lia));
    try (destruct (remainder_digit (significant n) (- exponent n - p)
                     ltac:(lia) Hk) as [-> Hdigit]);
    rewrite Z.quot_div_nonneg by lia; try reflexivity.
  - set (digit := (significant n / 10 ^ (- exponent n - p - 1)) mod 10) in *.
    destruct (Z.ltb_spec digit 5), (Z.leb_spec 5 digit);
      first [reflexivity | lia].
  - set (digit := (significant n / 10 ^ (- exponent n - p - 1)) mod 10) in *.
    destruct (Z.leb_spec digit 5), (Z.ltb_spec 5 digit);
      first [reflexivity | lia].
Qed.

Lemma round_by_table_refines (x : BigDecimal) (mode : RoundingMode) (p : Z) :
  round x mode p = round_by_table x mode p.
Proof.
  unfold round, round_by_table. rewrite round_props_helper. cbv zeta.
  set (n := normalized x).
  replace (- exponent n - p <=? 0) with (- exponent n <=? p)
    by (destruct (Z.leb_spec (- exponent n) p),
                 (Z.leb_spec (- exponent n - p) 0); first [reflexivity|lia]).
  destruct (Z.lt_trichotomy (significant n) 0) as [H|[H|H]].
  - destruct (signum_negative n H) as [-> _].
    destruct (Z.eqb_spec (significant n) 0); [lia|]. cbn [Z.eqb].
    destruct (Z.ltb_spec (significant n) 0); [|lia].
    destruct (Z.leb_spec (- exponent n) p) as [|Hk]; [reflexivity|].
    rewrite round_helper_negative by exact H.
    rewrite round_helper_positive by (cbn; lia).
    unfold keptDigits, nextDigit. cbn [negate significant exponent].
    rewrite Z.abs_opp, Z.sgn_neg by exact H.
    unfold negate. cbn [significant exponent]. do 2 f_equal; ring.
  - destruct (signum_zero n H) as [-> _]. rewrite H. reflexivity.
  - destruct (signum_positive n H) as [-> _].
    destruct (Z.eqb_spec (significant n) 0); [lia|]. cbn [Z.eqb].
    destruct (Z.ltb_spec (significant n) 0); [lia|].
    destruct (Z.leb_spec (- exponent n) p) as [|Hk]; [reflexivity|].
    rewrite round_helper_positive by lia.
    rewrite Z.sgn_pos by exact H. do 2 f_equal; ring.
Qed.


(** [ceiling] is [up] on a value that is not negative and [down] on a
    negative one; [floor] is the other way round. *)
Lemma round_ceiling_floor_sign (x : BigDecimal) (p : Z) :
  round x Ceiling p = round x (if significant x <? 0 then Down else Up) p /\
  round x Floor p = round x (if significant x <? 0 then Up else Down) p.
Proof.
  rewrite !round_by_table_refines. unfold round_by_table. cbv zeta.
  pose proof (normalized_sgn x) as Hsgn.
  destruct (Z.ltb_spec (significant x) 0) as [Hx|Hx].
  - assert (Hn : significant (normalized x) < 0).
    { apply Z.sgn_neg_iff. rewrite Hsgn. apply Z.sgn_neg_iff. exact Hx. }
    destruct (Z.ltb_spec (significant (normalized x)) 0); [|lia].
    split; reflexivity.
  - destruct (Z.ltb_spec (significant (normalized x)) 0) as [Hn|Hn].
    + apply Z.sgn_neg_iff in Hn. rewrite Hsgn in Hn.
      apply Z.sgn_neg_iff in Hn. lia.
    + split; reflexivity.
Qed.

(** ** Rounding: what the result is worth *)

Lemma round_unchanged (x : BigDecimal) (mode : RoundingMode) (p : Z) :
  significant (normalized x) = 0 \/ - exponent (normalized x) <= p ->
  round x mode p = normalized x.
Proof.
  intros H. rewrite round_by_table_refines. unfold round_by_table. cbv zeta.
  destruct (Z.eqb_spec (significant (normalized x)) 0) as [Hz|Hnz].
  - destruct (normalized_is_normal x) as [_ He].
    destruct (normalized x) as [m e]. cbn in *. rewrite Hz, (He Hz).
    reflexivity.
  - destruct (Z.leb_spec (- exponent (normalized x)) p); [reflexivity | lia].
Qed.

(** The digits that rounding splits a positive significant into. *)
Lemma rounding_digits (m k : Z) :
  0 < m -> 0 < k -> Z.rem m 10 <> 0 ->
  m = (m / 10 ^ k) * 10 ^ k + m mod 10 ^ k /\
  0 < m mod 10 ^ k < 10 ^ k /\
  ((m / 10 ^ (k - 1)) mod 10) * 10 ^ (k - 1) <= m mod 10 ^ k
    < ((m / 10 ^ (k - 1)) mod 10 + 1) * 10 ^ (k - 1).
Proof.
  intros Hm Hk Hrem.
  assert (Hpow : 10 ^ k = 10 ^ (k - 1) * 10).
  { replace k with (Z.succ (k - 1)) at 1 by lia.
    rewrite Z.pow_succ_r by lia. lia. }
  pose proof (Z.pow_pos_nonneg 10 (k - 1) ltac:(lia) ltac:(lia)) as Hp1.
  pose proof (Z.pow_pos_nonneg 10 k ltac:(lia) ltac:(lia)) as Hpk.
  pose proof (Z.div_mod m (10 ^ k) ltac:(lia)) as Hdm.
  pose proof (Z.mod_pos_bound m (10 ^ k) Hpk) as Hb.
  assert (Hnz : m mod 10 ^ k <> 0).
  { intros Hz. apply Hrem. rewrite Z.rem_mod_nonneg by lia.
    rewrite Hz, Z.add_0_r, Hpow in Hdm.
    rewrite Hdm. replace (10 ^ (k - 1) * 10 * (m / (10 ^ (k - 1) * 10)))
      with ((10 ^ (k - 1) * (m / (10 ^ (k - 1) * 10))) * 10) by ring.
    apply Z.mod_mul. lia. }
  split; [lia|]. split; [lia|].
  assert (Hsplit : m mod 10 ^ k
                   = m mod 10 ^ (k - 1)
                     + 10 ^ (k - 1) * ((m / 10 ^ (k - 1)) mod 10)).
  { rewrite Hpow. apply Z.rem_mul_r; lia. }
  pose proof (Z.mod_pos_bound m (10 ^ (k - 1)) Hp1) as Hb1.
  rewrite Hsplit.
  set (digit := (m / 10 ^ (k - 1)) mod 10) in *. nia.
Qed.

Lemma toQ_diff_aligned (a b e : Z) :
  (toQ (mk a e) - toQ (mk b e) == toQ (mk (a - b) e))%Q.
Proof. rewrite !toQ_mk. unfold Z.sub. rewrite inject_Z_plus, inject_Z_opp. ring. Qed.

Lemma toQ_lt_aligned (a b e : Z) :
  a < b -> (toQ (mk a e) < toQ (mk b e))%Q.
Proof.
  intros H. apply Qlt_alt. rewrite toQ_compare_aligned. exact H.
Qed.

Lemma toQ_power_of_ten (k e : Z) :
  0 <= k -> (toQ (mk (10 ^ k) e) == (10 # 1) ^ (e + k))%Q.
Proof.
  intros Hk. rewrite toQ_mk, pow10Q_of_Z, pow10Q_add by exact Hk. ring.
Qed.

(** The value that [round] returns, on the scale of the normal form of its
    operand: either the operand is returned in normal form, or the result is
    the kept digits, with or without one added, followed by zeros. *)
Lemma round_scaled (x : BigDecimal) (mode : RoundingMode) (p : Z) :
  let n := normalized x in
  let k := - exponent n - p in
  let m := Z.abs (significant n) in
  ((significant n = 0 \/ - exponent n <= p) /\ round x mode p = n) \/
  (0 < m /\ 0 < k /\ Z.rem m 10 <> 0 /\
   exists b,
     b = (if increments (if significant n <? 0 then mirror mode else mode)
                        (m / 10 ^ k) ((m / 10 ^ (k - 1)) mod 10)
          then m / 10 ^ k + 1 else m / 10 ^ k) /\
     round x mode p = normalized (mk (Z.sgn (significant n) * b) (- p)) /\
     (toQ (round x mode p)
      == toQ (mk (Z.sgn (significant n) * (b * 10 ^ k)) (exponent n)))%Q /\
     (toQ x == toQ (mk (Z.sgn (significant n) * m) (exponent n)))%Q).
Proof.
  cbv zeta.
  destruct (Z.eq_dec (significant (normalized x)) 0) as [Hz|Hnz];
    [left; split; [|apply round_unchanged]; left; exact Hz|].
  destruct (Z.le_gt_cases (- exponent (normalized x)) p) as [Hk|Hk];
    [left; split; [|apply round_unchanged]; right; exact Hk|].
  right. destruct (normalized_is_normal x) as [Hrem _].
  rewrite round_by_table_refines. unfold round_by_table. cbv zeta.
  destruct (Z.eqb_spec (significant (normalized x)) 0); [contradiction|].
  destruct (Z.leb_spec (- exponent (normalized x)) p); [lia|].
  unfold keptDigits, nextDigit.
  split; [lia|]. split; [lia|]. split.
  - specialize (Hrem Hnz).
    pose proof (Z.rem_abs (significant (normalized x)) 10 ltac:(lia)) as Ha.
    change (Z.abs 10) with 10 in Ha. lia.
  - eexists. split; [reflexivity|]. split; [reflexivity|]. split.
    + rewrite toQ_normalized.
      rewrite Z.mul_assoc, toQ_shift by lia.
      replace (exponent (normalized x) + (- exponent (normalized x) - p))
        with (- p) by lia. reflexivity.
    + rewrite <- (toQ_normalized x).
      rewrite Z.mul_comm, Z.abs_sgn. destruct (normalized x); reflexivity.
Qed.

Lemma round_is_normal (x : BigDecimal) (mode : RoundingMode) (p : Z) :
  is_normal (round x mode p).
Proof.
  destruct (round_scaled x mode p) as [[_ ->]|(_ & _ & _ & b & _ & -> & _)];
    apply normalized_is_normal.
Qed.

Lemma round_exponent (x : BigDecimal) (mode : RoundingMode) (p : Z) :
  significant (round x mode p) = 0 \/ - p <= exponent (round x mode p).
Proof.
  destruct (round_scaled x mode p) as [[Hc ->]|(_ & _ & _ & b & _ & -> & _)].
  - destruct Hc as [Hz|Hk]; [left; exact Hz | right; lia].
  - set (c := mk _ (- p)).
    destruct (Z.eq_dec (significant c) 0) as [Hz|Hnz].
    + left. rewrite (normalized_zero c Hz). reflexivity.
    + right. destruct (normalized_shape c Hnz) as (k & Hk & He & _).
      rewrite He. cbn. lia.
Qed.

(** X17. The result of [round] is in normal form and has at most [precision]
    fractional digits; rounding it again, in any mode and to the same or a
    larger precision, returns it unchanged. *)
Theorem round_keeps_precision (x : BigDecimal) (mode mode' : RoundingMode)
  (p p' : Z) :
  0 <= p ->
  is_normal (round x mode p) /\
  - p <= exponent (round x mode p) /\
  (p <= p' -> round (round x mode p) mode' p' = round x mode p).
Proof.
  intros Hp. pose proof (round_is_normal x mode p) as Hn.
  pose proof (round_exponent x mode p) as He.
  assert (Hexp : - p <= exponent (round x mode p)).
  { destruct He as [Hz|He]; [|exact He].
    destruct Hn as [_ Hn]. rewrite (Hn Hz). lia. }
  split; [exact Hn|]. split; [exact Hexp|].
  intros Hpp. rewrite round_unchanged;
    rewrite (normalized_of_normal _ Hn); [reflexivity | right; lia].
Qed.

Lemma round_keeps_precision_witness :
  is_normal (round (mk 12345 (-4)) Up 2) /\
  - 2 <= exponent (round (mk 12345 (-4)) Up 2) /\
  (2 <= 3 -> round (round (mk 12345 (-4)) Up 2) Floor 3
             = round (mk 12345 (-4)) Up 2).
Proof.
  apply (round_keeps_precision (mk 12345 (-4)) Up Floor 2 3). lia.
Defined.

(** X18. [round] returns the normal form of its operand exactly when there
    is nothing to drop: the operand is zero, or its normal form has at most
    [precision] fractional digits.  In every other case the result differs
    from it. *)
Theorem round_changes_iff (x : BigDecimal) (mode : RoundingMode) (p : Z) :
  0 <= p ->
  (round x mode p = normalized x <->
   significant (normalized x) = 0 \/ - exponent (normalized x) <= p).
Proof.
  intros Hp. split; [|apply round_unchanged].
  intros Heq. pose proof (round_exponent x mode p) as He.
  rewrite Heq in He. destruct He as [Hz|He]; [left; exact Hz | right; lia].
Qed.

Lemma round_changes_iff_witness :
  round (mk 1500 (-3)) Ceiling 1 = normalized (mk 1500 (-3)).
Proof.
  refine (proj2 (round_changes_iff (mk 1500 (-3)) Ceiling 1 _) _).
  - lia.
  - right. vm_compute. discriminate.
Defined.

Lemma toQ_opp_aligned (a e : Z) : (toQ (mk (- a) e) == - toQ (mk a e))%Q.
Proof. rewrite !toQ_mk, inject_Z_opp. ring. Qed.

Lemma toQ_le_aligned (a b e : Z) :
  a <= b -> (toQ (mk a e) <= toQ (mk b e))%Q.
Proof. apply toQ_mono. Qed.

Lemma toQ_abs_lt_aligned (d u e : Z) :
  Z.abs d < u -> (Qabs (toQ (mk d e)) < toQ (mk u e))%Q.
Proof.
  intros H. apply Qabs_Qlt_condition. rewrite <- toQ_opp_aligned.
  split; apply toQ_lt_aligned; lia.
Qed.

(** With exact arithmetic on exponents.
    In every mode the result of [round] is less than one unit of the
    last kept digit away from the operand. *)
Lemma round_error_below_unit_ideal (x : BigDecimal) (mode : RoundingMode) (p : Z) :
  (Qabs (toQ (round x mode p) - toQ x) < (10 # 1) ^ (- p))%Q.
Proof.
  destruct (round_scaled x mode p)
    as [[_ ->]|(Hm & Hk & Hrem & b & Hb & _ & Hr & Hx)]; cbv zeta in *.
  - rewrite toQ_normalized.
    setoid_replace (toQ x - toQ x)%Q with 0%Q by ring.
    apply pow10Q_pos.
  - rewrite Hr, Hx, toQ_diff_aligned.
    replace (- p)
      with (exponent (normalized x) + (- exponent (normalized x) - p)) by lia.
    rewrite <- toQ_power_of_ten by lia.
    apply toQ_abs_lt_aligned.
    destruct (rounding_digits _ _ Hm Hk Hrem) as (Hsplit & Hfrac & _).
    set (k := - exponent (normalized x) - p) in *.
    set (m := Z.abs (significant (normalized x))) in *.
    set (s := Z.sgn (significant (normalized x))) in *.
    assert (Hs : s = 1 \/ s = -1).
    { unfold s, m in *. destruct (Z.sgn_spec (significant (normalized x)))
        as [[? ->]|[[? ->]|[? ->]]]; lia. }
    rewrite <- Z.mul_sub_distr_l, Z.abs_mul.
    replace (Z.abs s) with 1 by (destruct Hs as [->| ->]; reflexivity).
    destruct (increments _ _ _); subst b; nia.
Qed.

(** The sign and the digits of a value that [round] has to change. *)
Ltac round_digits x p Hm Hk Hrem :=
  let Hsplit := fresh "Hsplit" in
  let Hfrac := fresh "Hfrac" in
  let Hdigit := fresh "Hdigit" in
  let Hs := fresh "Hs" in
  destruct (rounding_digits _ _ Hm Hk Hrem) as (Hsplit & Hfrac & Hdigit);
  pose proof (Z.sgn_spec (significant (normalized x))) as Hs;
  pose proof (Z.pow_pos_nonneg 10 (- exponent (normalized x) - p)
                ltac:(lia) ltac:(lia)).

(** With exact arithmetic on exponents.
    [floor] never returns more than the operand and [ceiling] never
    less, for operands of either sign; the two results are at most one unit
    of the last kept digit apart.  [ceiling] is [up] on a value that is not
    negative and [down] on a negative one; [floor] is the other way round. *)
Lemma floor_ceiling_bracket_ideal (x : BigDecimal) (p : Z) :
  (toQ (round x Floor p) <= toQ x)%Q /\
  (toQ x <= toQ (round x Ceiling p))%Q /\
  (toQ (round x Ceiling p) - toQ (round x Floor p) <= (10 # 1) ^ (- p))%Q /\
  round x Ceiling p = round x (if significant x <? 0 then Down else Up) p /\
  round x Floor p = round x (if significant x <? 0 then Up else Down) p.
Proof.
  assert (Hbracket :
    (toQ (round x Floor p) <= toQ x)%Q /\
    (toQ x <= toQ (round x Ceiling p))%Q /\
    (toQ (round x Ceiling p) - toQ (round x Floor p) <= (10 # 1) ^ (- p))%Q).
  {
  destruct (round_scaled x Floor p)
    as [[Hc Hf]|(Hm & Hk & Hrem & bf & Hbf & _ & Hf & Hx)];
  destruct (round_scaled x Ceiling p)
    as [[Hc' Hcl]|(Hm' & Hk' & _ & bc & Hbc & _ & Hcl & _)]; cbv zeta in *;
    try (exfalso; lia).
  - rewrite Hf, Hcl, toQ_normalized. pose proof (pow10Q_pos (- p)).
    repeat split; lra.
  - rewrite Hf, Hcl, Hx, !toQ_diff_aligned.
    replace (- p)
      with (exponent (normalized x) + (- exponent (normalized x) - p)) by lia.
    rewrite <- toQ_power_of_ten by lia.
    round_digits x p Hm Hk Hrem.
    set (k := - exponent (normalized x) - p) in *.
    set (m := Z.abs (significant (normalized x))) in *.
    cbn [mirror increments] in Hbf, Hbc.
    destruct (Z.ltb_spec (significant (normalized x)) 0) as [Hneg|Hpos];
      subst bf bc; cbn [increments] in *;
      repeat split; apply toQ_le_aligned; nia. }
  destruct Hbracket as (H1 & H2 & H3).
  split; [exact H1|]. split; [exact H2|]. split; [exact H3|].
  apply round_ceiling_floor_sign.
Qed.

(** With exact arithmetic on exponents.
    [down] never moves away from zero and [up] never moves toward it:
    the result of [down] lies between zero and the operand, and the operand
    lies between zero and the result of [up]. *)
Lemma down_up_direction_ideal (x : BigDecimal) (p : Z) :
  Qbetween0 (toQ (round x Down p)) (toQ x) /\
  Qbetween0 (toQ x) (toQ (round x Up p)).
Proof.
  split; [apply toQ_round_down|].
  destruct (round_scaled x Up p)
    as [[_ ->]|(Hm & Hk & Hrem & b & Hb & _ & Hr & Hx)]; cbv zeta in *.
  - eapply Qbetween0_comp;
      [reflexivity | symmetry; apply toQ_normalized | apply Qbetween0_refl].
  - eapply Qbetween0_comp; [symmetry; exact Hx | symmetry; exact Hr |].
    assert (H0 : (toQ (mk 0 (exponent (normalized x))) == 0)%Q)
      by (apply toQ_zero; reflexivity).
    round_digits x p Hm Hk Hrem.
    set (k := - exponent (normalized x) - p) in *.
    set (m := Z.abs (significant (normalized x))) in *.
    replace (if significant (normalized x) <? 0 then mirror Up else Up)
      with Up in Hb by (destruct (significant (normalized x) <? 0); reflexivity).
    cbn [increments] in Hb. subst b.
    destruct (Z.ltb_spec (significant (normalized x)) 0) as [Hneg|Hpos].
    + right. rewrite <- H0. split; apply toQ_le_aligned; nia.
    + left. rewrite <- H0. split; apply toQ_le_aligned; nia.
Qed.

Lemma toQ_abs_le_half_aligned (d u e : Z) :
  2 * Z.abs d <= u -> (Qabs (toQ (mk d e)) <= (1 # 2) * toQ (mk u e))%Q.
Proof.
  intros H. apply Qabs_Qle_condition.
  assert (H1 : (toQ (mk (- u) e) <= toQ (mk (2 * d) e))%Q)
    by (apply toQ_le_aligned; lia).
  assert (H2 : (toQ (mk (2 * d) e) <= toQ (mk u e))%Q)
    by (apply toQ_le_aligned; lia).
  rewrite toQ_opp_aligned in H1.
  assert (H3 : (toQ (mk (2 * d) e) == 2 * toQ (mk d e))%Q)
    by (rewrite !toQ_mk, inject_Z_mult; change (inject_Z 2) with (2 # 1)%Q;
        ring).
  rewrite H3 in H1, H2. split; lra.
Qed.

(** With exact arithmetic on exponents.
    [halfUp] rounds to a nearest value: its result is at most half a
    unit of the last kept digit away from the operand. *)
Lemma halfUp_nearest_ideal (x : BigDecimal) (p : Z) :
  (Qabs (toQ (round x HalfUp p) - toQ x) <= (1 # 2) * (10 # 1) ^ (- p))%Q.
Proof.
  destruct (round_scaled x HalfUp p)
    as [[_ ->]|(Hm & Hk & Hrem & b & Hb & _ & Hr & Hx)]; cbv zeta in *.
  - rewrite toQ_normalized.
    setoid_replace (toQ x - toQ x)%Q with 0%Q by ring.
    pose proof (pow10Q_pos (- p)). cbn [Qabs Z.abs Qnum Qden]. lra.
  - rewrite Hr, Hx, toQ_diff_aligned.
    replace (- p)
      with (exponent (normalized x) + (- exponent (normalized x) - p)) by lia.
    rewrite <- toQ_power_of_ten by lia.
    apply toQ_abs_le_half_aligned.
    round_digits x p Hm Hk Hrem.
    assert (Hpow : 10 ^ (- exponent (normalized x) - p)
                   = 10 ^ (- exponent (normalized x) - p - 1) * 10).
    { replace (- exponent (normalized x) - p)
        with (Z.succ (- exponent (normalized x) - p - 1)) at 1 by lia.
      rewrite Z.pow_succ_r by lia. lia. }
    pose proof (Z.pow_pos_nonneg 10 (- exponent (normalized x) - p - 1)
                  ltac:(lia) ltac:(lia)).
    set (k := - exponent (normalized x) - p) in *.
    set (m := Z.abs (significant (normalized x))) in *.
    set (digit := (m / 10 ^ (k - 1)) mod 10) in *.
    set (pk1 := 10 ^ (k - 1)) in *.
    replace (if significant (normalized x) <? 0 then mirror HalfUp else HalfUp)
      with HalfUp in Hb
      by (destruct (significant (normalized x) <? 0); reflexivity).
    cbn [increments] in Hb.
    rewrite <- Z.mul_sub_distr_l, Z.abs_mul.
    replace (Z.abs (Z.sgn (significant (normalized x)))) with 1 by lia.
    destruct (Z.leb_spec 5 digit); subst b; nia.
Qed.

(** X23. The three half modes differ only on a tie digit: when the digit
    that follows the kept ones is not 5, [halfUp], [halfDown] and [halfEven]
    return the same result. *)
Theorem half_modes_agree (x : BigDecimal) (p : Z) :
  nextDigit (normalized x) p <> 5 ->
  round x HalfUp p = round x HalfEven p /\
  round x HalfDown p = round x HalfEven p.
Proof.
  intros Hd. rewrite !round_by_table_refines. unfold round_by_table.
  cbv zeta.
  replace (if significant (normalized x) <? 0 then mirror HalfUp else HalfUp)
    with HalfUp by (destruct (significant (normalized x) <? 0); reflexivity).
  replace (if significant (normalized x) <? 0 then mirror HalfDown else HalfDown)
    with HalfDown by (destruct (significant (normalized x) <? 0); reflexivity).
  replace (if significant (normalized x) <? 0 then mirror HalfEven else HalfEven)
    with HalfEven by (destruct (significant (normalized x) <? 0); reflexivity).
  cbn [increments]. unfold halfEven_increments.
  set (digit := nextDigit (normalized x) p) in *.
  destruct (Z.leb_spec 5 digit), (Z.ltb_spec 5 digit), (Z.eqb_spec digit 5);
    try lia; split; reflexivity.
Qed.

Lemma half_modes_agree_witness :
  round (mk 2163 (-3)) HalfUp 1 = round (mk 2163 (-3)) HalfEven 1 /\
  round (mk 2163 (-3)) HalfDown 1 = round (mk 2163 (-3)) HalfEven 1.
Proof.
  refine (half_modes_agree (mk 2163 (-3)) 1 _). vm_compute. discriminate.
Defined.

(** ** Integral part, integral quotient and remainder *)

Lemma integralPart_is_integer (x : BigDecimal) :
  0 <= exponent (integralPart x).
Proof.
  assert (Hpos : forall y, 0 <= significant y -> 0 <= exponent (integralPart y)).
  { intros y Hy. rewrite (integralPart_nonnegative y Hy).
    destruct (Z.geb_spec (exponent (normalized y)) 0); cbn; lia. }
  destruct (Z.lt_ge_cases (significant x) 0) as [H|H].
  - rewrite (integralPart_negative x H). cbn [negate exponent].
    apply Hpos. cbn. lia.
  - apply Hpos. exact H.
Qed.

Lemma decimalPart_below_one (x : BigDecimal) :
  (Qabs (toQ (decimalPart x)) < 1)%Q.
Proof.
  assert (Hpos : forall y, 0 <= significant y ->
                   (Qabs (toQ (decimalPart y)) < 1)%Q).
  { intros y Hy. rewrite (decimalPart_nonnegative y Hy).
    destruct (Z.geb_spec (exponent (normalized y)) 0) as [He|He];
      [reflexivity|].
    set (e := exponent (normalized y)) in *.
    assert (Hone : (toQ (mk (10 ^ (- e)) e) == 1)%Q).
    { rewrite toQ_power_of_ten by lia. rewrite Z.add_opp_diag_r.
      reflexivity. }
    rewrite <- Hone. apply toQ_abs_lt_aligned.
    pose proof (Z.pow_pos_nonneg 10 (- e) ltac:(lia) ltac:(lia)) as Hp.
    pose proof (Z.rem_bound_abs (significant (normalized y)) (10 ^ (- e))
                  ltac:(lia)). lia. }
  destruct (Z.lt_ge_cases (significant x) 0) as [H|H].
  - rewrite (decimalPart_negative x H), toQ_negate, Qabs_opp.
    apply Hpos. cbn. lia.
  - apply Hpos. exact H.
Qed.

(** X24. The integral part is a whole number, written with an exponent that
    is not negative, and the decimal part is smaller than one in absolute
    value.  A value whose normal form has no fractional digits is its own
    integral part, in normal form, and its decimal part is ZERO. *)
Theorem integral_decimal_shape (x : BigDecimal) :
  0 <= exponent (integralPart x) /\
  (Qabs (toQ (decimalPart x)) < 1)%Q /\
  (0 <= exponent (normalized x) ->
     integralPart x = normalized x /\ decimalPart x = ZERO).
Proof.
  split; [apply integralPart_is_integer|].
  split; [apply decimalPart_below_one|].
  intros He.
  destruct (Z.lt_ge_cases (significant x) 0) as [H|H].
  - rewrite (integralPart_negative x H), (decimalPart_negative x H).
    rewrite integralPart_nonnegative, decimalPart_nonnegative by (cbn; lia).
    rewrite normalized_negate. cbn [negate exponent].
    destruct (Z.geb_spec (exponent (normalized x)) 0); [|lia].
    split; [apply negate_involutive | reflexivity].
  - rewrite integralPart_nonnegative, decimalPart_nonnegative by exact H.
    destruct (Z.geb_spec (exponent (normalized x)) 0); [|lia].
    split; reflexivity.
Qed.

Lemma integral_decimal_shape_witness :
  integralPart (mk (-1200) (-2)) = normalized (mk (-1200) (-2)) /\
  decimalPart (mk (-1200) (-2)) = ZERO.
Proof.
  refine (proj2 (proj2 (integral_decimal_shape (mk (-1200) (-2)))) _).
  vm_compute. discriminate.
Defined.

Lemma round_down_zero_nonnegative (x : BigDecimal) :
  0 <= significant x -> round x Down 0 = normalized (integralPart x).
Proof.
  intros Hx. rewrite round_by_table_refines, (integralPart_nonnegative x Hx).
  unfold round_by_table. cbv zeta.
  pose proof (normalized_sgn x) as Hsgn.
  assert (Hn : 0 <= significant (normalized x)).
  { apply Z.sgn_nonneg. rewrite Hsgn. apply Z.sgn_nonneg. exact Hx. }
  destruct (normalized_is_normal x) as [_ Hzero].
  destruct (Z.eqb_spec (significant (normalized x)) 0) as [Hz|Hnz].
  - rewrite (Hzero Hz). cbn [Z.geb Z.compare].
    rewrite normalized_idempotent. apply normalized_zero in Hz.
    rewrite normalized_idempotent in Hz. symmetry. exact Hz.
  - destruct (Z.leb_spec (- exponent (normalized x)) 0) as [Hk|Hk];
      destruct (Z.geb_spec (exponent (normalized x)) 0) as [He|He];
      try lia.
    + symmetry. apply normalized_idempotent.
    + destruct (Z.ltb_spec (significant (normalized x)) 0); [lia|].
      cbn [increments]. unfold keptDigits.
      rewrite Z.sgn_pos, Z.mul_1_l, Z.abs_eq, Z.sub_0_r by lia.
      rewrite Z.quot_div_nonneg; [reflexivity | lia |].
      apply Z.pow_pos_nonneg; lia.
Qed.

Lemma round_down_zero (x : BigDecimal) :
  round x Down 0 = normalized (integralPart x).
Proof.
  destruct (Z.lt_ge_cases (significant x) 0) as [H|H].
  - pose proof (round_negate (negate x) Down 0) as Hneg.
    rewrite negate_involutive in Hneg. cbn [mirror] in Hneg. rewrite Hneg.
    rewrite round_down_zero_nonnegative by (cbn; lia).
    rewrite (integralPart_negative x H). symmetry. apply normalized_negate.
  - apply round_down_zero_nonnegative. exact H.
Qed.

(** With exact arithmetic on exponents.
    Rounding down to precision zero is taking the integral part, up to
    normalization; so [divideToIntegralValue] is [divide] followed by
    [integralPart], and its result is a whole number. *)
Lemma divideToIntegralValue_integralPart_ideal (a b x : BigDecimal) :
  round x Down 0 = normalized (integralPart x) /\
  (toQ (round x Down 0) == inject_Z (Qtruncate (toQ x)))%Q /\
  divideToIntegralValue a b
  = fmap (fun q => normalized (integralPart q)) (divide a b) /\
  (forall t, divideToIntegralValue a b = Ok t -> 0 <= exponent t).
Proof.
  split; [apply round_down_zero|].
  split; [rewrite round_down_zero, toQ_normalized; apply toQ_integralPart|].
  assert (Hdti : divideToIntegralValue a b
                 = fmap (fun q => normalized (integralPart q)) (divide a b)).
  { unfold divideToIntegralValue, fmap.
    destruct (divide a b); cbn [bind]; [|reflexivity].
    rewrite round_down_zero. reflexivity. }
  split; [exact Hdti|].
  intros t Ht. rewrite Hdti in Ht. unfold fmap in Ht.
  destruct (divide a b) as [q|]; cbn [bind] in Ht; [|discriminate].
  injection Ht as <-.
  pose proof (integralPart_is_integer q) as Hi.
  destruct (Z.eq_dec (significant (integralPart q)) 0) as [Hz|Hnz].
  - rewrite (normalized_zero _ Hz). cbn. lia.
  - destruct (normalized_shape _ Hnz) as (k & Hk & He & _). lia.
Qed.

Lemma Qtruncate_comp (x y : Q) : (x == y)%Q -> Qtruncate x = Qtruncate y.
Proof.
  intros H. unfold Qtruncate.
  rewrite (Qleb_comp 0%Q 0%Q (Qeq_refl 0%Q) x y H).
  rewrite (Qfloor_comp x y H), (Qceiling_comp x y H). reflexivity.
Qed.

Lemma Qtruncate_integer (z : Z) : Qtruncate (inject_Z z) = z.
Proof.
  unfold Qtruncate. rewrite Qfloor_Z, Qceiling_Z.
  destruct (Qle_bool 0 (inject_Z z)); reflexivity.
Qed.

Lemma Qtruncate_fraction (m d : Z) :
  0 < d -> Qtruncate (inject_Z m / inject_Z d) = Z.quot m d.
Proof.
  intros Hd. unfold Qtruncate.
  assert (Hdq : (0 < inject_Z d)%Q) by (change (inject_Z 0 < inject_Z d)%Q; rewrite <- Zlt_Qlt; exact Hd).
  assert (Hinv : (0 < / inject_Z d)%Q) by (apply Qinv_lt_0_compat; exact Hdq).
  destruct (Z.lt_ge_cases m 0) as [Hm|Hm].
  - assert (Hmq : (inject_Z m < 0)%Q) by (change (inject_Z m < inject_Z 0)%Q; rewrite <- Zlt_Qlt; exact Hm).
    assert (Hneg : (inject_Z m / inject_Z d < 0)%Q) by (unfold Qdiv; nra).
    destruct (Qle_bool 0 (inject_Z m / inject_Z d)) eqn:Hb.
    + apply Qle_bool_iff in Hb. lra.
    + unfold Qceiling.
      assert (Hopp : (- (inject_Z m / inject_Z d)
                      == inject_Z (- m) / inject_Z d)%Q)
        by (rewrite inject_Z_opp; unfold Qdiv; ring).
      rewrite (Qfloor_comp _ _ Hopp), <- Zdiv_Qdiv.
      rewrite <- Z.quot_div_nonneg by lia.
      rewrite Z.quot_opp_l by lia. lia.
  - assert (Hmq : (0 <= inject_Z m)%Q) by (change (inject_Z 0 <= inject_Z m)%Q; rewrite <- Zle_Qle; exact Hm).
    assert (Hpos : (0 <= inject_Z m / inject_Z d)%Q) by (unfold Qdiv; nra).
    apply Qle_bool_iff in Hpos. rewrite Hpos.
    rewrite <- Zdiv_Qdiv. symmetry. apply Z.quot_div_nonneg; lia.
Qed.

Lemma toQ_scale_integer (t x e : Z) :
  (inject_Z t * toQ (mk x e) == toQ (mk (t * x) e))%Q.
Proof. rewrite !toQ_mk, inject_Z_mult. ring. Qed.

(** The remainder on the scale on which its size is read: with [q0] the
    quotient of the significants after [k] scalings and [r0] what that
    division leaves, the remainder is [r0] when the quotient has no
    fractional digits, and otherwise the fractional digits of [q0] times the
    divisor's significant, plus [r0]. *)
Lemma remainder_scaled (a b r : BigDecimal) (k : Z) :
  0 <= k -> significant b <> 0 ->
  divide a b =
  Ok (normalized (mk (Z.quot (significant a * 10 ^ k) (significant b))
                     (exponent a - k - exponent b))) ->
  remainder a b = Ok r ->
  let q0 := Z.quot (significant a * 10 ^ k) (significant b) in
  let r0 := Z.rem (significant a * 10 ^ k) (significant b) in
  let E := exponent a - k - exponent b in
  (0 <= E -> (toQ r == toQ (mk r0 (exponent a - k)))%Q) /\
  (E < 0 ->
     (toQ r == toQ (mk (Z.rem q0 (10 ^ (- E)) * significant b + r0)
                       (exponent a - k)))%Q /\
     (toQ b == toQ (mk (significant b * 10 ^ (- E)) (exponent a - k)))%Q).
Proof.
  intros Hk Hb Hdiv Hrem. cbv zeta.
  set (q0 := Z.quot (significant a * 10 ^ k) (significant b)) in *.
  set (r0 := Z.rem (significant a * 10 ^ k) (significant b)) in *.
  set (E := exponent a - k - exponent b) in *.
  unfold remainder, divideToIntegralValue in Hrem. rewrite Hdiv in Hrem.
  cbn [bind] in Hrem. injection Hrem as <-.
  rewrite toQ_subtract, toQ_multiply, round_down_zero, toQ_normalized.
  rewrite toQ_integralPart.
  rewrite (Qtruncate_comp _ _ (toQ_normalized (mk q0 E))).
  assert (Ha : (toQ a == toQ (mk (significant b * q0 + r0) (exponent a - k)))%Q).
  { unfold q0, r0. rewrite <- Z.quot_rem'. rewrite toQ_shift by exact Hk.
    replace (exponent a - k + k) with (exponent a) by lia.
    destruct a; reflexivity. }
  split; intros HE.
  - rewrite (Qtruncate_comp _ _ (toQ_integer_nonneg q0 E HE)).
    rewrite Qtruncate_integer.
    assert (Hbq : (inject_Z (q0 * 10 ^ E) * toQ b
                   == toQ (mk (q0 * significant b) (exponent a - k)))%Q).
    { replace (exponent a - k) with (exponent b + E) by (unfold E; lia).
      rewrite <- toQ_shift by exact HE.
      unfold toQ. cbn [significant exponent]. rewrite !inject_Z_mult. ring. }
    rewrite Ha, Hbq, toQ_diff_aligned.
    replace (significant b * q0 + r0 - q0 * significant b) with r0 by ring.
    reflexivity.
  - pose proof (Z.pow_pos_nonneg 10 (- E) ltac:(lia) ltac:(lia)) as Hp.
    assert (Hbq : (toQ b
                   == toQ (mk (significant b * 10 ^ (- E)) (exponent a - k)))%Q).
    { rewrite toQ_shift by lia.
      replace (exponent a - k + - E) with (exponent b) by (unfold E; lia).
      destruct b; reflexivity. }
    split; [|exact Hbq].
    rewrite (Qtruncate_comp _ _ (toQ_fraction q0 E HE)).
    rewrite Qtruncate_fraction by exact Hp.
    rewrite Ha, Hbq, toQ_scale_integer, toQ_diff_aligned.
    pose proof (Z.quot_rem' q0 (10 ^ (- E))) as Hq0.
    set (T := Z.quot q0 (10 ^ (- E))) in *.
    set (s := Z.rem q0 (10 ^ (- E))) in *.
    replace (significant b * q0 + r0 - T * (significant b * 10 ^ (- E)))
      with (s * significant b + r0) by (rewrite Hq0; ring).
    reflexivity.
Qed.

Lemma Qabs_toQ (m e : Z) :
  (Qabs (toQ (mk m e)) == toQ (mk (Z.abs m) e))%Q.
Proof.
  rewrite !toQ_mk, Qabs_Qmult.
  rewrite (Qabs_pos ((10 # 1) ^ e)) by (apply Qlt_le_weak, pow10Q_pos).
  reflexivity.
Qed.

Lemma Qabs_lt_aligned (x y : BigDecimal) (mx my e : Z) :
  (toQ x == toQ (mk mx e))%Q -> (toQ y == toQ (mk my e))%Q ->
  Z.abs mx < Z.abs my -> (Qabs (toQ x) < Qabs (toQ y))%Q.
Proof.
  intros Hx Hy Hlt. rewrite Hx, Hy, (Qabs_toQ my e).
  apply toQ_abs_lt_aligned. exact Hlt.
Qed.

(** With exact arithmetic on exponents.
    When the exponent of the dividend exceeds that of the divisor by at
    most ten, the remainder is smaller than the divisor in absolute value.
    Beyond that it need not be: the quotient is then cut off above the
    units, and the remainder of 1e11 by 3 is 10. *)
Lemma remainder_below_divisor_ideal (a b r : BigDecimal) :
  significant b <> 0 ->
  exponent a - exponent b <= 10 ->
  remainder a b = Ok r ->
  (Qabs (toQ r) < Qabs (toQ b))%Q /\
  remainder (mk 1 11) (mk 3 0) = Ok (mk 1 1).
Proof.
  intros Hb Hexp Hrem. split; [|vm_compute; reflexivity].
  destruct (Z.eq_dec (significant a) 0) as [Ha|Ha].
  - unfold remainder, divideToIntegralValue, divide in Hrem.
    apply Z.eqb_neq in Hb as Hb'. rewrite Hb', Ha in Hrem.
    cbn [Z.eqb bind] in Hrem. injection Hrem as <-.
    apply (Qabs_lt_aligned _ _ 0 (significant b) (exponent b));
      [| destruct b; reflexivity | lia].
    rewrite toQ_subtract, toQ_multiply, (toQ_zero a Ha).
    assert (H0 : (toQ (round (mk 0 0) Down 0) == 0)%Q) by reflexivity.
    rewrite H0, (toQ_zero (mk 0 _)) by reflexivity. ring.
  - destruct (divide_nonzero a b Ha Hb) as (k & Hk & _ & Hstop & Hdiv).
    destruct (remainder_scaled a b r k ltac:(lia) Hb Hdiv Hrem)
      as [Hint Hfrac]; cbv zeta in *.
    destruct (rem_between (significant a * 10 ^ k) (significant b) Hb)
      as [_ Hr0].
    set (q0 := Z.quot (significant a * 10 ^ k) (significant b)) in *.
    set (r0 := Z.rem (significant a * 10 ^ k) (significant b)) in *.
    set (E := exponent a - k - exponent b) in *.
    destruct (Z.lt_ge_cases E 0) as [HE|HE].
    + destruct (Hfrac HE) as [Hr Hbq].
      pose proof (Z.pow_pos_nonneg 10 (- E) ltac:(lia) ltac:(lia)) as Hp.
      pose proof (Z.rem_bound_abs q0 (10 ^ (- E)) ltac:(lia)) as Hs.
      rewrite (Z.abs_eq (10 ^ (- E))) in Hs by lia.
      apply (Qabs_lt_aligned _ _ _ _ _ Hr Hbq).
      set (s := Z.rem q0 (10 ^ (- E))) in *.
      pose proof (Z.abs_triangle (s * significant b) r0) as Htri.
      rewrite Z.abs_mul in Htri.
      rewrite Z.abs_mul, (Z.abs_eq (10 ^ (- E))) by lia. nia.
    + specialize (Hint HE).
      destruct (Z.eq_dec k 10) as [Hk10|Hk10].
      * assert (HE0 : E = 0) by (unfold E in *; lia).
        apply (Qabs_lt_aligned _ _ _ (significant b) _ Hint); [|exact Hr0].
        replace (exponent a - k) with (exponent b) by (unfold E in *; lia).
        destruct b; reflexivity.
      * assert (Hz : r0 = 0) by (apply Hstop; lia).
        apply (Qabs_lt_aligned _ _ 0 (significant b) (exponent b));
          [| destruct b; reflexivity | lia].
        rewrite Hint, Hz, !(toQ_zero (mk 0 _)) by reflexivity. reflexivity.
Qed.

(** ** Printing and reading back *)

#[local] Open Scope string_scope.

Lemma parseDigits_acc (s : string) :
  forall acc,
    parseDigits acc s
    = (acc * 10 ^ Z.of_nat (String.length s) + parseDigits 0 s)%Z.
Proof.
  induction s as [|c s IH]; intros acc; cbn [parseDigits String.length].
  - cbn. lia.
  - rewrite (IH (acc * 10 + digitValue c)%Z), (IH (0 * 10 + digitValue c)%Z).
    rewrite Nat2Z.inj_succ, Z.pow_succ_r by lia. ring.
Qed.

Lemma parseDigits_app (a b : string) :
  forall acc, parseDigits acc (a ++ b) = parseDigits (parseDigits acc a) b.
Proof.
  induction a as [|c a IH]; intros acc; cbn [append parseDigits];
    [reflexivity | apply IH].
Qed.

Lemma parseDigits_zeros (n : nat) : parseDigits 0 (zeros n) = 0%Z.
Proof. induction n as [|n IH]; cbn [zeros parseDigits]; [reflexivity | exact IH]. Qed.

Lemma length_zeros (n : nat) : String.length (zeros n) = n.
Proof. induction n as [|n IH]; simpl; [reflexivity | f_equal; exact IH]. Qed.

Lemma length_append (a b : string) :
  String.length (a ++ b) = (String.length a + String.length b)%nat.
Proof. induction a as [|c a IH]; simpl; [reflexivity | f_equal; exact IH]. Qed.

(** Reading the digits that [Pos.to_uint] prints. *)
Lemma parseDigits_of_uint_acc (d : Decimal.uint) :
  forall acc,
    parseDigits (Z.pos acc) (NilEmpty.string_of_uint d)
    = Z.pos (Pos.of_uint_acc d acc).
Proof.
  induction d; intros acc;
    cbn [NilEmpty.string_of_uint parseDigits Pos.of_uint_acc];
    [reflexivity
    | rewrite <- IHd; f_equal;
      match goal with
      | |- context [digitValue ?c] =>
          let v := eval vm_compute in (digitValue c) in
          change (digitValue c) with v
      end; lia ..].
Qed.

Lemma parseDigits_of_uint (d : Decimal.uint) :
  parseDigits 0 (NilEmpty.string_of_uint d) = Z.of_N (Pos.of_uint d).
Proof.
  induction d; cbn [NilEmpty.string_of_uint parseDigits Pos.of_uint];
    [reflexivity | exact IHd
    | cbn [Z.of_N]; rewrite <- parseDigits_of_uint_acc; f_equal ..].
Qed.

Lemma NilZero_string_of_to_uint (p : positive) :
  NilZero.string_of_uint (Pos.to_uint p)
  = NilEmpty.string_of_uint (Pos.to_uint p).
Proof.
  pose proof (DecimalPos.Unsigned.to_uint_nonnil p) as H.
  destruct (Pos.to_uint p); [contradiction | reflexivity ..].
Qed.

(** Reading the digits of a [bigint] that is not negative gives it back. *)
Lemma parseDigits_BigInt_toString (n : Z) :
  (0 <= n)%Z -> parseDigits 0 (BigInt_toString n) = n.
Proof.
  intros Hn. unfold BigInt_toString. destruct n as [|p|p]; [reflexivity | | lia].
  cbn [Z.to_int NilZero.string_of_int].
  rewrite NilZero_string_of_to_uint, parseDigits_of_uint.
  rewrite DecimalPos.Unsigned.of_to. reflexivity.
Qed.

(** The digits of a positive [bigint] do not start with a zero. *)
Lemma to_uint_no_leading_zero (p : positive) (d : Decimal.uint) :
  Pos.to_uint p <> Decimal.D0 d.
Proof.
  intros H.
  pose proof (DecimalPos.Unsigned.to_of (Pos.to_uint p)) as Hto.
  rewrite DecimalPos.Unsigned.of_to in Hto. cbn [N.to_uint] in Hto.
  rewrite H in Hto. rewrite DecimalFacts.unorm_D0 in Hto.
  destruct (Decimal.uint_eq_dec (Decimal.nzhead d) Decimal.Nil) as [Hnil|Hnn].
  - unfold Decimal.unorm in Hto. rewrite Hnil in Hto.
    injection Hto as Hd. subst d.
    apply (DecimalPos.Unsigned.to_uint_nonzero p). exact H.
  - rewrite (DecimalFacts.unorm_nzhead d Hnn) in Hto.
    symmetry in Hto. apply (DecimalFacts.nzhead_nonzero d d Hto).
Qed.

Lemma numbers_abs (x : BigDecimal) :
  numbers x = BigInt_toString (Z.abs (significant x)).
Proof.
  unfold numbers. destruct (significant x) as [|p|p].
  - reflexivity.
  - apply replace_minus_digits, BigInt_toString_digits. lia.
  - reflexivity.
Qed.

Lemma numbers_digits (x : BigDecimal) :
  allDigits (numbers x) = true /\
  parseDigits 0 (numbers x) = Z.abs (significant x) /\
  numbers x <> "".
Proof.
  rewrite numbers_abs.
  pose proof (Z.abs_nonneg (significant x)) as Hn.
  split; [apply BigInt_toString_digits; exact Hn|].
  split; [apply parseDigits_BigInt_toString; exact Hn|].
  unfold BigInt_toString. destruct (Z.abs (significant x)) as [|p|p];
    [discriminate | | lia].
  cbn [Z.to_int NilZero.string_of_int]. rewrite NilZero_string_of_to_uint.
  pose proof (DecimalPos.Unsigned.to_uint_nonnil p) as H.
  destruct (Pos.to_uint p); [contradiction | discriminate ..].
Qed.

Lemma numbers_head (x : BigDecimal) :
  significant x <> 0%Z ->
  exists c rest, numbers x = String c rest /\ (1 <= digitValue c)%Z.
Proof.
  intros Hnz. rewrite numbers_abs. unfold BigInt_toString.
  destruct (Z.abs (significant x)) as [|p|p] eqn:Habs; [lia | | lia].
  cbn [Z.to_int NilZero.string_of_int]. rewrite NilZero_string_of_to_uint.
  pose proof (DecimalPos.Unsigned.to_uint_nonnil p) as Hnil.
  pose proof (to_uint_no_leading_zero p) as Hzero.
  destruct (Pos.to_uint p) as [|d|d|d|d|d|d|d|d|d|d];
    [contradiction | exfalso; apply (Hzero d); reflexivity | ..];
    cbn [NilEmpty.string_of_uint]; do 2 eexists;
    (split; [reflexivity | vm_compute; discriminate]).
Qed.

Lemma toString_numbers (x : BigDecimal) :
  toString x =
  let sign := if (significant x <? 0)%Z then "-" else "" in
  let len := Z.of_nat (String.length (numbers x)) in
  if (exponent x >? 0)%Z then sign ++ padEnd (numbers x) (exponent x + len)
  else if (exponent x =? 0)%Z then sign ++ numbers x
  else sign ++ js_substring (numbers x) 0 (len + exponent x)
       ++ "." ++ js_substring (numbers x) (len + exponent x) len.
Proof. reflexivity. Qed.

Lemma append_empty (s : string) : s ++ "" = s.
Proof. induction s as [|c s IH]; simpl; [reflexivity | f_equal; exact IH]. Qed.

Lemma append_assoc (a b c : string) : (a ++ b) ++ c = a ++ b ++ c.
Proof. induction a as [|x a IH]; simpl; [reflexivity | f_equal; exact IH]. Qed.

(** Without fractional digits [toString] prints the sign, the digits of the
    significant and as many zeros as the exponent counts. *)
Lemma toString_integer (x : BigDecimal) :
  (0 <= exponent x)%Z ->
  toString x =
  (if (significant x <? 0)%Z then "-" else "")
  ++ numbers x ++ zeros (Z.to_nat (exponent x)).
Proof.
  intros He. rewrite toString_numbers. cbv zeta.
  destruct (Z.gtb_spec (exponent x) 0) as [Hpos|Hle].
  - unfold padEnd. do 3 f_equal. lia.
  - destruct (Z.eqb_spec (exponent x) 0) as [Hz|]; [|lia].
    rewrite Hz. cbn [Z.to_nat zeros]. rewrite append_empty. reflexivity.
Qed.

Lemma substring_split (s : string) :
  forall n, (n <= String.length s)%nat ->
    substring 0 n s ++ substring n (String.length s - n) s = s /\
    String.length (substring 0 n s) = n /\
    String.length (substring n (String.length s - n) s)
    = (String.length s - n)%nat.
Proof.
  induction s as [|c s IH]; intros n Hn.
  - cbn in Hn. assert (n = 0%nat) by lia. subst n. repeat split.
  - destruct n as [|n].
    + cbn [substring append String.length Nat.sub].
      rewrite substring_whole. repeat split.
    + cbn [String.length] in Hn. destruct (IH n ltac:(lia)) as (H1 & H2 & H3).
      cbn [substring append String.length Nat.sub].
      rewrite H1, H2, H3. repeat split.
Qed.

(** With fewer fractional digits than digits, [toString] prints the sign, the
    leading digits, the point, and the last [-exponent] digits. *)
Lemma toString_point (x : BigDecimal) :
  (exponent x < 0)%Z ->
  (- exponent x < Z.of_nat (String.length (numbers x)))%Z ->
  exists U F,
    toString x = (if (significant x <? 0)%Z then "-" else "") ++ U ++ "." ++ F /\
    U ++ F = numbers x /\
    String.length F = Z.to_nat (- exponent x) /\
    U <> "" /\ F <> "" /\
    (forall c rest, numbers x = String c rest -> exists U', U = String c U').
Proof.
  intros He Hlen. rewrite toString_numbers. cbv zeta.
  destruct (Z.gtb_spec (exponent x) 0) as [|_]; [lia|].
  destruct (Z.eqb_spec (exponent x) 0) as [|_]; [lia|].
  set (D := numbers x) in *.
  set (n := (String.length D - Z.to_nat (- exponent x))%nat).
  assert (Hn : (n <= String.length D)%nat) by lia.
  destruct (substring_split D n Hn) as (Hsplit & HlenU & HlenF).
  exists (substring 0 n D), (substring n (String.length D - n) D).
  assert (HU : js_substring D 0 (Z.of_nat (String.length D) + exponent x)
               = substring 0 n D).
  { unfold js_substring.
    repeat match goal with
      | |- context [Z.max ?a ?b] =>
          first [rewrite (Z.max_l a b) by lia | rewrite (Z.max_r a b) by lia]
      | |- context [Z.min ?a ?b] =>
          first [rewrite (Z.min_l a b) by lia | rewrite (Z.min_r a b) by lia]
      end.
    rewrite Z.sub_0_r. cbn [Z.to_nat]. f_equal. unfold n. lia. }
  assert (HF : js_substring D (Z.of_nat (String.length D) + exponent x)
                 (Z.of_nat (String.length D))
               = substring n (String.length D - n) D).
  { unfold js_substring.
    repeat match goal with
      | |- context [Z.max ?a ?b] =>
          first [rewrite (Z.max_l a b) by lia | rewrite (Z.max_r a b) by lia]
      | |- context [Z.min ?a ?b] =>
          first [rewrite (Z.min_l a b) by lia | rewrite (Z.min_r a b) by lia]
      end.
    f_equal; unfold n; lia. }
  rewrite HU, HF. split; [reflexivity|]. split; [exact Hsplit|].
  split; [rewrite HlenF; unfold n; lia|].
  split; [intros H0; rewrite H0 in HlenU; cbn in HlenU; unfold n in *; lia|].
  split; [intros H0; rewrite H0 in HlenF; cbn in HlenF; unfold n in *; lia|].
  intros c rest HD. rewrite HD.
  assert (Hpos : (0 < n)%nat) by (unfold n; lia).
  destruct n as [|n']; [lia|]. cbn [substring]. eexists. reflexivity.
Qed.

Lemma signedDigits_unsigned (c : ascii) (s : string) :
  isDigit c = true ->
  signedDigits (String c s) =
  match digits (String c s) with
  | (EmptyString, _) => None
  | (run, rest) => Some (run, rest)
  end.
Proof.
  intros Hc. unfold signedDigits.
  destruct c as [[] [] [] [] [] [] [] []];
    first [discriminate Hc | reflexivity].
Qed.

Lemma signedDigits_minus (s : string) :
  signedDigits (String "-" s) =
  match digits s with
  | (EmptyString, _) => None
  | (run, rest) => Some ("-" ++ run, rest)
  end.
Proof. reflexivity. Qed.

Lemma allDigits_app (a b : string) :
  allDigits (a ++ b) = allDigits a && allDigits b.
Proof. apply allChars_app. Qed.

Lemma allDigits_head (c : ascii) (s : string) :
  allDigits (String c s) = true -> isDigit c = true /\ allDigits s = true.
Proof. unfold allDigits. cbn [allChars]. apply andb_prop. Qed.

(** The groups of a string of digits with an optional sign. *)
Lemma pattern_exec_integer (negative : bool) (W : string) :
  W <> "" -> allDigits W = true ->
  pattern_exec ((if negative then "-" else "") ++ W)
  = Some ((if negative then "-" else "") ++ W, None, None).
Proof.
  intros HW Hd. unfold pattern_exec.
  destruct W as [|c W]; [contradiction|].
  destruct (allDigits_head c W Hd) as [Hc _].
  destruct negative; cbn [append].
  - rewrite signedDigits_minus, (digits_all _ Hd). reflexivity.
  - rewrite (signedDigits_unsigned c W Hc), (digits_all _ Hd). reflexivity.
Qed.

(** The groups of digits, a point and digits, with an optional sign. *)
Lemma pattern_exec_fraction (negative : bool) (U F : string) :
  U <> "" -> F <> "" -> allDigits U = true -> allDigits F = true ->
  pattern_exec ((if negative then "-" else "") ++ U ++ "." ++ F)
  = Some ((if negative then "-" else "") ++ U, Some F, None).
Proof.
  intros HU HF HdU HdF. destruct negative.
  - apply pattern_exec_negative_fraction; assumption.
  - unfold pattern_exec. cbn [append].
    destruct U as [|c U]; [contradiction|].
    destruct (allDigits_head c U HdU) as [Hc _]. cbn [append].
    rewrite (signedDigits_unsigned c _ Hc).
    change (String c (U ++ String "." F)) with (String c U ++ String "." F).
    rewrite (digits_app (String c U) (String "." F) HdU) by reflexivity.
    rewrite (digits_all F HdF).
    destruct F as [|c' F]; [contradiction | reflexivity].
Qed.

(** A string that starts with a point, after an optional sign, is not
    matched. *)
Lemma pattern_exec_point (negative : bool) (s : string) :
  pattern_exec ((if negative then "-" else "") ++ "." ++ s) = None.
Proof. destruct negative; reflexivity. Qed.

#[local] Close Scope string_scope.

Lemma parseInteger_signed (negative : bool) (W : string) :
  allDigits W = true ->
  parseInteger ((if negative then "-" else "") ++ W)%string
  = if negative then - parseDigits 0 W else parseDigits 0 W.
Proof.
  intros Hd. destruct negative; [reflexivity|]. apply parseInteger_digits.
  exact Hd.
Qed.

(** What [valueOf] reads from digits with an optional sign. *)
Lemma valueOfString_integer (negative : bool) (W : string) :
  W <> EmptyString -> allDigits W = true ->
  valueOfString ((if negative then "-" else "") ++ W)%string
  = Ok (normalized
          (mk (if negative then - parseDigits 0 W else parseDigits 0 W) 0)).
Proof.
  intros HW Hd. unfold valueOfString.
  rewrite (pattern_exec_integer negative W HW Hd).
  rewrite (parseInteger_signed negative W Hd).
  set (v := if negative then - parseDigits 0 W else parseDigits 0 W).
  f_equal. apply normal_unique; try apply normalized_is_normal.
  rewrite !toQ_normalized, toQ_scaleByPowerOfTen_zero, toQ_add.
  destruct (signum (mk v 0) =? -1);
    rewrite ?toQ_negate, (toQ_zero (mk 0 0)) by reflexivity; ring.
Qed.

(** What [valueOf] reads from digits, a point and digits, with an optional
    sign, when the digits before the point are not all zeros. *)
Lemma valueOfString_fraction (negative : bool) (U F : string) :
  U <> EmptyString -> F <> EmptyString ->
  allDigits U = true -> allDigits F = true ->
  parseDigits 0 U <> 0 ->
  exists v,
    valueOfString ((if negative then "-" else "") ++ U ++ "." ++ F)%string
    = Ok v /\
    is_normal v /\
    (toQ v ==
     toQ (mk ((if negative then -1 else 1) * parseDigits 0 (U ++ F)%string)
             (- Z.of_nat (String.length F))))%Q.
Proof.
  intros HU HF HdU HdF Hu. unfold valueOfString.
  rewrite (pattern_exec_fraction negative U F HU HF HdU HdF).
  rewrite (parseInteger_signed negative U HdU), (parseInteger_digits F HdF).
  eexists. split; [reflexivity|]. split; [apply normalized_is_normal|].
  pose proof (parseDigits_nonneg U 0 HdU ltac:(lia)) as Hu0.
  rewrite parseDigits_app, (parseDigits_acc F (parseDigits 0 U)).
  set (u := parseDigits 0 U) in *. set (f := parseDigits 0 F) in *.
  set (n := Z.of_nat (String.length F)).
  assert (Hn : 0 <= n) by (unfold n; lia).
  assert (Hsplit : forall s,
            (toQ (mk (s * (u * 10 ^ n + f)) (- n))
             == inject_Z (s * u) + inject_Z s * toQ (mk f (- n)))%Q).
  { intros s. rewrite !toQ_mk.
    rewrite inject_Z_mult, inject_Z_plus, !inject_Z_mult, pow10Q_of_Z
      by exact Hn.
    assert (Hone : ((10 # 1) ^ n * (10 # 1) ^ (- n) == 1)%Q).
    { rewrite <- pow10Q_add, Z.add_opp_diag_r. reflexivity. }
    transitivity (inject_Z s * inject_Z u * ((10 # 1) ^ n * (10 # 1) ^ (- n))
                  + inject_Z s * inject_Z f * (10 # 1) ^ (- n))%Q; [ring|].
    rewrite Hone. ring. }
  rewrite !toQ_normalized, toQ_scaleByPowerOfTen_zero, toQ_add.
  destruct negative.
  - destruct (signum_negative (mk (- u) 0)) as [-> _]; [cbn; lia|].
    cbn [Z.eqb Pos.eqb]. rewrite toQ_negate, toQ_integer, Hsplit.
    change (inject_Z (-1)) with (- (1))%Q.
    replace (-1 * u) with (- u) by lia. ring.
  - destruct (signum_positive (mk u 0)) as [-> _]; [cbn; lia|].
    cbn [Z.eqb]. rewrite toQ_integer, Hsplit.
    change (inject_Z 1) with 1%Q. replace (1 * u) with u by lia. ring.
Qed.

Lemma parseDigits_lower_bound (s : string) (acc : Z) :
  allDigits s = true -> 0 <= acc -> acc <= parseDigits acc s.
Proof.
  intros Hd Hacc. rewrite parseDigits_acc.
  pose proof (parseDigits_nonneg s 0 Hd ltac:(lia)) as H0.
  pose proof (Z.pow_pos_nonneg 10 (Z.of_nat (String.length s))
                ltac:(lia) ltac:(lia)). nia.
Qed.

Lemma signed_abs (m : Z) :
  (if m <? 0 then - Z.abs m else Z.abs m) = m /\
  (if m <? 0 then -1 else 1) * Z.abs m = m.
Proof. destruct (Z.ltb_spec m 0); lia. Qed.

(** X27. Reading back what [toString] prints gives the value again, in
    normal form, whenever the value has no fractional digits or has more
    digits than fractional digits, that is whenever an integer digit is
    printed. *)
Theorem valueOf_toString_round_trip (x : BigDecimal) :
  0 <= exponent x \/
  - exponent x < Z.of_nat (String.length (numbers x)) ->
  valueOfString (toString x) = Ok (normalized x).
Proof.
  destruct (numbers_digits x) as (Hd & Hparse & Hne).
  destruct (signed_abs (significant x)) as [Hsig Hsig'].
  destruct (Z.le_gt_cases 0 (exponent x)) as [He|He]; intros Hc.
  - rewrite (toString_integer x He).
    rewrite (valueOfString_integer (significant x <? 0)).
    + f_equal. rewrite parseDigits_app, Hparse, parseDigits_acc.
      rewrite parseDigits_zeros, length_zeros, Z2Nat.id, Z.add_0_r by exact He.
      apply normal_unique; try apply normalized_is_normal.
      rewrite !toQ_normalized.
      replace (if significant x <? 0
               then - (Z.abs (significant x) * 10 ^ exponent x)
               else Z.abs (significant x) * 10 ^ exponent x)
        with (significant x * 10 ^ exponent x)
        by (destruct (Z.ltb_spec (significant x) 0); nia).
      rewrite toQ_shift by exact He. destruct x; reflexivity.
    + destruct (numbers x); [contradiction | discriminate].
    + rewrite allDigits_app, Hd. apply allChars_zeros.
  - destruct Hc as [Hc|Hc]; [lia|].
    destruct (toString_point x He Hc) as (U & F & -> & HUF & HlenF & HU & HF & Hhead).
    assert (Hnz : significant x <> 0).
    { intros Hz. rewrite numbers_abs, Hz in Hc. cbn in Hc. lia. }
    destruct (numbers_head x Hnz) as (c & rest & Hnum & Hc1).
    destruct (Hhead c rest Hnum) as [U' HU'].
    rewrite <- HUF, allDigits_app in Hd. apply andb_prop in Hd as [HdU HdF].
    assert (Hu : parseDigits 0 U <> 0).
    { subst U. cbn [parseDigits].
      destruct (allDigits_head c U' HdU) as [Hcd HdU'].
      pose proof (digitValue_bounds c Hcd).
      pose proof (parseDigits_lower_bound U' (0 * 10 + digitValue c) HdU'
                    ltac:(lia)). lia. }
    destruct (valueOfString_fraction (significant x <? 0) U F HU HF HdU HdF Hu)
      as (v & -> & Hv & Hval).
    f_equal. apply normal_unique; [exact Hv | apply normalized_is_normal|].
    rewrite Hval, toQ_normalized, HUF, Hparse, HlenF, Z2Nat.id, Hsig' by lia.
    rewrite Z.opp_involutive. destruct x; reflexivity.
Qed.

Lemma valueOf_toString_round_trip_witness :
  valueOfString (toString (mk (-120305) (-3))) = Ok (normalized (mk (-120305) (-3))).
Proof.
  apply (valueOf_toString_round_trip (mk (-120305) (-3))).
  right. vm_compute. reflexivity.
Defined.

(** X28. A value that is not written with more digits than fractional digits,
    as every nonzero value below one in absolute value is, is printed with
    the point first; [valueOf] rejects what [toString] printed. *)
Theorem valueOf_toString_rejected (x : BigDecimal) :
  exponent x < 0 ->
  Z.of_nat (String.length (numbers x)) <= - exponent x ->
  valueOfString (toString x) = Err InvalidFormat /\
  toString x
  = ((if (significant x <? 0)%Z then "-" else "") ++ "." ++ numbers x)%string.
Proof.
  intros He Hlen.
  assert (Hshape : toString x
            = ((if (significant x <? 0)%Z then "-" else "") ++ "." ++ numbers x)%string).
  { rewrite toString_numbers. cbv zeta.
    destruct (Z.gtb_spec (exponent x) 0) as [|_]; [lia|].
    destruct (Z.eqb_spec (exponent x) 0) as [|_]; [lia|].
    unfold js_substring.
    repeat match goal with
      | |- context [Z.max ?a ?b] =>
          first [rewrite (Z.max_l a b) by lia | rewrite (Z.max_r a b) by lia]
      | |- context [Z.min ?a ?b] =>
          first [rewrite (Z.min_l a b) by lia | rewrite (Z.min_r a b) by lia]
      end.
    rewrite ?Z.sub_0_r, ?Z.sub_diag. cbn [Z.to_nat].
    rewrite ?substring_nothing, Nat2Z.id, substring_whole. reflexivity. }
  split; [|exact Hshape].
  rewrite Hshape. unfold valueOfString.
  rewrite (pattern_exec_point (significant x <? 0)). reflexivity.
Qed.

Lemma valueOf_toString_rejected_witness :
  valueOfString (toString (mk (-5) (-2))) = Err InvalidFormat /\
  toString (mk (-5) (-2))
  = ((if (significant (mk (-5) (-2)) <? 0)%Z then "-" else "") ++ "."
     ++ numbers (mk (-5) (-2)))%string.
Proof.
  apply (valueOf_toString_rejected (mk (-5) (-2))).
  - cbn. lia.
  - vm_compute. discriminate.
Defined.

#[local] Open Scope string_scope.

Lemma signedDigits_whole (negative : bool) (X : string) :
  X <> "" -> allDigits X = true ->
  signedDigits ((if negative then "-" else "") ++ X)
  = Some ((if negative then "-" else "") ++ X, "").
Proof.
  intros HX Hd. destruct X as [|c X]; [contradiction|].
  destruct (allDigits_head c X Hd) as [Hc _].
  destruct negative; cbn [append].
  - rewrite signedDigits_minus, (digits_all _ Hd). reflexivity.
  - rewrite (signedDigits_unsigned c X Hc), (digits_all _ Hd). reflexivity.
Qed.

(** The groups of scientific notation: digits, a point, digits, [e] or [E],
    and an exponent, with optional signs. *)
Lemma pattern_exec_scientific (negative negativeX upper : bool)
  (U F X : string) :
  U <> "" -> F <> "" -> X <> "" ->
  allDigits U = true -> allDigits F = true -> allDigits X = true ->
  pattern_exec ((if negative then "-" else "") ++ U ++ "." ++ F
                ++ (if upper then "E" else "e")
                ++ (if negativeX then "-" else "") ++ X)
  = Some ((if negative then "-" else "") ++ U, Some F,
          Some ((if negativeX then "-" else "") ++ X)).
Proof.
  intros HU HF HX HdU HdF HdX. unfold pattern_exec.
  set (tail := (if upper then "E" else "e")
               ++ (if negativeX then "-" else "") ++ X).
  assert (Htail : exists c, tail = String c ((if negativeX then "-" else "") ++ X)
                            /\ isDigit c = false
                            /\ ((c =? "e")%char || (c =? "E")%char) = true).
  { unfold tail. destruct upper; eexists; repeat split. }
  destruct Htail as (c & Htail & Hc & Hce). rewrite Htail. clearbody tail.
  assert (Hsigned : signedDigits ((if negative then "-" else "")
                                  ++ U ++ String "." (F ++ String c
                                       ((if negativeX then "-" else "") ++ X)))
                    = Some ((if negative then "-" else "") ++ U,
                            String "." (F ++ String c
                                       ((if negativeX then "-" else "") ++ X)))).
  { destruct U as [|cu U]; [contradiction|].
    destruct (allDigits_head cu U HdU) as [Hcu _].
    destruct negative; cbn [append].
    - rewrite signedDigits_minus.
      change (String cu (U ++ ?r)) with (String cu U ++ r).
      rewrite (digits_app (String cu U) _ HdU) by reflexivity. reflexivity.
    - rewrite (signedDigits_unsigned cu _ Hcu).
      change (String cu (U ++ ?r)) with (String cu U ++ r).
      rewrite (digits_app (String cu U) _ HdU) by reflexivity. reflexivity. }
  cbn [append] in *. rewrite Hsigned.
  rewrite (digits_app F _ HdF) by exact Hc.
  destruct F as [|cf F]; [contradiction|].
  rewrite Hce, (signedDigits_whole negativeX X HX HdX). reflexivity.
Qed.

#[local] Close Scope string_scope.

(** The value read from the groups of a string with a fraction. *)
Lemma valueOfString_groups (s : string) (negative : bool) (U F : string)
  (g3 : option string) :
  pattern_exec s = Some (((if negative then "-" else "") ++ U)%string,
                         Some F, g3) ->
  allDigits U = true -> allDigits F = true ->
  negative = false \/ parseDigits 0 U <> 0 ->
  exists v,
    valueOfString s = Ok v /\ is_normal v /\
    (toQ v ==
     toQ (mk ((if negative then -1 else 1) * parseDigits 0 (U ++ F)%string)
             (- Z.of_nat (String.length F)))
     * (10 # 1) ^ match g3 with
                  | Some g => parseInteger g
                  | None => 0
                  end)%Q.
Proof.
  intros Hpat HdU HdF Hsign. unfold valueOfString. rewrite Hpat.
  rewrite (parseInteger_signed negative U HdU), (parseInteger_digits F HdF).
  eexists. split; [reflexivity|]. split; [apply normalized_is_normal|].
  pose proof (parseDigits_nonneg U 0 HdU ltac:(lia)) as Hu0.
  rewrite parseDigits_app, (parseDigits_acc F (parseDigits 0 U)).
  set (u := parseDigits 0 U) in *. set (f := parseDigits 0 F) in *.
  set (n := Z.of_nat (String.length F)).
  assert (Hn : 0 <= n) by (unfold n; lia).
  assert (Hsplit : forall s',
            (toQ (mk (s' * (u * 10 ^ n + f)) (- n))
             == inject_Z (s' * u) + inject_Z s' * toQ (mk f (- n)))%Q).
  { intros s'. rewrite !toQ_mk.
    rewrite inject_Z_mult, inject_Z_plus, !inject_Z_mult, pow10Q_of_Z
      by exact Hn.
    assert (Hone : ((10 # 1) ^ n * (10 # 1) ^ (- n) == 1)%Q).
    { rewrite <- pow10Q_add, Z.add_opp_diag_r. reflexivity. }
    transitivity (inject_Z s' * inject_Z u * ((10 # 1) ^ n * (10 # 1) ^ (- n))
                  + inject_Z s' * inject_Z f * (10 # 1) ^ (- n))%Q; [ring|].
    rewrite Hone. ring. }
  rewrite !toQ_normalized, toQ_scaleByPowerOfTen, toQ_add.
  apply Qmult_comp; [|reflexivity].
  destruct negative.
  - destruct Hsign as [Hf|Hnz]; [discriminate|].
    destruct (signum_negative (mk (- u) 0)) as [-> _]; [cbn; lia|].
    cbn [Z.eqb Pos.eqb]. rewrite toQ_negate, toQ_integer, Hsplit.
    change (inject_Z (-1)) with (- (1))%Q.
    replace (-1 * u) with (- u) by lia. ring.
  - assert (Hs : (signum (mk u 0) =? -1) = false).
    { unfold signum. cbn [significant].
      destruct (Z.ltb_spec u 0); [lia|]. destruct (u =? 0); reflexivity. }
    rewrite Hs, toQ_integer, Hsplit.
    change (inject_Z 1) with 1%Q. replace (1 * u) with u by lia. ring.
Qed.

(** X29. [valueOf] reads a string of digits as that integer, digits with a
    point as that decimal fraction, and scientific notation as the fraction
    times the power of ten, each with an optional minus sign (a negative
    fraction needs a unit part that is not zero, and the exponent and the
    count of digits stay within the integers that a [number] holds exactly);
    the result is in normal form.  An exponent without a fraction, as in "1e5", is rejected, and so
    are the empty string and a string that ends or starts with the point. *)
Theorem valueOf_reads_notation (negative negativeX upper : bool)
  (U F X : string) :
  U <> EmptyString -> F <> EmptyString -> X <> EmptyString ->
  allDigits U = true -> allDigits F = true -> allDigits X = true ->
  negative = false \/ parseDigits 0 U <> 0 ->
  Z.of_nat (String.length (U ++ F)) + parseDigits 0 X < 2 ^ 53 ->
  let sign := (if negative then "-" else "")%string in
  let signX := (if negativeX then "-" else "")%string in
  let e := (if upper then "E" else "e")%string in
  let s := if negative then -1 else 1 in
  let sX := if negativeX then -1 else 1 in
  let fraction := mk (s * parseDigits 0 (U ++ F)%string)
                     (- Z.of_nat (String.length F)) in
  valueOfString (sign ++ U)%string
    = Ok (normalized (mk (s * parseDigits 0 U) 0)) /\
  (exists v, valueOfString (sign ++ U ++ "." ++ F)%string = Ok v /\
             is_normal v /\ (toQ v == toQ fraction)%Q) /\
  (exists v, valueOfString (sign ++ U ++ "." ++ F ++ e ++ signX ++ X)%string
             = Ok v /\
             is_normal v /\
             (toQ v == toQ fraction * (10 # 1) ^ (sX * parseDigits 0 X))%Q) /\
  valueOfString (sign ++ U ++ e ++ signX ++ X)%string = Err InvalidFormat /\
  valueOfString (sign ++ U ++ ".")%string = Err InvalidFormat /\
  valueOfString (sign ++ "." ++ F)%string = Err InvalidFormat /\
  valueOfString sign = Err InvalidFormat.
Proof.
  intros HU HF HX HdU HdF HdX Hsign _. cbv zeta.
  split; [|split; [|split; [|split; [|split; [|split]]]]].
  - rewrite (valueOfString_integer negative U HU HdU). do 3 f_equal.
    destruct negative; lia.
  - destruct (valueOfString_groups _ negative U F None
                (pattern_exec_fraction negative U F HU HF HdU HdF)
                HdU HdF Hsign) as (v & Hv & Hn & Hval).
    exists v. split; [exact Hv|]. split; [exact Hn|].
    rewrite Hval. cbn. ring.
  - destruct (valueOfString_groups _ negative U F _
                (pattern_exec_scientific negative negativeX upper U F X
                   HU HF HX HdU HdF HdX)
                HdU HdF Hsign) as (v & Hv & Hn & Hval).
    exists v. split; [exact Hv|]. split; [exact Hn|].
    rewrite Hval, (parseInteger_signed negativeX X HdX).
    replace ((if negativeX then -1 else 1) * parseDigits 0 X)
      with (if negativeX then - parseDigits 0 X else parseDigits 0 X)
      by (destruct negativeX; lia).
    reflexivity.
  - unfold valueOfString, pattern_exec.
    assert (Hs : signedDigits ((if negative then "-" else "") ++ U
                   ++ (if upper then "E" else "e")
                   ++ (if negativeX then "-" else "") ++ X)%string
                 = Some (((if negative then "-" else "") ++ U)%string,
                         ((if upper then "E" else "e")
                          ++ (if negativeX then "-" else "") ++ X)%string)).
    { destruct U as [|cu U]; [contradiction|].
      destruct (allDigits_head cu U HdU) as [Hcu _].
      destruct negative; cbn [append];
        [rewrite signedDigits_minus | rewrite (signedDigits_unsigned cu _ Hcu)];
        change (String cu (U ++ ?r)%string) with (String cu U ++ r)%string;
        rewrite (digits_app (String cu U) _ HdU)
          by (destruct upper; reflexivity); reflexivity. }
    rewrite Hs. destruct upper; reflexivity.
  - unfold valueOfString, pattern_exec.
    assert (Hs : signedDigits ((if negative then "-" else "") ++ U ++ ".")%string
                 = Some (((if negative then "-" else "") ++ U)%string,
                         "."%string)).
    { destruct U as [|cu U]; [contradiction|].
      destruct (allDigits_head cu U HdU) as [Hcu _].
      destruct negative; cbn [append];
        [rewrite signedDigits_minus | rewrite (signedDigits_unsigned cu _ Hcu)];
        change (String cu (U ++ ?r)%string) with (String cu U ++ r)%string;
        rewrite (digits_app (String cu U) _ HdU) by reflexivity; reflexivity. }
    rewrite Hs. reflexivity.
  - unfold valueOfString. rewrite (pattern_exec_point negative F). reflexivity.
  - destruct negative; reflexivity.
Qed.

Lemma valueOf_reads_notation_witness :
  exists v, valueOfString "-12.50E-3" = Ok v /\ is_normal v /\
            (toQ v == toQ (mk (-1 * parseDigits 0 "1250") (-2))
                      * (10 # 1) ^ (-1 * parseDigits 0 "3"))%Q.
Proof.
  refine (proj1 (proj2 (proj2
    (valueOf_reads_notation true true true "12" "50" "3" _ _ _ _ _ _ _ _))));
    first [discriminate | reflexivity | right; vm_compute; discriminate].
Defined.

(** ** Square root: the first guess decides *)

(** One round of the iteration leaves an exact root where it is. *)
Lemma sqrt_round_exact (x g : BigDecimal) :
  0 < significant x -> (toQ g * toQ g == toQ x)%Q ->
  divide (subtract (multiply g g) x) (add g g) = Ok (mk 0 0) /\
  subtract g (mk 0 0) = normalized g.
Proof.
  intros Hx Hg. apply (proj1 (toQ_sign x)) in Hx.
  assert (Hnum : significant (subtract (multiply g g) x) = 0).
  { apply toQ_zero_iff. rewrite toQ_subtract, toQ_multiply, Hg. ring. }
  assert (Hden : significant (add g g) <> 0).
  { intros H. apply toQ_zero_iff in H. rewrite toQ_add in H.
    assert (Hz : (toQ g == 0)%Q) by lra.
    rewrite Hz in Hg. lra. }
  split.
  - unfold divide. apply Z.eqb_neq in Hden. rewrite Hden, Hnum. reflexivity.
  - apply normal_unique;
      [apply add_is_normal | apply normalized_is_normal |].
    rewrite toQ_subtract, toQ_normalized.
    rewrite (toQ_zero (mk 0 0)) by reflexivity. ring.
Qed.

Lemma sqrt_loop_exact (rounds : nat) (x : BigDecimal) :
  0 < significant x ->
  forall g, (toQ g * toQ g == toQ x)%Q ->
  exists g', sqrt_loop rounds x g = Ok g' /\ normalized g' = normalized g.
Proof.
  intros Hx. induction rounds as [|rounds IH]; intros g Hg.
  - exists g. split; reflexivity.
  - cbn [sqrt_loop].
    destruct (sqrt_round_exact x g Hx Hg) as [Hstep Hnext].
    rewrite Hstep. cbn [bind]. rewrite Hnext.
    destruct (IH (normalized g)) as (g' & Hloop & Hnorm).
    { rewrite toQ_normalized. exact Hg. }
    exists g'. split; [exact Hloop|].
    rewrite Hnorm. apply normalized_idempotent.
Qed.

(** X30. What [sqrt] returns is decided by its first guess in three cases.
    A negative operand is rejected before any guess is made.  When the guess
    for a positive operand is an exact root, every round subtracts zero and
    [sqrt] returns the guess, normalized.  When the guess for a positive
    operand is zero, the first round divides by zero and [sqrt] fails with
    the division-by-zero error. *)
Theorem sqrt_first_guess (nativeSeed : BigDecimal -> result BigDecimal)
  (x g : BigDecimal) :
  (significant x < 0 -> sqrt nativeSeed x = Err InvalidOperand) /\
  (0 < significant x -> nativeSeed x = Ok g ->
   (toQ g * toQ g == toQ x)%Q ->
   sqrt nativeSeed x = Ok (normalized g)) /\
  (0 < significant x -> nativeSeed x = Ok g -> significant g = 0 ->
   sqrt nativeSeed x = Err DivisionByZero).
Proof.
  split; [|split].
  - intros Hx. unfold sqrt. apply Z.ltb_lt in Hx. rewrite Hx. reflexivity.
  - intros Hx Hseed Hg. unfold sqrt, sqrtSeed.
    destruct (Z.ltb_spec (significant x) 0) as [|_]; [lia|].
    destruct (Z.eqb_spec (significant x) 0) as [|_]; [lia|].
    rewrite Hseed. cbn [bind].
    destruct (sqrt_loop_exact SQRT_ROUNDS x Hx g Hg) as (g' & -> & Hnorm).
    cbn [bind]. rewrite Hnorm. reflexivity.
  - intros Hx Hseed Hg. unfold sqrt, sqrtSeed.
    destruct (Z.ltb_spec (significant x) 0) as [|_]; [lia|].
    destruct (Z.eqb_spec (significant x) 0) as [|_]; [lia|].
    rewrite Hseed. cbn [bind]. unfold SQRT_ROUNDS. cbn [sqrt_loop].
    assert (Hden : significant (add g g) = 0).
    { apply toQ_zero_iff. rewrite toQ_add.
      apply toQ_zero_iff in Hg. rewrite Hg. ring. }
    assert (Hnum : significant (subtract (multiply g g) x) <> 0).
    { intros Hz. apply toQ_zero_iff in Hz.
      rewrite toQ_subtract, toQ_multiply in Hz.
      apply toQ_zero_iff in Hg. rewrite Hg in Hz.
      apply (proj1 (toQ_sign x)) in Hx. lra. }
    rewrite (divide_zero_divisor _ _ Hden).
    apply Z.eqb_neq in Hnum. rewrite Hnum. reflexivity.
Qed.

Lemma sqrt_first_guess_witness :
  sqrt (fun _ => Ok (mk 20 (-1))) (mk 4 0) = Ok (normalized (mk 20 (-1))) /\
  sqrt (fun _ => Ok (mk 0 0)) (mk 1 (-400)) = Err DivisionByZero /\
  sqrt (fun _ => Ok ONE) (mk (-4) 0) = Err InvalidOperand.
Proof.
  split; [|split].
  - refine (proj1 (proj2
      (sqrt_first_guess (fun _ => Ok (mk 20 (-1))) (mk 4 0) (mk 20 (-1))))
      _ _ _); [reflexivity | reflexivity | reflexivity].
  - refine (proj2 (proj2
      (sqrt_first_guess (fun _ => Ok (mk 0 0)) (mk 1 (-400)) (mk 0 0)))
      _ _ _); reflexivity.
  - refine (proj1
      (sqrt_first_guess (fun _ => Ok ONE) (mk (-4) 0) ONE) _); reflexivity.
Defined.

(** * The class on numbers: where the exponent arithmetic is exact *)

(** ** Rounding to a number *)

Lemma number_exact (z : Z) : Z.abs z <= 2 ^ 53 -> number z = z.
Proof.
  intros Hz. unfold number.
  destruct (Z.ltb_spec (Z.log2 (Z.abs z)) 53) as [|Hn]; [reflexivity|].
  assert (Ha : Z.abs z = 2 ^ 53).
  { destruct (Z.eq_dec (Z.abs z) (2 ^ 53)) as [|Hne]; [assumption|].
    exfalso. assert (Hlt : Z.abs z < 2 ^ 53) by lia.
    destruct (Z.eq_dec (Z.abs z) 0) as [H0|H0].
    - rewrite H0 in Hn. cbn in Hn. lia.
    - apply Z.log2_lt_pow2 in Hlt; lia. }
  cbv zeta. rewrite Ha.
  change (Z.log2 (2 ^ 53)) with 53.
  change (2 ^ (53 - 52)) with 2.
  change (2 ^ 53 / 2) with (2 ^ 52).
  change (2 ^ 53 mod 2) with 0.
  cbn [Z.mul Z.ltb Z.compare].
  change (2 ^ 52 * 2) with (2 ^ 53). rewrite <- Ha. lia.
Qed.

Lemma number_opp (z : Z) : number (- z) = - number z.
Proof.
  unfold number. rewrite Z.abs_opp, Z.sgn_opp.
  destruct (Z.log2 (Z.abs z) <? 53); [reflexivity|]. cbv zeta. lia.
Qed.

(** ** Bit lengths *)

Lemma log2_abs_le (a b : Z) :
  Z.abs a <= Z.abs b -> Z.log2 (Z.abs a) <= Z.log2 (Z.abs b).
Proof. apply Z.log2_le_mono. Qed.

Lemma log2_pow10 (d : Z) : 0 <= d -> Z.log2 (10 ^ d) <= 4 * d.
Proof.
  intros Hd.
  assert (H16 : 10 ^ d <= 2 ^ (4 * d)).
  { rewrite Z.pow_mul_r by lia. change (2 ^ 4) with 16.
    apply Z.pow_le_mono_l. lia. }
  apply Z.log2_le_mono in H16. rewrite Z.log2_pow2 in H16 by lia. exact H16.
Qed.

Lemma log2_mul_abs (a b : Z) :
  Z.log2 (Z.abs (a * b)) <= Z.log2 (Z.abs a) + Z.log2 (Z.abs b) + 1.
Proof. rewrite Z.abs_mul. apply Z.log2_mul_above; apply Z.abs_nonneg. Qed.

Lemma log2_add_abs (a b : Z) :
  Z.log2 (Z.abs (a + b))
  <= Z.max (Z.log2 (Z.abs a)) (Z.log2 (Z.abs b)) + 1.
Proof.
  assert (Hle : Z.abs (a + b) <= 2 * Z.max (Z.abs a) (Z.abs b)) by lia.
  apply Z.log2_le_mono in Hle.
  destruct (Z.eq_dec (Z.max (Z.abs a) (Z.abs b)) 0) as [H0|H0].
  - rewrite H0 in Hle. cbn in Hle.
    pose proof (Z.log2_nonneg (Z.abs a)). pose proof (Z.log2_nonneg (Z.abs b)).
    lia.
  - rewrite Z.log2_double in Hle by lia.
    destruct (Z.max_spec (Z.abs a) (Z.abs b)) as [[Hlt Hm]|[Hlt Hm]];
      rewrite Hm in Hle; lia.
Qed.

Lemma log2_quot_abs (a b : Z) :
  Z.log2 (Z.abs (Z.quot a b)) <= Z.log2 (Z.abs a).
Proof.
  apply Z.log2_le_mono.
  destruct (Z.eq_dec b 0) as [->|Hb].
  - destruct a; cbn; lia.
  - rewrite <- Z.quot_abs by exact Hb.
    destruct (Z.eq_dec (Z.abs a) 0) as [->|Ha].
    + rewrite Z.quot_0_l by lia. lia.
    + destruct (Z.eq_dec (Z.abs b) 1) as [->|Hb1].
      * rewrite Z.quot_1_r. lia.
      * apply Z.lt_le_incl, Z.quot_lt; lia.
Qed.

Lemma log2_rem_abs (a b : Z) :
  Z.log2 (Z.abs (Z.rem a b)) <= Z.log2 (Z.abs a).
Proof.
  apply Z.log2_le_mono.
  destruct (Z.eq_dec b 0) as [->|Hb].
  - destruct a; cbn; lia.
  - pose proof (Z.quot_rem' a b) as Hqr.
    pose proof (Z.rem_bound_abs a b Hb) as Hlt.
    pose proof (Z.rem_sign_mul a b Hb) as Hs.
    destruct (Z.eq_dec (Z.quot a b) 0) as [Hq|Hq].
    + rewrite Hq in Hqr. lia.
    + assert (Z.abs b <= Z.abs (b * Z.quot a b)) by (rewrite Z.abs_mul; nia).
      nia.
Qed.

(** A factor [10 ^ k] of a nonzero integer takes at least [k] of its bits. *)
Lemma log2_factor_pow10 (m m' k : Z) :
  m <> 0 -> 0 <= k -> m = m' * 10 ^ k ->
  k + Z.log2 (Z.abs m') <= Z.log2 (Z.abs m).
Proof.
  intros Hm Hk ->.
  assert (Hm' : m' <> 0) by (intros ->; lia).
  assert (Hp : 2 ^ k <= 10 ^ k) by (apply Z.pow_le_mono_l; lia).
  pose proof (Z.pow_pos_nonneg 2 k ltac:(lia) Hk) as H2.
  rewrite Z.abs_mul, (Z.abs_eq (10 ^ k)) by lia.
  assert (Hle : Z.abs m' * 2 ^ k <= Z.abs m' * 10 ^ k) by nia.
  apply Z.log2_le_mono in Hle.
  rewrite Z.log2_mul_pow2 in Hle by lia. lia.
Qed.

(** ** Sizes *)

Lemma fits_nonneg (B : Z) (x : BigDecimal) : fits B x -> 0 <= B.
Proof. intros [H _]. lia. Qed.

Lemma fits_le (B B' : Z) (x : BigDecimal) : fits B x -> B <= B' -> fits B' x.
Proof. intros [H1 H2] H. split; lia. Qed.

Lemma fits_negate (B : Z) (x : BigDecimal) : fits B x -> fits B (negate x).
Proof.
  intros [H1 H2]. split; cbn [negate significant exponent];
    [exact H1 | rewrite Z.abs_opp; exact H2].
Qed.

Lemma fits_zero (B : Z) : 0 <= B -> fits B (mk 0 0).
Proof. intros H. split; cbn; lia. Qed.

(** ** Normalization on numbers *)

Lemma rounded_normalized_loop (fuel : nat) :
  forall m e, m <> 0 -> - 2 ^ 53 <= e -> e + Z.log2 (Z.abs m) <= 2 ^ 53 ->
    Rounded.normalized_loop fuel m e = normalized_loop fuel m e.
Proof.
  induction fuel as [|fuel IH]; intros m e Hm Hlo Hhi; [reflexivity|].
  cbn [Rounded.normalized_loop normalized_loop].
  destruct (Z.eqb_spec (Z.rem m 10) 0) as [Hr|Hr]; [|reflexivity].
  assert (Hq : m = Z.quot m 10 * 10 ^ 1).
  { pose proof (Z.quot_rem' m 10). change (10 ^ 1) with 10. lia. }
  pose proof (log2_factor_pow10 m (Z.quot m 10) 1 Hm ltac:(lia) Hq) as Hl.
  pose proof (Z.log2_nonneg (Z.abs (Z.quot m 10))).
  rewrite number_exact by lia.
  apply IH; [|lia|lia].
  intros H0. rewrite H0 in Hq. lia.
Qed.

Lemma rounded_normalized (B : Z) (x : BigDecimal) :
  fits B x -> 2 * B <= 2 ^ 53 -> Rounded.normalized x = normalized x.
Proof.
  intros [He Hl] HB. unfold Rounded.normalized, normalized.
  destruct (Z.eqb_spec (significant x) 0) as [|Hm]; [reflexivity|].
  apply rounded_normalized_loop; [exact Hm | lia | lia].
Qed.

Lemma normalized_fits (B : Z) (x : BigDecimal) :
  fits B x -> fits (2 * B) (normalized x).
Proof.
  intros [He Hl].
  destruct (Z.eq_dec (significant x) 0) as [Hz|Hnz].
  - rewrite (normalized_zero x Hz). apply fits_zero. lia.
  - destruct (normalized_shape x Hnz) as (k & Hk & Hex & Hm & _).
    pose proof (log2_factor_pow10 _ _ k Hnz Hk Hm) as Hf.
    pose proof (Z.log2_nonneg (Z.abs (significant (normalized x)))).
    split; lia.
Qed.

(** A value whose exponent is within [E] and whose significant has at most
    [L] bits: what [normalized] returns fits [E + L]. *)
Lemma normalized_fits_mk (E L : Z) (m e : Z) :
  Z.abs e <= E -> Z.log2 (Z.abs m) <= L ->
  fits (E + L) (normalized (mk m e)).
Proof.
  intros He Hl.
  destruct (Z.eq_dec m 0) as [Hz|Hnz].
  - rewrite normalized_zero by exact Hz.
    pose proof (Z.log2_nonneg (Z.abs m)). apply fits_zero. lia.
  - destruct (normalized_shape (mk m e) Hnz) as (k & Hk & Hex & Hm & _).
    cbn [significant exponent] in *.
    pose proof (log2_factor_pow10 _ _ k Hnz Hk Hm) as Hf.
    pose proof (Z.log2_nonneg (Z.abs (significant (normalized (mk m e))))).
    split; lia.
Qed.

Lemma rounded_normalized_mk (m e : Z) :
  Z.abs e + Z.log2 (Z.abs m) <= 2 ^ 53 ->
  Rounded.normalized (mk m e) = normalized (mk m e).
Proof.
  intros H. pose proof (Z.log2_nonneg (Z.abs m)).
  unfold Rounded.normalized, normalized. cbn [significant exponent].
  destruct (Z.eqb_spec m 0) as [|Hm]; [reflexivity|].
  apply rounded_normalized_loop; [exact Hm | lia | lia].
Qed.

(** ** Fuel and depth on numbers *)

(** The loop of [normalized] tests the significant only, so on numbers it
    leaves with the same significant, within the same fuel. *)
Lemma rounded_normalized_loop_significant (fuel : nat) :
  forall m e e',
    significant (Rounded.normalized_loop fuel m e)
    = significant (normalized_loop fuel m e').
Proof.
  induction fuel as [|fuel IH]; intros m e e'; [reflexivity|].
  cbn [Rounded.normalized_loop normalized_loop].
  destruct (Z.rem m 10 =? 0); [apply IH | reflexivity].
Qed.

Lemma rounded_normalized_is_normal (x : BigDecimal) :
  is_normal (Rounded.normalized x).
Proof.
  unfold Rounded.normalized.
  destruct (Z.eqb_spec (significant x) 0) as [Hz|Hnz].
  - split; cbn; [lia | reflexivity].
  - destruct (normalized_loop_exits (normalized_fuel (significant x))
                (significant x) (exponent x) Hnz
                (normalized_fuel_enough _ Hnz)) as [Hr Hs].
    rewrite <- (rounded_normalized_loop_significant _ _ (exponent x)) in Hr, Hs.
    split; [intros _; exact Hr | intros H; contradiction].
Qed.

Lemma rounded_normalized_of_normal (x : BigDecimal) :
  is_normal x -> Rounded.normalized x = x.
Proof.
  intros [Hrem Hzero]. destruct x as [m e]. cbn [significant exponent] in *.
  unfold Rounded.normalized. cbn [significant exponent].
  destruct (Z.eqb_spec m 0) as [Hz|Hnz].
  - rewrite (Hzero Hz), Hz. reflexivity.
  - unfold normalized_fuel. cbn [Rounded.normalized_loop].
    apply Z.eqb_neq in Hrem; [|exact Hnz]. rewrite Hrem. reflexivity.
Qed.

(** The exchanged call of [add] has a difference that is not negative:
    rounding keeps the sign. *)
Lemma rounded_add_depth (d : nat) (a b : BigDecimal) :
  Rounded.add_at (S (S d)) a b = Rounded.add a b.
Proof.
  unfold Rounded.add. cbn [Rounded.add_at].
  destruct (Z.ltb_spec (number (exponent a - exponent b)) 0) as [H|H];
    [|reflexivity].
  replace (exponent b - exponent a) with (- (exponent a - exponent b)) by lia.
  rewrite number_opp.
  destruct (Z.ltb_spec (- number (exponent a - exponent b)) 0);
    [lia | reflexivity].
Qed.

Lemma rounded_compareTo_depth (d : nat) (a b : BigDecimal) :
  Rounded.compareTo_at (S (S d)) a b = Rounded.compareTo a b.
Proof.
  unfold Rounded.compareTo.
  change (Rounded.compareTo_at (S (S d)) a b)
    with (let subject := Rounded.normalized a in
          let object := Rounded.normalized b in
          let diff := number (exponent subject - exponent object) in
          if diff <? 0 then - Rounded.compareTo_at (S d) object subject
          else
            let subject :=
              mk (significant subject * 10 ^ diff)
                 (number (exponent subject - diff)) in
            if significant subject <? significant object then -1
            else if significant subject =? significant object then 0
            else 1).
  change (Rounded.compareTo_at 2 a b)
    with (let subject := Rounded.normalized a in
          let object := Rounded.normalized b in
          let diff := number (exponent subject - exponent object) in
          if diff <? 0 then - Rounded.compareTo_at 1 object subject
          else
            let subject :=
              mk (significant subject * 10 ^ diff)
                 (number (exponent subject - diff)) in
            if significant subject <? significant object then -1
            else if significant subject =? significant object then 0
            else 1).
  cbv zeta.
  set (na := Rounded.normalized a). set (nb := Rounded.normalized b).
  destruct (Z.ltb_spec (number (exponent na - exponent nb)) 0) as [H|H];
    [|reflexivity].
  f_equal. cbn [Rounded.compareTo_at].
  rewrite !(rounded_normalized_of_normal na), !(rounded_normalized_of_normal nb)
    by apply rounded_normalized_is_normal.
  replace (exponent nb - exponent na) with (- (exponent na - exponent nb))
    by lia.
  rewrite number_opp.
  destruct (Z.ltb_spec (- number (exponent na - exponent nb)) 0);
    [lia | reflexivity].
Qed.

Ltac rounded_depth_step :=
  cbn [Rounded.roundCeiling Rounded.roundFloor Rounded.roundUp
       Rounded.roundDown Rounded.roundHalfUp Rounded.roundHalfDown
       Rounded.roundHalfEven];
  match goal with
  | |- context [signum ?x =? -1] =>
      destruct (Z.eqb_spec (signum x) (-1)) as [Hs|Hs]; [|reflexivity];
      assert (Hn : (signum (negate x) =? -1) = false)
        by (unfold signum in *; cbn [negate significant];
            destruct (Z.ltb_spec (significant x) 0);
            [ destruct (Z.ltb_spec (- significant x) 0); [lia|];
              destruct (- significant x =? 0); reflexivity
            | destruct (significant x =? 0); discriminate ]);
      rewrite !Hn; reflexivity
  end.

(** The private rounding methods call themselves at most once, on the
    negation of a negative operand, which is positive. *)
Lemma rounded_round_helpers_depth (d : nat) (x : BigDecimal) (p : Z) :
  Rounded.roundCeiling (S (S d)) x p = Rounded.roundCeiling 2 x p /\
  Rounded.roundFloor (S (S d)) x p = Rounded.roundFloor 2 x p /\
  Rounded.roundUp (S (S d)) x p = Rounded.roundUp 2 x p /\
  Rounded.roundDown (S (S d)) x p = Rounded.roundDown 2 x p /\
  Rounded.roundHalfUp (S (S d)) x p = Rounded.roundHalfUp 2 x p /\
  Rounded.roundHalfDown (S (S d)) x p = Rounded.roundHalfDown 2 x p /\
  Rounded.roundHalfEven (S (S d)) x p = Rounded.roundHalfEven 2 x p.
Proof.
  repeat split; rounded_depth_step.
Qed.

Lemma rounded_parts_depth (d : nat) (x : BigDecimal) :
  Rounded.integralPart_at (S (S d)) x = Rounded.integralPart x /\
  Rounded.decimalPart_at (S (S d)) x = Rounded.decimalPart x.
Proof.
  unfold Rounded.integralPart, Rounded.decimalPart.
  cbn [Rounded.integralPart_at Rounded.decimalPart_at negate significant].
  destruct (Z.ltb_spec (significant x) 0); [|split; reflexivity].
  destruct (Z.ltb_spec (- significant x) 0); [lia | split; reflexivity].
Qed.

(** ** Sums, products and quotients on numbers *)

Lemma log2_aligned_sum (B d : Z) (a b : BigDecimal) :
  fits B a -> fits B b -> 0 <= d <= 2 * B ->
  Z.log2 (Z.abs (significant b + significant a * 10 ^ d)) <= 9 * B + 2.
Proof.
  intros [_ Ha] [_ Hb] Hd.
  pose proof (log2_add_abs (significant b) (significant a * 10 ^ d)) as Hs.
  pose proof (log2_mul_abs (significant a) (10 ^ d)) as Hm.
  pose proof (log2_pow10 d ltac:(lia)) as Hp.
  rewrite (Z.abs_eq (10 ^ d)) in Hm by (apply Z.pow_nonneg; lia).
  lia.
Qed.

Lemma rounded_add_at (B : Z) (depth : nat) :
  forall a b, fits B a -> fits B b -> 10 * B + 2 <= 2 ^ 53 ->
    Rounded.add_at depth a b = add_at depth a b.
Proof.
  induction depth as [|depth IH]; intros a b Ha Hb HB; [reflexivity|].
  cbn [Rounded.add_at add_at].
  pose proof Ha as [Hea _]. pose proof Hb as [Heb _].
  rewrite number_exact by lia.
  destruct (Z.ltb_spec (exponent a - exponent b) 0) as [Hd|Hd].
  - apply IH; assumption.
  - apply rounded_normalized_mk.
    pose proof (log2_aligned_sum B (exponent a - exponent b) a b Ha Hb
                  ltac:(lia)).
    lia.
Qed.

Lemma rounded_add (B : Z) (a b : BigDecimal) :
  fits B a -> fits B b -> 10 * B + 2 <= 2 ^ 53 ->
  Rounded.add a b = add a b.
Proof. apply rounded_add_at. Qed.

Lemma add_fits (B : Z) (a b : BigDecimal) :
  fits B a -> fits B b -> fits (10 * B + 2) (add a b).
Proof.
  intros Ha Hb. pose proof Ha as [Hea _]. pose proof Hb as [Heb _].
  unfold add. destruct (Z.lt_ge_cases (exponent a) (exponent b)) as [H|H].
  - rewrite add_exchanged, add_aligned by lia.
    replace (10 * B + 2) with (B + (9 * B + 2)) by lia.
    apply normalized_fits_mk; [lia|].
    apply log2_aligned_sum; [assumption | assumption | lia].
  - rewrite add_aligned by lia.
    replace (10 * B + 2) with (B + (9 * B + 2)) by lia.
    apply normalized_fits_mk; [lia|].
    apply log2_aligned_sum; [assumption | assumption | lia].
Qed.

Lemma rounded_subtract (B : Z) (a b : BigDecimal) :
  fits B a -> fits B b -> 10 * B + 2 <= 2 ^ 53 ->
  Rounded.subtract a b = subtract a b.
Proof.
  intros Ha Hb HB. unfold Rounded.subtract, subtract.
  apply (rounded_add B); [exact Ha | apply fits_negate; exact Hb | exact HB].
Qed.

Lemma subtract_fits (B : Z) (a b : BigDecimal) :
  fits B a -> fits B b -> fits (10 * B + 2) (subtract a b).
Proof.
  intros Ha Hb. unfold subtract.
  apply add_fits; [exact Ha | apply fits_negate; exact Hb].
Qed.

Lemma rounded_multiply (B : Z) (a b : BigDecimal) :
  fits B a -> fits B b -> 4 * B + 1 <= 2 ^ 53 ->
  Rounded.multiply a b = multiply a b.
Proof.
  intros [Hea Hla] [Heb Hlb] HB. unfold Rounded.multiply, multiply.
  rewrite number_exact by lia.
  apply rounded_normalized_mk.
  pose proof (log2_mul_abs (significant a) (significant b)). lia.
Qed.

Lemma multiply_fits (B : Z) (a b : BigDecimal) :
  fits B a -> fits B b -> fits (4 * B + 1) (multiply a b).
Proof.
  intros [Hea Hla] [Heb Hlb]. unfold multiply.
  replace (4 * B + 1) with (2 * B + (2 * B + 1)) by lia.
  apply normalized_fits_mk; [lia|].
  pose proof (log2_mul_abs (significant a) (significant b)). lia.
Qed.

Lemma rounded_scaleByPowerOfTen (B : Z) (x : BigDecimal) (e : Z) :
  fits B x -> Z.abs e <= B -> 3 * B <= 2 ^ 53 ->
  Rounded.scaleByPowerOfTen x e = scaleByPowerOfTen x e.
Proof.
  intros [Hex Hlx] He HB. unfold Rounded.scaleByPowerOfTen, scaleByPowerOfTen.
  rewrite number_exact by lia.
  apply rounded_normalized_mk. lia.
Qed.

Lemma scaleByPowerOfTen_fits (B : Z) (x : BigDecimal) (e : Z) :
  fits B x -> Z.abs e <= B -> fits (3 * B) (scaleByPowerOfTen x e).
Proof.
  intros [Hex Hlx] He. unfold scaleByPowerOfTen.
  replace (3 * B) with (2 * B + B) by lia.
  apply normalized_fits_mk; lia.
Qed.

Lemma log2_pow_abs (m n : Z) :
  0 <= n -> Z.log2 (Z.abs (m ^ n)) <= n * (Z.log2 (Z.abs m) + 1).
Proof.
  intros Hn. rewrite Z.abs_pow.
  pose proof (Z.log2_nonneg (Z.abs m)) as Hl.
  assert (Hlt : Z.abs m <= 2 ^ (Z.log2 (Z.abs m) + 1)).
  { destruct (Z.eq_dec (Z.abs m) 0) as [->|H0].
    - apply Z.pow_nonneg. lia.
    - pose proof (Z.log2_spec (Z.abs m) ltac:(lia)) as [_ H].
      rewrite <- Z.add_1_r in H. lia. }
  assert (Hp : Z.abs m ^ n <= (2 ^ (Z.log2 (Z.abs m) + 1)) ^ n)
    by (apply Z.pow_le_mono_l; lia).
  rewrite <- Z.pow_mul_r in Hp by lia.
  apply Z.log2_le_mono in Hp. rewrite Z.log2_pow2 in Hp by nia. lia.
Qed.

Lemma rounded_pow (B N : Z) (x : BigDecimal) (n : Z) :
  fits B x -> n <= N -> N * (2 * B + 1) <= 2 ^ 53 ->
  Rounded.pow x n = pow x n.
Proof.
  intros [Hex Hlx] Hn HB. unfold Rounded.pow, pow.
  destruct (Z.ltb_spec n 0) as [|Hn0]; [reflexivity|]. f_equal.
  pose proof (log2_pow_abs (significant x) n Hn0) as Hp.
  pose proof (Z.log2_nonneg (Z.abs (significant x))) as Hl.
  assert (He : Z.abs (exponent x * n) <= N * B) by (rewrite Z.abs_mul; nia).
  assert (Hl' : n * (Z.log2 (Z.abs (significant x)) + 1) <= N * (B + 1))
    by nia.
  rewrite number_exact by nia.
  apply rounded_normalized_mk. nia.
Qed.

Lemma pow_fits (B N : Z) (x r : BigDecimal) (n : Z) :
  fits B x -> n <= N -> pow x n = Ok r -> fits (N * (2 * B + 1)) r.
Proof.
  intros [Hex Hlx] Hn. unfold pow.
  destruct (Z.ltb_spec n 0) as [|Hn0]; [discriminate|].
  intros Hr. injection Hr as <-.
  pose proof (log2_pow_abs (significant x) n Hn0) as Hp.
  pose proof (Z.log2_nonneg (Z.abs (significant x))) as Hl.
  replace (N * (2 * B + 1)) with (N * B + N * (B + 1)) by lia.
  apply normalized_fits_mk; [rewrite Z.abs_mul; nia | nia].
Qed.

Lemma rounded_divide_loop (budget : nat) :
  forall m e d, Z.abs e + Z.of_nat budget <= 2 ^ 53 ->
    Rounded.divide_loop budget m e d = divide_loop budget m e d.
Proof.
  induction budget as [|budget IH]; intros m e d He; [reflexivity|].
  cbn [Rounded.divide_loop divide_loop].
  destruct (Z.rem m d =? 0); [reflexivity|].
  rewrite number_exact by lia. apply IH. lia.
Qed.

Lemma divide_quotient_size (B k : Z) (a b : BigDecimal) :
  fits B a -> 0 <= k <= 10 ->
  Z.log2 (Z.abs (Z.quot (significant a * 10 ^ k) (significant b)))
  <= B + 41.
Proof.
  intros [_ Hla] Hk.
  pose proof (log2_quot_abs (significant a * 10 ^ k) (significant b)).
  pose proof (log2_mul_abs (significant a) (10 ^ k)) as Hm.
  rewrite (Z.abs_eq (10 ^ k)) in Hm by (apply Z.pow_nonneg; lia).
  pose proof (log2_pow10 k ltac:(lia)). lia.
Qed.

Lemma rounded_divide (B : Z) (a b : BigDecimal) :
  fits B a -> fits B b -> 3 * B + 51 <= 2 ^ 53 ->
  Rounded.divide a b = divide a b.
Proof.
  intros Ha Hb HB. pose proof Ha as [Hea Hla]. pose proof Hb as [Heb Hlb].
  unfold Rounded.divide, divide.
  destruct (significant b =? 0); [reflexivity|].
  destruct (significant a =? 0); [reflexivity|].
  rewrite rounded_divide_loop by (cbn; lia).
  destruct (divide_loop_spec 10 (significant a) (exponent a) (significant b))
    as (k & Hk & -> & _). cbn [Z.of_nat Pos.of_succ_nat Pos.succ] in Hk.
  pose proof (divide_quotient_size B k a b Ha ltac:(lia)).
  rewrite number_exact by lia. f_equal.
  apply rounded_normalized_mk. lia.
Qed.

Lemma divide_fits (B : Z) (a b q : BigDecimal) :
  fits B a -> fits B b -> divide a b = Ok q -> fits (3 * B + 51) q.
Proof.
  intros Ha Hb. pose proof Ha as [Hea Hla]. pose proof Hb as [Heb Hlb].
  unfold divide.
  destruct (significant b =? 0);
    [destruct (significant a =? 0); discriminate|].
  destruct (significant a =? 0).
  - intros Hq. injection Hq as <-. apply fits_zero. lia.
  - destruct (divide_loop_spec 10 (significant a) (exponent a) (significant b))
      as (k & Hk & -> & _). cbn [Z.of_nat Pos.of_succ_nat Pos.succ] in Hk.
    intros Hq. injection Hq as <-.
    pose proof (divide_quotient_size B k a b Ha ltac:(lia)).
    replace (3 * B + 51) with (2 * B + 10 + (B + 41)) by lia.
    apply normalized_fits_mk; lia.
Qed.

(** ** Rounding, comparison and the parts on numbers *)

Ltac rounded_helper_step IH :=
  let Hn := fresh in
  cbn [Rounded.roundCeiling Rounded.roundFloor Rounded.roundUp
       Rounded.roundDown Rounded.roundHalfUp Rounded.roundHalfDown
       Rounded.roundHalfEven roundCeiling roundFloor roundUp roundDown
       roundHalfUp roundHalfDown roundHalfEven];
  destruct (signum _ =? -1);
  [ rewrite IH by (cbn [negate exponent]; assumption); reflexivity
  | rewrite number_exact by lia; reflexivity ].

Lemma rounded_roundCeiling_roundFloor (depth : nat) (p : Z) :
  forall x, Z.abs (exponent x) + Z.abs p <= 2 ^ 53 ->
    Rounded.roundCeiling depth x p = roundCeiling depth x p /\
    Rounded.roundFloor depth x p = roundFloor depth x p.
Proof.
  induction depth as [|depth IH]; intros x Hx; [split; reflexivity|].
  split.
  - pose proof (fun y H => proj2 (IH y H)) as IHf. rounded_helper_step IHf.
  - pose proof (fun y H => proj1 (IH y H)) as IHc. rounded_helper_step IHc.
Qed.

Lemma rounded_roundUp (depth : nat) (p : Z) :
  forall x, Z.abs (exponent x) + Z.abs p <= 2 ^ 53 ->
    Rounded.roundUp depth x p = roundUp depth x p.
Proof.
  induction depth as [|depth IH]; intros x Hx; [reflexivity|].
  rounded_helper_step IH.
Qed.

Lemma rounded_roundDown (depth : nat) (p : Z) :
  forall x, Z.abs (exponent x) + Z.abs p <= 2 ^ 53 ->
    Rounded.roundDown depth x p = roundDown depth x p.
Proof.
  induction depth as [|depth IH]; intros x Hx; [reflexivity|].
  rounded_helper_step IH.
Qed.

Lemma rounded_roundHalfUp (depth : nat) (p : Z) :
  forall x, Z.abs (exponent x) + Z.abs p <= 2 ^ 53 ->
    Rounded.roundHalfUp depth x p = roundHalfUp depth x p.
Proof.
  induction depth as [|depth IH]; intros x Hx; [reflexivity|].
  rounded_helper_step IH.
Qed.

Lemma rounded_roundHalfDown (depth : nat) (p : Z) :
  forall x, Z.abs (exponent x) + Z.abs p <= 2 ^ 53 ->
    Rounded.roundHalfDown depth x p = roundHalfDown depth x p.
Proof.
  induction depth as [|depth IH]; intros x Hx; [reflexivity|].
  rounded_helper_step IH.
Qed.

Lemma rounded_roundHalfEven (depth : nat) (p : Z) :
  forall x, Z.abs (exponent x) + Z.abs p <= 2 ^ 53 ->
    Rounded.roundHalfEven depth x p = roundHalfEven depth x p.
Proof.
  induction depth as [|depth IH]; intros x Hx; [reflexivity|].
  rounded_helper_step IH.
Qed.

(** What a private rounding method returns has the exponent [-precision]
    and at most one bit more than its operand. *)
Lemma round_helper_size (mode : RoundingMode) (n : BigDecimal) (p : Z) :
  significant n <> 0 -> 0 < - exponent n - p ->
  exponent (round_helper mode 2 n p) = - p /\
  Z.log2 (Z.abs (significant (round_helper mode 2 n p)))
  <= Z.log2 (Z.abs (significant n)) + 1.
Proof.
  intros Hn Hk.
  assert (Hpos : forall mode' y, 0 < significant y -> 0 < - exponent y - p ->
            exponent (round_helper mode' 1 y p) = - p /\
            Z.log2 (Z.abs (significant (round_helper mode' 1 y p)))
            <= Z.log2 (Z.abs (significant y)) + 1).
  { intros mode' y Hy Hky. rewrite round_helper_positive by assumption.
    cbn [significant exponent]. split; [reflexivity|].
    assert (Hkept : 0 <= keptDigits y p <= Z.abs (significant y)).
    { unfold keptDigits.
      pose proof (Z.pow_pos_nonneg 10 (- exponent y - p) ltac:(lia) ltac:(lia)).
      split; [apply Z.div_pos; lia|].
      apply Z.div_le_upper_bound; [lia|]. nia. }
    pose proof (log2_add_abs (keptDigits y p) 1) as Hadd.
    pose proof (Z.log2_le_mono (Z.abs (keptDigits y p))
                  (Z.abs (significant y)) ltac:(lia)) as Hmono.
    pose proof (Z.log2_nonneg (Z.abs (keptDigits y p))).
    change (Z.log2 (Z.abs 1)) with 0 in Hadd.
    destruct (increments mode' (keptDigits y p) (nextDigit y p)); lia. }
  destruct (Z.lt_trichotomy (significant n) 0) as [H|[H|H]]; [|lia|].
  - rewrite round_helper_negative by exact H.
    destruct (Hpos (mirror mode) (negate n)) as [He Hl];
      [cbn; lia | cbn; lia |].
    cbn [negate significant exponent] in *.
    rewrite Z.abs_opp in *. split; [exact He | exact Hl].
  - rewrite round_helper_nonnegative by lia. apply Hpos; assumption.
Qed.

Lemma rounded_round_props (B : Z) (x : BigDecimal) (mode : RoundingMode)
  (p : Z) :
  fits B x -> Z.abs p <= B -> 3 * B + 1 <= 2 ^ 53 ->
  Rounded.round_props x mode p false = round_props x mode p false.
Proof.
  intros Hx Hp HB. pose proof (normalized_fits B x Hx) as [Hen Hln].
  rewrite round_props_helper. unfold Rounded.round_props. cbv zeta.
  rewrite (rounded_normalized B x Hx) by lia.
  set (n := normalized x) in *.
  destruct (Z.eqb_spec (signum n) 0) as [|Hs]; [reflexivity|].
  rewrite number_exact by lia.
  destruct (Z.leb_spec (- exponent n - p) 0) as [|Hk]; [reflexivity|].
  assert (Hnz : significant n <> 0).
  { intros H0. apply Hs. apply signum_zero. exact H0. }
  destruct (round_helper_size mode n p Hnz Hk) as [He Hl].
  assert (Hh : match mode with
               | Ceiling => Rounded.roundCeiling 2 n p
               | Floor => Rounded.roundFloor 2 n p
               | Up => Rounded.roundUp 2 n p
               | Down => Rounded.roundDown 2 n p
               | HalfUp => Rounded.roundHalfUp 2 n p
               | HalfDown => Rounded.roundHalfDown 2 n p
               | HalfEven => Rounded.roundHalfEven 2 n p
               end = round_helper mode 2 n p).
  { destruct mode; cbn [round_helper];
      first [ apply rounded_roundCeiling_roundFloor
            | apply rounded_roundUp | apply rounded_roundDown
            | apply rounded_roundHalfUp | apply rounded_roundHalfDown
            | apply rounded_roundHalfEven ]; lia. }
  transitivity (Rounded.normalized (round_helper mode 2 n p)).
  { rewrite <- Hh. destruct mode; reflexivity. }
  destruct (round_helper mode 2 n p) as [mh eh] eqn:Hr.
  cbn [significant exponent] in He, Hl.
  apply rounded_normalized_mk. lia.
Qed.

Lemma rounded_round (B : Z) (x : BigDecimal) (mode : RoundingMode) (p : Z) :
  fits B x -> Z.abs p <= B -> 3 * B + 1 <= 2 ^ 53 ->
  Rounded.round x mode p = round x mode p.
Proof. apply rounded_round_props. Qed.

Lemma round_fits (B : Z) (x : BigDecimal) (mode : RoundingMode) (p : Z) :
  fits B x -> Z.abs p <= B -> fits (2 * B + 1) (round x mode p).
Proof.
  intros Hx Hp. pose proof (normalized_fits B x Hx) as Hn.
  pose proof Hn as [Hen Hln].
  unfold round. rewrite round_props_helper. cbv zeta.
  set (n := normalized x) in *.
  destruct (Z.eqb_spec (signum n) 0) as [|Hs]; [apply fits_zero; lia|].
  destruct (Z.leb_spec (- exponent n - p) 0) as [|Hk];
    [apply (fits_le (2 * B)); [exact Hn | lia]|].
  assert (Hnz : significant n <> 0).
  { intros H0. apply Hs. apply signum_zero. exact H0. }
  destruct (round_helper_size mode n p Hnz Hk) as [He Hl].
  destruct (round_helper mode 2 n p) as [mh eh] eqn:Hr.
  cbn [significant exponent] in He, Hl.
  assert (Hlx : Z.log2 (Z.abs (significant n)) <= B).
  { destruct Hx as [_ Hlx].
    destruct (Z.eq_dec (significant x) 0) as [Hz|Hxz].
    - unfold n. rewrite (normalized_zero x Hz). cbn. lia.
    - destruct (normalized_shape x Hxz) as (k & Hk0 & _ & Hm & _).
      pose proof (log2_factor_pow10 _ _ k Hxz Hk0 Hm). fold n in H. lia. }
  replace (2 * B + 1) with (B + (B + 1)) by lia.
  apply normalized_fits_mk; lia.
Qed.

Lemma rounded_equalValue (B : Z) (x y : BigDecimal) :
  fits B x -> fits B y -> 2 * B <= 2 ^ 53 ->
  Rounded.equalValue x y = equalValue x y.
Proof.
  intros Hx Hy HB. unfold Rounded.equalValue, equalValue.
  rewrite (rounded_normalized B x), (rounded_normalized B y) by assumption.
  reflexivity.
Qed.

Lemma rounded_compareTo_once (B : Z) (a b : BigDecimal) :
  fits B a -> fits B b -> 4 * B <= 2 ^ 53 ->
  Rounded.compareTo_at 1 a b = compareTo_at 1 a b.
Proof.
  intros Ha Hb HB. cbn [Rounded.compareTo_at compareTo_at].
  pose proof (normalized_fits B a Ha) as [Hea _].
  pose proof (normalized_fits B b Hb) as [Heb _].
  rewrite (rounded_normalized B a), (rounded_normalized B b) by (assumption || lia).
  rewrite number_exact by lia. reflexivity.
Qed.

Lemma rounded_compareTo (B : Z) (a b : BigDecimal) :
  fits B a -> fits B b -> 8 * B <= 2 ^ 53 ->
  Rounded.compareTo a b = compareTo a b.
Proof.
  intros Ha Hb HB. unfold Rounded.compareTo, compareTo.
  pose proof (normalized_fits B a Ha) as Hna.
  pose proof (normalized_fits B b Hb) as Hnb.
  pose proof Hna as [Hea _]. pose proof Hnb as [Heb _].
  change (Rounded.compareTo_at 2 a b)
    with (let subject := Rounded.normalized a in
          let object := Rounded.normalized b in
          let diff := number (exponent subject - exponent object) in
          if diff <? 0 then - Rounded.compareTo_at 1 object subject
          else
            let subject :=
              mk (significant subject * 10 ^ diff)
                 (number (exponent subject - diff)) in
            if significant subject <? significant object then -1
            else if significant subject =? significant object then 0
            else 1).
  change (compareTo_at 2 a b)
    with (let subject := normalized a in
          let object := normalized b in
          let diff := exponent subject - exponent object in
          if diff <? 0 then - compareTo_at 1 object subject
          else
            let subject :=
              mk (significant subject * 10 ^ diff) (exponent subject - diff) in
            if significant subject <? significant object then -1
            else if significant subject =? significant object then 0
            else 1).
  cbv zeta.
  rewrite (rounded_normalized B a), (rounded_normalized B b) by (assumption || lia).
  rewrite number_exact by lia.
  rewrite (rounded_compareTo_once (2 * B)) by (assumption || lia).
  reflexivity.
Qed.

Lemma rounded_min_max (B : Z) (a b : BigDecimal) :
  fits B a -> fits B b -> 8 * B <= 2 ^ 53 ->
  Rounded.min a b = min a b /\ Rounded.max a b = max a b.
Proof.
  intros Ha Hb HB. unfold Rounded.min, Rounded.max, min, max.
  rewrite (rounded_compareTo B) by assumption. split; reflexivity.
Qed.

Lemma rounded_parts_at (B : Z) (depth : nat) :
  forall x, fits B x -> 2 * B <= 2 ^ 53 ->
    Rounded.integralPart_at depth x = integralPart_at depth x /\
    Rounded.decimalPart_at depth x = decimalPart_at depth x.
Proof.
  induction depth as [|depth IH]; intros x Hx HB; [split; reflexivity|].
  cbn [Rounded.integralPart_at integralPart_at
       Rounded.decimalPart_at decimalPart_at].
  destruct (significant x <? 0).
  - destruct (IH (negate x) (fits_negate B x Hx) HB) as [-> ->].
    split; reflexivity.
  - rewrite (rounded_normalized B x Hx HB). split; reflexivity.
Qed.

Lemma rounded_parts (B : Z) (x : BigDecimal) :
  fits B x -> 2 * B <= 2 ^ 53 ->
  Rounded.integralPart x = integralPart x /\
  Rounded.decimalPart x = decimalPart x.
Proof. apply rounded_parts_at. Qed.

Lemma parts_fits (B : Z) (x : BigDecimal) :
  fits B x -> fits (2 * B) (integralPart x) /\ fits (2 * B) (decimalPart x).
Proof.
  assert (Hnn : forall y, fits B y -> 0 <= significant y ->
            fits (2 * B) (integralPart y) /\ fits (2 * B) (decimalPart y)).
  { intros y Hy Hs. pose proof (normalized_fits B y Hy) as Hn.
    pose proof Hn as [Hen Hln].
    rewrite (integralPart_nonnegative y Hs), (decimalPart_nonnegative y Hs).
    destruct (exponent (normalized y) >=? 0).
    - split; [exact Hn | apply fits_zero; lia].
    - split; split; cbn [significant exponent]; try lia.
      + pose proof (log2_quot_abs (significant (normalized y))
                      (10 ^ (- exponent (normalized y)))). lia.
      + pose proof (log2_rem_abs (significant (normalized y))
                      (10 ^ (- exponent (normalized y)))). lia. }
  intros Hx. destruct (Z.lt_ge_cases (significant x) 0) as [H|H].
  - rewrite (integralPart_negative x H), (decimalPart_negative x H).
    destruct (Hnn (negate x) (fits_negate B x Hx) ltac:(cbn; lia)) as [Hi Hd].
    split; apply fits_negate; assumption.
  - apply Hnn; assumption.
Qed.

Lemma rounded_divideToIntegralValue (B : Z) (a b : BigDecimal) :
  fits B a -> fits B b -> 9 * B + 154 <= 2 ^ 53 ->
  Rounded.divideToIntegralValue a b = divideToIntegralValue a b.
Proof.
  intros Ha Hb HB. unfold Rounded.divideToIntegralValue, divideToIntegralValue.
  rewrite (rounded_divide B a b Ha Hb) by lia.
  destruct (divide a b) as [q|] eqn:Hq; [|reflexivity]. cbn [bind].
  pose proof (divide_fits B a b q Ha Hb Hq) as Hfq.
  pose proof (fits_nonneg B a Ha).
  rewrite (rounded_round (3 * B + 51))
    by first [assumption | change (Z.abs 0) with 0; lia | lia].
  reflexivity.
Qed.

Lemma divideToIntegralValue_fits (B : Z) (a b t : BigDecimal) :
  fits B a -> fits B b -> divideToIntegralValue a b = Ok t ->
  fits (6 * B + 103) t.
Proof.
  intros Ha Hb. unfold divideToIntegralValue.
  destruct (divide a b) as [q|] eqn:Hq; [|discriminate]. cbn [bind].
  intros Ht. injection Ht as <-.
  pose proof (divide_fits B a b q Ha Hb Hq) as Hfq.
  pose proof (fits_nonneg B a Ha).
  replace (6 * B + 103) with (2 * (3 * B + 51) + 1) by lia.
  apply round_fits; [exact Hfq | change (Z.abs 0) with 0; lia].
Qed.

Lemma rounded_remainder (B : Z) (a b : BigDecimal) :
  fits B a -> fits B b -> 240 * B + 4132 <= 2 ^ 53 ->
  Rounded.remainder a b = remainder a b.
Proof.
  intros Ha Hb HB. pose proof (fits_nonneg B a Ha) as HB0.
  unfold Rounded.remainder, remainder.
  rewrite (rounded_divideToIntegralValue B a b Ha Hb) by lia.
  destruct (divideToIntegralValue a b) as [t|] eqn:Ht; [|reflexivity].
  cbn [bind]. f_equal.
  pose proof (divideToIntegralValue_fits B a b t Ha Hb Ht) as Hft.
  assert (Hb' : fits (6 * B + 103) b) by (apply (fits_le B); [exact Hb | lia]).
  rewrite (rounded_multiply (6 * B + 103) t b Hft Hb') by lia.
  pose proof (multiply_fits (6 * B + 103) t b Hft Hb') as Hfm.
  apply (rounded_subtract (4 * (6 * B + 103) + 1));
    [apply (fits_le B); [exact Ha | lia] | exact Hfm | lia].
Qed.

(** ** Exact values on numbers: parts, quotients and remainders *)

Lemma moderate_fits (B : Z) (x : BigDecimal) :
  moderate x -> 2 ^ 40 <= B -> fits B x.
Proof. intros Hx HB. apply (fits_le (2 ^ 40)); assumption. Qed.

Ltac numeric :=
  change (2 ^ 40) with 1099511627776 in *;
  change (2 ^ 53) with 9007199254740992 in *;
  lia.

Ltac sized :=
  lazymatch goal with
  | |- fits _ (negate _) => apply fits_negate; sized
  | |- fits _ (add _ _) => apply add_fits; sized
  | |- fits _ (subtract _ _) => apply subtract_fits; sized
  | |- fits _ (multiply _ _) => apply multiply_fits; sized
  | |- fits _ (normalized _) => apply normalized_fits; sized
  | |- fits _ (integralPart _) => apply parts_fits; sized
  | |- fits _ (decimalPart _) => apply parts_fits; sized
  | |- fits _ _ =>
      first [ assumption
            | apply moderate_fits; [assumption | numeric]
            | split; vm_compute; discriminate ]
  | |- _ => numeric
  end.

(** C7. On a value of moderate size [integralPart] truncates toward zero;
    the integral part plus the decimal part is the operand again, exactly;
    on a negative operand both parts are computed on the negation and
    negated back, so that neither part has the sign opposite to the
    operand. *)
Theorem integral_decimal_split (x : BigDecimal) :
  moderate x ->
  (toQ (Rounded.integralPart x) == inject_Z (Qtruncate (toQ x)))%Q /\
  Rounded.equalValue
    (Rounded.add (Rounded.integralPart x) (Rounded.decimalPart x)) x = true /\
  (toQ (Rounded.add (Rounded.integralPart x) (Rounded.decimalPart x))
   == toQ x)%Q /\
  (significant x < 0 ->
     Rounded.integralPart x = negate (Rounded.integralPart (negate x)) /\
     Rounded.decimalPart x = negate (Rounded.decimalPart (negate x))) /\
  0 <= significant (Rounded.integralPart x) * significant x /\
  0 <= significant (Rounded.decimalPart x) * significant x.
Proof.
  intros Hx.
  destruct (rounded_parts (2 ^ 40) x) as [Hi Hd]; [sized | sized |].
  destruct (rounded_parts (2 ^ 40) (negate x)) as [Hin Hdn]; [sized | sized |].
  destruct (parts_fits (2 ^ 40) x Hx) as [Hfi Hfd].
  rewrite Hi, Hd, Hin, Hdn.
  rewrite (rounded_add (2 * 2 ^ 40)) by sized.
  rewrite (rounded_equalValue (10 * (2 * 2 ^ 40) + 2)) by sized.
  apply integral_decimal_split_ideal.
Qed.

Lemma integral_decimal_split_witness :
  Rounded.equalValue
    (Rounded.add (Rounded.integralPart (mk (-1275) (-2)))
                 (Rounded.decimalPart (mk (-1275) (-2))))
    (mk (-1275) (-2)) = true.
Proof.
  refine (proj1 (proj2 (integral_decimal_split (mk (-1275) (-2)) _))).
  split; vm_compute; discriminate.
Defined.

(** An integer written with a hundred and an exponent is not a tenth of
    itself. *)
Lemma toQ_tenth_of_hundred (e : Z) :
  0 <= e ->
  ~ (toQ (mk 1 (e + 1)) == inject_Z (Qtruncate (toQ (mk 100 e))))%Q.
Proof.
  intros He H.
  assert (Hx : (toQ (mk 100 e) == inject_Z (100 * 10 ^ e))%Q)
    by (apply toQ_integer_nonneg; exact He).
  rewrite (Qtruncate_comp _ _ Hx), Qtruncate_integer in H.
  assert (H' : (toQ (mk 100 e) == toQ (mk 1 (e + 1)))%Q)
    by (rewrite Hx, H; reflexivity).
  apply toQ_eq_aligned in H'; [|lia].
  replace (e + 1 - e) with 1 in H' by lia.
  change (1 * 10 ^ 1) with 10 in H'. discriminate.
Qed.

(** Without a bound on the exponent the property fails: [exponent++]
    rounds from [2 ^ 53] on, and the integral part of
    [new BigDecimal(100n, 9007199254740991)] is
    [new BigDecimal(1n, 9007199254740992)], a tenth of the operand. *)
Lemma integral_decimal_split_overflow :
  ~ (forall x,
       (toQ (Rounded.integralPart x) == inject_Z (Qtruncate (toQ x)))%Q).
Proof.
  intros H. specialize (H (mk 100 9007199254740991)).
  assert (Hi : Rounded.integralPart (mk 100 9007199254740991)
               = mk 1 (9007199254740991 + 1)) by (vm_compute; reflexivity).
  rewrite Hi in H.
  exact (toQ_tenth_of_hundred 9007199254740991 ltac:(lia) H).
Qed.

(** C8. On nonzero operands of moderate size [divide] multiplies the
    significant of the dividend by ten at most ten times, lowering the
    working exponent by one each time, and stops at the first count [k] at
    which the divisor's significant divides it; it then divides the
    significants, truncating.  The quotient is exact when that division
    leaves no remainder; otherwise all ten steps were taken and the quotient
    is within one unit of the tenth extra digit of the exact one. *)
Theorem divide_scaling_budget (a b : BigDecimal) :
  moderate a -> moderate b ->
  significant a <> 0 -> significant b <> 0 ->
  exists k q,
    0 <= k <= 10 /\
    (forall i, 0 <= i < k ->
       Z.rem (significant a * 10 ^ i) (significant b) <> 0) /\
    (k < 10 -> Z.rem (significant a * 10 ^ k) (significant b) = 0) /\
    q = normalized (mk (Z.quot (significant a * 10 ^ k) (significant b))
                       (exponent a - k - exponent b)) /\
    Rounded.divide a b = Ok q /\
    (Z.rem (significant a * 10 ^ k) (significant b) = 0 ->
       (toQ q == toQ a / toQ b)%Q) /\
    (Z.rem (significant a * 10 ^ k) (significant b) <> 0 ->
       k = 10 /\
       (Qabs (toQ a / toQ b - toQ q)
        < (10 # 1) ^ (exponent a - exponent b - 10))%Q).
Proof.
  intros Hma Hmb Ha Hb.
  rewrite (rounded_divide (2 ^ 40)) by sized.
  apply divide_scaling_budget_ideal; assumption.
Qed.

Lemma divide_scaling_budget_witness :
  exists k q,
    0 <= k <= 10 /\
    (forall i, 0 <= i < k -> Z.rem (1 * 10 ^ i) 8 <> 0) /\
    (k < 10 -> Z.rem (1 * 10 ^ k) 8 = 0) /\
    q = normalized (mk (Z.quot (1 * 10 ^ k) 8) (0 - k - 0)) /\
    Rounded.divide (mk 1 0) (mk 8 0) = Ok q /\
    (Z.rem (1 * 10 ^ k) 8 = 0 ->
       (toQ q == toQ (mk 1 0) / toQ (mk 8 0))%Q) /\
    (Z.rem (1 * 10 ^ k) 8 <> 0 ->
       k = 10 /\
       (Qabs (toQ (mk 1 0) / toQ (mk 8 0) - toQ q) < (10 # 1) ^ (0 - 0 - 10))%Q).
Proof.
  refine (divide_scaling_budget (mk 1 0) (mk 8 0) _ _ _ _);
    first [discriminate | split; vm_compute; discriminate].
Defined.

(** An eighth, written with three more digits, is not the same digits one
    place further up. *)
Lemma toQ_eighth_misplaced (e : Z) :
  ~ (toQ (mk 125 (e - 1)) == toQ (mk 1 e) / toQ (mk 8 0))%Q.
Proof.
  intros H.
  assert (H8 : (toQ (mk 8 0) == inject_Z 8)%Q) by apply toQ_integer.
  assert (Hq : (inject_Z 8 * toQ (mk 125 (e - 1)) == toQ (mk 1 e))%Q).
  { rewrite H, H8. field. }
  rewrite toQ_scale_integer in Hq.
  change (8 * 125) with (1000 * 10 ^ 0) in Hq.
  assert (He : (toQ (mk 1 e) == toQ (mk (1 * 10 ^ 1) (e - 1)))%Q).
  { rewrite toQ_shift by lia. replace (e - 1 + 1) with e by lia. reflexivity. }
  rewrite He in Hq.
  apply toQ_eq_aligned in Hq; [|lia].
  rewrite Z.sub_diag in Hq. discriminate.
Qed.

(** Without a bound on the exponent the property fails: [thisExponent--]
    rounds below [-2 ^ 53], and [new BigDecimal(1n, -9007199254740991)] divided by
    eight, where three steps make the division even, comes out as
    [new BigDecimal(125n, -9007199254740992)], a hundred times the exact
    quotient. *)
Lemma divide_scaling_budget_overflow :
  ~ (forall a b q k,
       significant a <> 0 -> significant b <> 0 ->
       Rounded.divide a b = Ok q ->
       0 <= k <= 10 ->
       Z.rem (significant a * 10 ^ k) (significant b) = 0 ->
       (toQ q == toQ a / toQ b)%Q).
Proof.
  intros H.
  assert (Hd : Rounded.divide (mk 1 (-9007199254740991)) (mk 8 0)
               = Ok (mk 125 (-9007199254740991 - 1)))
    by (vm_compute; reflexivity).
  exact (toQ_eighth_misplaced (-9007199254740991)
           (H (mk 1 (-9007199254740991)) (mk 8 0)
              (mk 125 (-9007199254740991 - 1)) 3
              ltac:(discriminate) ltac:(discriminate) Hd
              ltac:(lia) ltac:(reflexivity))).
Qed.

(** C9. For operands of moderate size and a divisor that is not zero,
    [remainder] is the dividend minus the integral quotient times the
    divisor, exactly, and lies between zero and the dividend: it is never of
    the sign opposite to the dividend, and it is negative for some operands,
    as for -7 and 2. *)
Theorem remainder_follows_dividend (a b : BigDecimal) :
  moderate a -> moderate b ->
  significant b <> 0 ->
  exists q r,
    Rounded.divideToIntegralValue a b = Ok q /\
    Rounded.remainder a b = Ok r /\
    r = Rounded.subtract a (Rounded.multiply q b) /\
    (toQ r == toQ a - toQ q * toQ b)%Q /\
    Qbetween0 (toQ r) (toQ a) /\
    0 <= significant r * significant a /\
    Rounded.remainder (mk (-7) 0) (mk 2 0) = Ok (mk (-1) 0).
Proof.
  intros Ha Hb Hnz.
  destruct (remainder_follows_dividend_ideal a b Hnz)
    as (q & r & Hq & Hr & _ & Hval & Hbt & Hs & _).
  assert (Hq' : Rounded.divideToIntegralValue a b = Ok q)
    by (rewrite (rounded_divideToIntegralValue (2 ^ 40)) by sized; exact Hq).
  assert (Hr' : Rounded.remainder a b = Ok r)
    by (rewrite (rounded_remainder (2 ^ 40)) by sized; exact Hr).
  exists q, r. split; [exact Hq'|]. split; [exact Hr'|].
  split.
  - unfold Rounded.remainder in Hr'. rewrite Hq' in Hr'. cbn [bind] in Hr'.
    injection Hr' as <-. reflexivity.
  - split; [exact Hval|]. split; [exact Hbt|]. split; [exact Hs|].
    vm_compute. reflexivity.
Qed.

Lemma remainder_follows_dividend_witness :
  exists q r,
    Rounded.divideToIntegralValue (mk 75 (-1)) (mk (-2) 0) = Ok q /\
    Rounded.remainder (mk 75 (-1)) (mk (-2) 0) = Ok r /\
    r = Rounded.subtract (mk 75 (-1)) (Rounded.multiply q (mk (-2) 0)) /\
    (toQ r == toQ (mk 75 (-1)) - toQ q * toQ (mk (-2) 0))%Q /\
    Qbetween0 (toQ r) (toQ (mk 75 (-1))) /\
    0 <= significant r * significant (mk 75 (-1)) /\
    Rounded.remainder (mk (-7) 0) (mk 2 0) = Ok (mk (-1) 0).
Proof.
  refine (remainder_follows_dividend (mk 75 (-1)) (mk (-2) 0) _ _ _);
    first [discriminate | split; vm_compute; discriminate].
Defined.

(** Ninety-one tens of a unit are not a thousand units less nine hundred. *)
Lemma toQ_remainder_misplaced (e : Z) :
  ~ (toQ (mk 91 (e + 1))
     == toQ (mk 1000 e) - toQ (mk 3 0) * toQ (mk 300 e))%Q.
Proof.
  intros H.
  rewrite toQ_integer, toQ_scale_integer, toQ_diff_aligned in H.
  rewrite <- (toQ_shift 91 e 1) in H by lia.
  apply toQ_eq_aligned in H; [|lia].
  rewrite Z.sub_diag in H. discriminate.
Qed.

(** Without a bound on the exponents the property fails: the product of
    the integral quotient and the divisor is normalized with an [exponent++] that rounds.  For
    [new BigDecimal(1000n, 9007199254740991)] and
    [new BigDecimal(300n, 9007199254740991)] the integral quotient is 3 and
    the remainder comes out as [new BigDecimal(91n, 9007199254740992)],
    more than nine times the dividend less three times the divisor. *)
Lemma remainder_follows_dividend_overflow :
  ~ (forall a b q r,
       significant b <> 0 ->
       Rounded.divideToIntegralValue a b = Ok q ->
       Rounded.remainder a b = Ok r ->
       (toQ r == toQ a - toQ q * toQ b)%Q).
Proof.
  intros H.
  assert (Hq : Rounded.divideToIntegralValue
                 (mk 1000 9007199254740991) (mk 300 9007199254740991)
               = Ok (mk 3 0)) by (vm_compute; reflexivity).
  assert (Hr : Rounded.remainder
                 (mk 1000 9007199254740991) (mk 300 9007199254740991)
               = Ok (mk 91 (9007199254740991 + 1)))
    by (vm_compute; reflexivity).
  exact (toQ_remainder_misplaced 9007199254740991
           (H (mk 1000 9007199254740991) (mk 300 9007199254740991)
              (mk 3 0) (mk 91 (9007199254740991 + 1))
              ltac:(discriminate) Hq Hr)).
Qed.

(** ** Further properties on numbers *)

(** X1. On operands of moderate size [add] returns the exact sum, in normal
    form: nothing is rounded, and [subtract] returns the exact
    difference. *)
Theorem add_subtract_exact (a b : BigDecimal) :
  moderate a -> moderate b ->
  (toQ (Rounded.add a b) == toQ a + toQ b)%Q /\
  (toQ (Rounded.subtract a b) == toQ a - toQ b)%Q /\
  Rounded.add a b = Rounded.normalized (Rounded.add a b) /\
  Rounded.subtract a b = Rounded.normalized (Rounded.subtract a b).
Proof.
  intros Ha Hb.
  rewrite (rounded_add (2 ^ 40) a b), (rounded_subtract (2 ^ 40) a b)
    by sized.
  rewrite (rounded_normalized (10 * 2 ^ 40 + 2) (add a b)),
          (rounded_normalized (10 * 2 ^ 40 + 2) (subtract a b)) by sized.
  apply add_subtract_exact_ideal.
Qed.

Lemma add_subtract_exact_witness :
  (toQ (Rounded.add (mk 125 (-2)) (mk 3 4))
   == toQ (mk 125 (-2)) + toQ (mk 3 4))%Q.
Proof.
  refine (proj1 (add_subtract_exact (mk 125 (-2)) (mk 3 4) _ _));
    split; vm_compute; discriminate.
Defined.

(** X2. On operands of moderate size [add] is commutative and associative
    on the nose: the two sides are the same significant and the same
    exponent, not only the same value.  Zero is neutral up to
    normalization; a value and its negation add up to
    [new BigDecimal(0n, 0)], and so does a value subtracted from itself,
    whatever the exponents. *)
Theorem add_group_laws (a b c : BigDecimal) :
  moderate a -> moderate b -> moderate c ->
  Rounded.add a b = Rounded.add b a /\
  Rounded.add (Rounded.add a b) c = Rounded.add a (Rounded.add b c) /\
  Rounded.add a ZERO = Rounded.normalized a /\
  Rounded.add ZERO a = Rounded.normalized a /\
  Rounded.add a (negate a) = ZERO /\
  Rounded.subtract a a = ZERO.
Proof.
  intros Ha Hb Hc.
  rewrite (rounded_add (2 ^ 40) a b), (rounded_add (2 ^ 40) b a),
          (rounded_add (2 ^ 40) b c), (rounded_add (2 ^ 40) a ZERO),
          (rounded_add (2 ^ 40) ZERO a), (rounded_add (2 ^ 40) a (negate a)),
          (rounded_subtract (2 ^ 40) a a), (rounded_normalized (2 ^ 40) a)
    by sized.
  rewrite (rounded_add (10 * 2 ^ 40 + 2) (add a b) c),
          (rounded_add (10 * 2 ^ 40 + 2) a (add b c)) by sized.
  apply add_group_laws_ideal.
Qed.

Lemma add_group_laws_witness :
  Rounded.add (Rounded.add (mk 5 (-1)) (mk 25 (-2))) (mk 1 3)
  = Rounded.add (mk 5 (-1)) (Rounded.add (mk 25 (-2)) (mk 1 3)).
Proof.
  refine (proj1 (proj2
    (add_group_laws (mk 5 (-1)) (mk 25 (-2)) (mk 1 3) _ _ _)));
    split; vm_compute; discriminate.
Defined.

(** X3. On operands of moderate size [multiply] returns the exact product
    in normal form; it is commutative and associative on the nose, and it
    distributes over [add].  One is neutral up to normalization, and a
    product with a zero operand is [new BigDecimal(0n, 0)] whatever the
    exponents. *)
Theorem multiply_ring_laws (a b c z : BigDecimal) :
  moderate a -> moderate b -> moderate c -> moderate z ->
  (toQ (Rounded.multiply a b) == toQ a * toQ b)%Q /\
  Rounded.multiply a b = Rounded.normalized (Rounded.multiply a b) /\
  Rounded.multiply a b = Rounded.multiply b a /\
  Rounded.multiply (Rounded.multiply a b) c
  = Rounded.multiply a (Rounded.multiply b c) /\
  Rounded.multiply a (Rounded.add b c)
  = Rounded.add (Rounded.multiply a b) (Rounded.multiply a c) /\
  Rounded.multiply a ONE = Rounded.normalized a /\
  Rounded.multiply ONE a = Rounded.normalized a /\
  (significant z = 0 ->
     Rounded.multiply a z = ZERO /\ Rounded.multiply z a = ZERO).
Proof.
  intros Ha Hb Hc Hz.
  rewrite (rounded_multiply (2 ^ 40) a b), (rounded_multiply (2 ^ 40) b a),
          (rounded_multiply (2 ^ 40) b c), (rounded_multiply (2 ^ 40) a c),
          (rounded_multiply (2 ^ 40) a ONE), (rounded_multiply (2 ^ 40) ONE a),
          (rounded_multiply (2 ^ 40) a z), (rounded_multiply (2 ^ 40) z a),
          (rounded_add (2 ^ 40) b c), (rounded_normalized (2 ^ 40) a)
    by sized.
  rewrite (rounded_normalized (4 * 2 ^ 40 + 1) (multiply a b)),
          (rounded_multiply (4 * 2 ^ 40 + 1) (multiply a b) c),
          (rounded_multiply (4 * 2 ^ 40 + 1) a (multiply b c)),
          (rounded_multiply (10 * 2 ^ 40 + 2) a (add b c)),
          (rounded_add (4 * 2 ^ 40 + 1) (multiply a b) (multiply a c))
    by sized.
  apply multiply_ring_laws_ideal.
Qed.

Lemma multiply_ring_laws_witness :
  Rounded.multiply (mk 25 (-1)) (mk 0 7) = ZERO /\
  Rounded.multiply (mk 0 7) (mk 25 (-1)) = ZERO.
Proof.
  refine (proj2 (proj2 (proj2 (proj2 (proj2 (proj2 (proj2
    (multiply_ring_laws (mk 25 (-1)) ONE ONE (mk 0 7) _ _ _ _))))))) _);
    first [reflexivity | split; vm_compute; discriminate].
Defined.

(** X7. For a value of moderate size and powers of ten within [2 ^ 40],
    [scaleByPowerOfTen] multiplies the value by the power of ten and
    normalizes; scaling twice is scaling by the sum, so that scaling by [e]
    and then by [-e] gives the normal form back. *)
Theorem scaleByPowerOfTen_exact (x : BigDecimal) (e1 e2 : Z) :
  moderate x -> Z.abs e1 <= 2 ^ 40 -> Z.abs e2 <= 2 ^ 40 ->
  (toQ (Rounded.scaleByPowerOfTen x e1) == toQ x * (10 # 1) ^ e1)%Q /\
  Rounded.scaleByPowerOfTen (Rounded.scaleByPowerOfTen x e1) e2
  = Rounded.scaleByPowerOfTen x (e1 + e2) /\
  Rounded.scaleByPowerOfTen (Rounded.scaleByPowerOfTen x e1) (- e1)
  = Rounded.normalized x /\
  Rounded.scaleByPowerOfTen x 0 = Rounded.normalized x.
Proof.
  intros Hx He1 He2.
  assert (H3 : forall e, Z.abs e <= 3 * 2 ^ 40 ->
            Rounded.scaleByPowerOfTen (scaleByPowerOfTen x e1) e
            = scaleByPowerOfTen (scaleByPowerOfTen x e1) e).
  { intros e He. apply (rounded_scaleByPowerOfTen (3 * 2 ^ 40));
      [apply scaleByPowerOfTen_fits; sized | exact He | sized]. }
  rewrite (rounded_scaleByPowerOfTen (2 ^ 40) x e1),
          (rounded_scaleByPowerOfTen (2 ^ 40) x 0),
          (rounded_normalized (2 ^ 40) x) by sized.
  rewrite (rounded_scaleByPowerOfTen (2 * 2 ^ 40) x (e1 + e2))
    by sized.
  rewrite !H3 by numeric.
  apply scaleByPowerOfTen_exact_ideal.
Qed.

Lemma scaleByPowerOfTen_exact_witness :
  Rounded.scaleByPowerOfTen (Rounded.scaleByPowerOfTen (mk 120 (-2)) 5) (-5)
  = Rounded.normalized (mk 120 (-2)).
Proof.
  refine (proj1 (proj2 (proj2
    (scaleByPowerOfTen_exact (mk 120 (-2)) 5 0 _ _ _))));
    first [split; vm_compute; discriminate | vm_compute; discriminate].
Defined.

(** X8. For a base of moderate size and exponents up to 256, [pow] fails
    exactly on a negative exponent.  Otherwise it returns the exact power in
    normal form; the power of a sum of exponents is the product of the
    powers, and exponent zero gives one, also for a zero base. *)
Theorem pow_exact (x : BigDecimal) (e1 e2 : Z) :
  moderate x -> e1 <= 2 ^ 8 -> e2 <= 2 ^ 8 ->
  (Rounded.pow x e1 = Err InvalidOperand <-> e1 < 0) /\
  (0 <= e1 ->
     exists r, Rounded.pow x e1 = Ok r /\ (toQ r == toQ x ^ e1)%Q /\
               is_normal r) /\
  (0 <= e1 -> 0 <= e2 ->
     (p1 <- Rounded.pow x e1 ;; p2 <- Rounded.pow x e2 ;;
      Ok (Rounded.multiply p1 p2))%result
     = Rounded.pow x (e1 + e2)) /\
  Rounded.pow x 0 = Ok ONE.
Proof.
  intros Hx He1 He2.
  assert (Hfx : fits (2 ^ 40) x) by exact Hx.
  change (2 ^ 8) with 256 in *.
  rewrite (rounded_pow (2 ^ 40) 256 x e1 Hfx He1),
          (rounded_pow (2 ^ 40) 256 x e2 Hfx He2),
          (rounded_pow (2 ^ 40) 256 x 0 Hfx), 
          (rounded_pow (2 ^ 40) 512 x (e1 + e2) Hfx) by numeric.
  destruct (pow_exact_ideal x e1 e2) as (H1 & H2 & H3 & H4).
  split; [exact H1|]. split; [exact H2|]. split; [|exact H4].
  intros H01 H02. rewrite <- (H3 H01 H02).
  destruct (pow x e1) as [p1|] eqn:Hp1; [|reflexivity].
  destruct (pow x e2) as [p2|] eqn:Hp2; [|reflexivity].
  cbn [bind]. f_equal.
  apply (rounded_multiply (256 * (2 * 2 ^ 40 + 1)));
    [ apply (pow_fits (2 ^ 40) 256 x p1 e1 Hfx He1 Hp1)
    | apply (pow_fits (2 ^ 40) 256 x p2 e2 Hfx He2 Hp2)
    | numeric ].
Qed.

Lemma pow_exact_witness :
  exists r, Rounded.pow (mk 12 (-1)) 4 = Ok r /\
            (toQ r == toQ (mk 12 (-1)) ^ 4)%Q /\ is_normal r.
Proof.
  refine (proj1 (proj2 (pow_exact (mk 12 (-1)) 4 0 _ _ _)) _);
    first [split; vm_compute; discriminate | vm_compute; discriminate | lia].
Defined.

(** X9. On a value of moderate size [normalized] does not change the value
    or the sign; on a nonzero significant it only moves factors of ten from
    the significant to the exponent, so the exponent does not decrease and
    the significant does not grow. *)
Theorem normalized_preserves_value (x : BigDecimal) :
  moderate x ->
  (toQ (Rounded.normalized x) == toQ x)%Q /\
  Z.sgn (significant (Rounded.normalized x)) = Z.sgn (significant x) /\
  Z.abs (significant (Rounded.normalized x)) <= Z.abs (significant x) /\
  (significant x <> 0 ->
     exponent x <= exponent (Rounded.normalized x) /\
     significant x
     = significant (Rounded.normalized x)
       * 10 ^ (exponent (Rounded.normalized x) - exponent x)).
Proof.
  intros Hx. rewrite (rounded_normalized (2 ^ 40) x) by sized.
  apply normalized_preserves_value_ideal.
Qed.

Lemma normalized_preserves_value_witness :
  exponent (mk 1200 (-3)) <= exponent (Rounded.normalized (mk 1200 (-3))) /\
  significant (mk 1200 (-3))
  = significant (Rounded.normalized (mk 1200 (-3)))
    * 10 ^ (exponent (Rounded.normalized (mk 1200 (-3)))
            - exponent (mk 1200 (-3))).
Proof.
  refine (proj2 (proj2 (proj2
    (normalized_preserves_value (mk 1200 (-3)) _))) _);
    first [split; vm_compute; discriminate | discriminate].
Defined.

(** X10. On values of moderate size [equalValue] decides equality of the
    values: it holds exactly when the two operands stand for the same
    number.  It is an equivalence, it is implied by [equals], and it does
    not see normalization. *)
Theorem equalValue_numeric (x y z : BigDecimal) :
  moderate x -> moderate y -> moderate z ->
  (Rounded.equalValue x y = true <-> (toQ x == toQ y)%Q) /\
  Rounded.equalValue x x = true /\
  Rounded.equalValue x y = Rounded.equalValue y x /\
  (Rounded.equalValue x y = true -> Rounded.equalValue y z = true ->
   Rounded.equalValue x z = true) /\
  (equals x y = true -> Rounded.equalValue x y = true) /\
  Rounded.equalValue (Rounded.normalized x) x = true.
Proof.
  intros Hx Hy Hz.
  rewrite (rounded_equalValue (2 ^ 40) x y), (rounded_equalValue (2 ^ 40) x x),
          (rounded_equalValue (2 ^ 40) y x), (rounded_equalValue (2 ^ 40) y z),
          (rounded_equalValue (2 ^ 40) x z), (rounded_normalized (2 ^ 40) x)
    by sized.
  rewrite (rounded_equalValue (2 * 2 ^ 40) (normalized x) x) by sized.
  apply equalValue_numeric_ideal.
Qed.

Lemma equalValue_numeric_witness :
  Rounded.equalValue (mk 120 (-2)) (mk 12 (-1)) = true.
Proof.
  refine (proj2 (proj1
    (equalValue_numeric (mk 120 (-2)) (mk 12 (-1)) ZERO _ _ _)) _);
    first [split; vm_compute; discriminate | reflexivity].
Defined.

(** X11. On values of moderate size [compareTo] is the three-way comparison
    of the values: -1, 0 or 1 as the value of [this] is below, equal to or
    above the value of [other], whatever the representations; exchanging the
    operands negates it, and it returns 0 exactly when [equalValue]
    holds. *)
Theorem compareTo_order (a b : BigDecimal) :
  moderate a -> moderate b ->
  (Rounded.compareTo a b = -1 <-> (toQ a < toQ b)%Q) /\
  (Rounded.compareTo a b = 0 <-> (toQ a == toQ b)%Q) /\
  (Rounded.compareTo a b = 1 <-> (toQ b < toQ a)%Q) /\
  Rounded.compareTo b a = - Rounded.compareTo a b /\
  (Rounded.compareTo a b = 0 <-> Rounded.equalValue a b = true).
Proof.
  intros Ha Hb.
  rewrite (rounded_compareTo (2 ^ 40) a b), (rounded_compareTo (2 ^ 40) b a),
          (rounded_equalValue (2 ^ 40) a b) by sized.
  apply compareTo_order_ideal.
Qed.

Lemma compareTo_order_witness :
  Rounded.compareTo (mk 2 0) (mk 1 1) = -1.
Proof.
  refine (proj2 (proj1 (compareTo_order (mk 2 0) (mk 1 1) _ _)) _);
    first [split; vm_compute; discriminate | reflexivity].
Defined.

(** X12. On values of moderate size [min] and [max] return one of their two
    operands, as it is, without normalizing it: [min] one whose value is not
    above the other's, [max] one whose value is not below; on a tie both
    return [this]. *)
Theorem min_max_select (a b : BigDecimal) :
  moderate a -> moderate b ->
  (Rounded.min a b = a \/ Rounded.min a b = b) /\
  (Rounded.max a b = a \/ Rounded.max a b = b) /\
  (toQ (Rounded.min a b) <= toQ a /\ toQ (Rounded.min a b) <= toQ b)%Q /\
  (toQ a <= toQ (Rounded.max a b) /\ toQ b <= toQ (Rounded.max a b))%Q /\
  ((toQ a == toQ b)%Q -> Rounded.min a b = a /\ Rounded.max a b = a).
Proof.
  intros Ha Hb.
  destruct (rounded_min_max (2 ^ 40) a b) as [-> ->]; [sized | sized | sized |].
  apply min_max_select_ideal.
Qed.

Lemma min_max_select_witness :
  Rounded.min (mk 10 (-1)) (mk 1 0) = mk 10 (-1) /\
  Rounded.max (mk 10 (-1)) (mk 1 0) = mk 10 (-1).
Proof.
  refine (proj2 (proj2 (proj2 (proj2
    (min_max_select (mk 10 (-1)) (mk 1 0) _ _)))) _);
    first [split; vm_compute; discriminate | reflexivity].
Defined.

(** X15. For operands of moderate size a quotient that [divide] returns is
    in normal form and never overshoots: multiplied back by the divisor it
    lies between zero and the dividend, on the dividend's side of zero. *)
Theorem divide_never_overshoots (a b q : BigDecimal) :
  moderate a -> moderate b ->
  Rounded.divide a b = Ok q ->
  is_normal q /\
  Qbetween0 (toQ (Rounded.multiply q b)) (toQ a) /\
  0 <= significant (Rounded.multiply q b) * significant a /\
  (Qabs (toQ (Rounded.multiply q b)) <= Qabs (toQ a))%Q.
Proof.
  intros Ha Hb Hq. rewrite (rounded_divide (2 ^ 40)) in Hq by sized.
  pose proof (divide_fits (2 ^ 40) a b q Ha Hb Hq) as Hfq.
  rewrite (rounded_multiply (3 * 2 ^ 40 + 51) q b) by sized.
  apply divide_never_overshoots_ideal. exact Hq.
Qed.

Lemma divide_never_overshoots_witness :
  is_normal (mk 3333333333 (-10)) /\
  Qbetween0 (toQ (Rounded.multiply (mk 3333333333 (-10)) (mk 3 0)))
            (toQ (mk 1 0)) /\
  0 <= significant (Rounded.multiply (mk 3333333333 (-10)) (mk 3 0))
       * significant (mk 1 0) /\
  (Qabs (toQ (Rounded.multiply (mk 3333333333 (-10)) (mk 3 0)))
   <= Qabs (toQ (mk 1 0)))%Q.
Proof.
  refine (divide_never_overshoots (mk 1 0) (mk 3 0) (mk 3333333333 (-10))
            _ _ _);
    first [split; vm_compute; discriminate | vm_compute; reflexivity].
Defined.

(** X19. For a value of moderate size and a precision within [2 ^ 40], in
    every mode the result of [round] is less than one unit of the last kept
    digit away from the operand. *)
Theorem round_error_below_unit (x : BigDecimal) (mode : RoundingMode) (p : Z) :
  moderate x -> Z.abs p <= 2 ^ 40 ->
  (Qabs (toQ (Rounded.round x mode p) - toQ x) < (10 # 1) ^ (- p))%Q.
Proof.
  intros Hx Hp. rewrite (rounded_round (2 ^ 40)) by sized.
  apply round_error_below_unit_ideal.
Qed.

Lemma round_error_below_unit_witness :
  (Qabs (toQ (Rounded.round (mk 12345 (-4)) Ceiling 2) - toQ (mk 12345 (-4)))
   < (10 # 1) ^ (- 2))%Q.
Proof.
  refine (round_error_below_unit (mk 12345 (-4)) Ceiling 2 _ _);
    first [split; vm_compute; discriminate | vm_compute; discriminate].
Defined.

(** X20. For a value of moderate size and a precision within [2 ^ 40],
    [floor] never returns more than the operand and [ceiling] never less,
    for operands of either sign; the two results are at most one unit of the
    last kept digit apart.  [ceiling] is [up] on a value that is not
    negative and [down] on a negative one; [floor] is the other way
    round. *)
Theorem floor_ceiling_bracket (x : BigDecimal) (p : Z) :
  moderate x -> Z.abs p <= 2 ^ 40 ->
  (toQ (Rounded.round x Floor p) <= toQ x)%Q /\
  (toQ x <= toQ (Rounded.round x Ceiling p))%Q /\
  (toQ (Rounded.round x Ceiling p) - toQ (Rounded.round x Floor p)
   <= (10 # 1) ^ (- p))%Q /\
  Rounded.round x Ceiling p
  = Rounded.round x (if significant x <? 0 then Down else Up) p /\
  Rounded.round x Floor p
  = Rounded.round x (if significant x <? 0 then Up else Down) p.
Proof.
  intros Hx Hp. rewrite !(rounded_round (2 ^ 40) x) by sized.
  apply floor_ceiling_bracket_ideal.
Qed.

Lemma floor_ceiling_bracket_witness :
  (toQ (mk (-12345) (-4)) <= toQ (Rounded.round (mk (-12345) (-4)) Ceiling 2))%Q.
Proof.
  refine (proj1 (proj2 (floor_ceiling_bracket (mk (-12345) (-4)) 2 _ _)));
    first [split; vm_compute; discriminate | vm_compute; discriminate].
Defined.

(** X21. For a value of moderate size and a precision within [2 ^ 40],
    [down] never moves away from zero and [up] never moves toward it: the
    result of [down] lies between zero and the operand, and the operand lies
    between zero and the result of [up]. *)
Theorem down_up_direction (x : BigDecimal) (p : Z) :
  moderate x -> Z.abs p <= 2 ^ 40 ->
  Qbetween0 (toQ (Rounded.round x Down p)) (toQ x) /\
  Qbetween0 (toQ x) (toQ (Rounded.round x Up p)).
Proof.
  intros Hx Hp. rewrite !(rounded_round (2 ^ 40) x) by sized.
  apply down_up_direction_ideal.
Qed.

Lemma down_up_direction_witness :
  Qbetween0 (toQ (mk (-12345) (-4)))
            (toQ (Rounded.round (mk (-12345) (-4)) Up 2)).
Proof.
  refine (proj2 (down_up_direction (mk (-12345) (-4)) 2 _ _));
    first [split; vm_compute; discriminate | vm_compute; discriminate].
Defined.

(** X22. For a value of moderate size and a precision within [2 ^ 40],
    [halfUp] rounds to a nearest value: its result is at most half a unit of
    the last kept digit away from the operand. *)
Theorem halfUp_nearest (x : BigDecimal) (p : Z) :
  moderate x -> Z.abs p <= 2 ^ 40 ->
  (Qabs (toQ (Rounded.round x HalfUp p) - toQ x)
   <= (1 # 2) * (10 # 1) ^ (- p))%Q.
Proof.
  intros Hx Hp. rewrite (rounded_round (2 ^ 40)) by sized.
  apply halfUp_nearest_ideal.
Qed.

Lemma halfUp_nearest_witness :
  (Qabs (toQ (Rounded.round (mk 2150 (-3)) HalfUp 1) - toQ (mk 2150 (-3)))
   <= (1 # 2) * (10 # 1) ^ (- 1))%Q.
Proof.
  refine (halfUp_nearest (mk 2150 (-3)) 1 _ _);
    first [split; vm_compute; discriminate | vm_compute; discriminate].
Defined.

(** X25. On values of moderate size, rounding down to precision zero is
    taking the integral part, up to normalization; so
    [divideToIntegralValue] is [divide] followed by [integralPart], and its
    result is a whole number. *)
Theorem divideToIntegralValue_integralPart (a b x : BigDecimal) :
  moderate a -> moderate b -> moderate x ->
  Rounded.round x Down 0 = Rounded.normalized (Rounded.integralPart x) /\
  (toQ (Rounded.round x Down 0) == inject_Z (Qtruncate (toQ x)))%Q /\
  Rounded.divideToIntegralValue a b
  = fmap (fun q => Rounded.normalized (Rounded.integralPart q))
         (Rounded.divide a b) /\
  (forall t, Rounded.divideToIntegralValue a b = Ok t -> 0 <= exponent t).
Proof.
  intros Ha Hb Hx.
  destruct (divideToIntegralValue_integralPart_ideal a b x)
    as (H1 & H2 & H3 & H4).
  destruct (rounded_parts (2 ^ 40) x) as [Hi _]; [sized | sized |].
  rewrite (rounded_round (2 ^ 40) x) by sized.
  rewrite Hi, (rounded_normalized (2 * 2 ^ 40) (integralPart x)) by sized.
  rewrite (rounded_divideToIntegralValue (2 ^ 40) a b),
          (rounded_divide (2 ^ 40) a b) by sized.
  split; [exact H1|]. split; [exact H2|]. split; [|exact H4].
  rewrite H3. destruct (divide a b) as [q|] eqn:Hq; [|reflexivity].
  cbn [fmap bind]. unfold fmap. cbn [bind]. cbv beta. f_equal.
  pose proof (divide_fits (2 ^ 40) a b q Ha Hb Hq) as Hfq.
  destruct (rounded_parts (3 * 2 ^ 40 + 51) q) as [-> _]; [sized | sized |].
  symmetry. apply (rounded_normalized (2 * (3 * 2 ^ 40 + 51))); sized.
Qed.

Lemma divideToIntegralValue_integralPart_witness :
  Rounded.round (mk (-1275) (-2)) Down 0
  = Rounded.normalized (Rounded.integralPart (mk (-1275) (-2))).
Proof.
  refine (proj1 (divideToIntegralValue_integralPart ONE ONE
                   (mk (-1275) (-2)) _ _ _));
    split; vm_compute; discriminate.
Defined.

(** X26. For operands of moderate size, when the exponent of the dividend
    exceeds that of the divisor by at most ten, the remainder is smaller
    than the divisor in absolute value.  Beyond that it need not be: the
    quotient is then cut off above the units, and the remainder of 1e11 by 3
    is 10. *)
Theorem remainder_below_divisor (a b r : BigDecimal) :
  moderate a -> moderate b ->
  significant b <> 0 ->
  exponent a - exponent b <= 10 ->
  Rounded.remainder a b = Ok r ->
  (Qabs (toQ r) < Qabs (toQ b))%Q /\
  Rounded.remainder (mk 1 11) (mk 3 0) = Ok (mk 1 1).
Proof.
  intros Ha Hb Hnz He Hr.
  rewrite (rounded_remainder (2 ^ 40)) in Hr by sized.
  destruct (remainder_below_divisor_ideal a b r Hnz He Hr) as [H1 _].
  split; [exact H1 | vm_compute; reflexivity].
Qed.

Lemma remainder_below_divisor_witness :
  (Qabs (toQ (mk (-1) 0)) < Qabs (toQ (mk 2 0)))%Q /\
  Rounded.remainder (mk 1 11) (mk 3 0) = Ok (mk 1 1).
Proof.
  refine (remainder_below_divisor (mk (-7) 0) (mk 2 0) (mk (-1) 0) _ _ _ _ _);
    first [ split; vm_compute; discriminate | discriminate
          | vm_compute; reflexivity ].
Defined.
